(** * static_multimap: probe engine, group-cooperative insert, find_all iterator

A shallow embedding of [cuco::static_multimap] (the header with
[device_view_base], [device_mutable_view] and [device_view]) and of the
identity hash functions of [cuco/detail/hash_functions/identityhash.cuh].

Conventions.
- Keys and mapped values are fixed-width integers; a key or value is
  represented by its bit pattern, a [Z] in [0, 2^w).
- A pointer into the slot array is represented by its index
  ([s - slots_]); [end()] is the index [capacity_].
- [std::size_t] is 64 bits wide, [unsigned int] and [uint32_t] 32 bits;
  their wrap-around is written out with [u64] and [u32].
- Where the C++ has undefined behaviour (division by zero, an access
  outside the slot array) the model returns [None]. *)

From Stdlib Require Import ZArith Lia List Bool.
From stdpp Require Import base list numbers.

Local Open Scope Z_scope.

(** ** Machine integers *)

Definition u32 (x : Z) : Z := x mod 2 ^ 32.
Definition u64 (x : Z) : Z := x mod 2 ^ 64.

(** ** Probe sequence engine ([device_view_base]) *)

Module Probe.

Section WithHash.

(** [hash] is the unary callable handed to the view; [kbits] is the width
    of [Key].  [k + 1] is computed in the key type, i.e. modulo
    [2 ^ kbits] on the bit pattern. *)
Variable hash : Z -> Z.
Variable kbits : Z.

Definition key_plus_one (k : Z) : Z := (k + 1) mod 2 ^ kbits.

(** [initial_slot(Key const& k, Hash hash)]: [&slots_[hash(k) % capacity_]]. *)
Definition initial_slot (capacity_ k : Z) : option Z :=
  if capacity_ =? 0 then None else Some (u64 (hash k) mod capacity_).

(** [next_slot(iterator s)]: [(++s < end()) ? s : begin_slot()]. *)
Definition next_slot (capacity_ s : Z) : Z :=
  if s + 1 <? capacity_ then s + 1 else 0.

(** [initial_slot(CG g, Key const& k, Hash hash)].  The result is the
    pair of the value stored into [step_size_] and the returned slot
    index.  [cg_size] is [g.size()] and [rank] is [g.thread_rank()], both
    [unsigned int]; every other operand is a [std::size_t].
    [step_modulus] is the divisor [capacity_ / (cg_size * 2) - 1] of the
    step size. *)
Definition step_modulus (capacity_ cg_size : Z) : Z :=
  u64 (capacity_ / u32 (cg_size * 2) - 1).

Definition cg_initial_slot (capacity_ cg_size rank k : Z) : option (Z * Z) :=
  let two_g := u32 (cg_size * 2) in
  if two_g =? 0 then None else
  let modulus := step_modulus capacity_ cg_size in
  if modulus =? 0 then None else
  let step_size :=
    u64 (u64 (u64 (u64 (hash (key_plus_one k)) mod modulus + 1) * cg_size) * 2) in
  let h := u64 (hash k) in
  if capacity_ / two_g =? 0 then None else
  let slot_index :=
    u64 (u64 (u64 (h mod (capacity_ / two_g) * cg_size) * 2) + u32 (rank * 2)) in
  Some (step_size, slot_index).

(** [next_slot(CG g, iterator s)]:
    [uint32_t index = s - slots_; return &slots_[(index + step_size_) % capacity_];] *)
Definition cg_next_slot (capacity_ step_size_ s : Z) : option Z :=
  let index := u32 s in
  if capacity_ =? 0 then None
  else Some (u64 (index + step_size_) mod capacity_).

(** The slot a lane holds after [n] group steps from slot [s]. *)
Fixpoint cg_probe (capacity_ step_size_ s : Z) (n : nat) : option Z :=
  match n with
  | O => Some s
  | S n' =>
      match cg_next_slot capacity_ step_size_ s with
      | Some s' => cg_probe capacity_ step_size_ s' n'
      | None => None
      end
  end.

(** The slot of lane [rank] after [initial_slot] and [n] calls of the
    group [next_slot]. *)
Definition lane_slot (capacity_ cg_size rank k : Z) (n : nat) : option Z :=
  match cg_initial_slot capacity_ cg_size rank k with
  | Some (step, s0) => cg_probe capacity_ step s0 n
  | None => None
  end.

(** A lane position that is in bounds for the two-slot wide load. *)
Definition lane_ok (capacity_ s : Z) : Prop :=
  Z.even s = true /\ 0 <= s <= capacity_ - 2.

(** The formulas of the specification text, for comparison with the
    code: window start [hash(k) mod (capacity / 2G)], lane offset [2r],
    and step [hash(k+1) mod (capacity/2G - 1)] scaled by [2G]. *)
Definition spec_initial_index (capacity_ G r k : Z) : Z :=
  (hash k mod (capacity_ / (2 * G))) * (2 * G) + 2 * r.

Definition spec_step_size (capacity_ G k : Z) : Z :=
  (hash (key_plus_one k) mod (capacity_ / (2 * G) - 1)) * (2 * G).

(** What the code stores into [step_size_]. *)
Definition code_step_size (capacity_ G k : Z) : Z :=
  (hash (key_plus_one k) mod (capacity_ / (2 * G) - 1) + 1) * (2 * G).

End WithHash.

End Probe.

(** ** Identity hash functions ([identityhash.cuh]) *)

Module IdentityHash.

(** The object representation of a key: [size] bytes, least significant
    first (the byte order of the device and of the hosts that drive it). *)
Fixpoint key_bytes (size : nat) (key : Z) : list Z :=
  match size with
  | O => []
  | S n => key mod 256 :: key_bytes n (key / 256)
  end.

Fixpoint bytes_value (bytes : list Z) : Z :=
  match bytes with
  | [] => 0
  | b :: rest => b + 256 * bytes_value rest
  end.

(** An instance of the [load_chunk] parameter below: a [memcpy] of [w]
    bytes starting at chunk number [index], failing outside the object. *)
Definition load_chunk_memcpy (w : nat) (bytes : list Z) (index : Z) : option Z :=
  let chunk := take w (drop (Z.to_nat index * w) bytes) in
  if (index <? 0) || negb (Nat.eqb (length chunk) w) then None
  else Some (bytes_value chunk).

Section WithLoadChunk.

(** [load_chunk<T>(bytes, index)] is a helper of
    [hash_functions/utils.cuh], outside the two files modelled here; the
    hash functions are parametrised by it.  [w] is [sizeof(T)]. *)
Variable load_chunk : nat -> list Z -> Z -> option Z.

(** [IdentityHash_32::compute_hash(bytes, size)]. *)
Definition compute_hash_32 (seed_ : Z) (bytes : list Z) (size : Z) : option Z :=
  if 4 <=? size then
    let offset := size - 4 in
    match load_chunk 4%nat bytes offset with
    | Some h1 => Some (Z.lxor h1 seed_)
    | None => None
    end
  else
    let shift := (size * 1) mod 2 ^ 8 in
    let mask := u32 (Z.shiftl 1 (shift / 2)) in
    let mask := u32 (Z.shiftl mask (shift / 2 + shift mod 2)) in
    match bytes with
    | b0 :: _ => Some (Z.lxor (Z.land b0 mask) seed_)
    | [] => None
    end.

(** [IdentityHash_32::operator()(key)] for a key type of [size] bytes:
    both branches of the [if constexpr] hash the object representation
    of the key with extent [sizeof(Key)]. *)
Definition IdentityHash_32 (seed_ : Z) (size : nat) (key : Z) : option Z :=
  compute_hash_32 seed_ (key_bytes size key) (Z.of_nat size).

(** [IdentityHash_64::compute_hash(bytes, size)]; [offset] is computed
    but the chunk is loaded at index 0. *)
Definition compute_hash_64 (seed_ : Z) (bytes : list Z) (size : Z) : option Z :=
  if 8 <=? size then
    match load_chunk 8%nat bytes 0 with
    | Some h1 => Some (Z.lxor h1 seed_)
    | None => None
    end
  else
    let shift := (size * 1 - 1) mod 2 ^ 8 in
    let mask := u64 (Z.shiftl 1 (shift / 2)) in
    let mask := u64 (Z.shiftl mask (shift / 2 + shift mod 2)) in
    match bytes with
    | b0 :: _ => Some (Z.lxor (Z.land b0 mask) seed_)
    | [] => None
    end.

Definition IdentityHash_64 (seed_ : Z) (size : nat) (key : Z) : option Z :=
  compute_hash_64 seed_ (key_bytes size key) (Z.of_nat size).

End WithLoadChunk.

End IdentityHash.

(** ** Slot storage *)

(** [pair_atomic_type]: an atomic key and an atomic mapped value. *)
Record slot := Slot { first : Z; second : Z }.

(** What every view carries besides the pointer to the slots. *)
Record view := View {
  capacity_ : Z;
  empty_key_sentinel_ : Z;
  empty_value_sentinel_ : Z
}.

Module Storage.

(** [slots_[i]], undefined outside the array. *)
Definition load (slots : list slot) (i : Z) : option slot :=
  if i <? 0 then None else slots !! Z.to_nat i.

Definition store (slots : list slot) (i : Z) (s : slot) : list slot :=
  <[Z.to_nat i := s]> slots.

(** [cell.compare_exchange_strong(expected, desired)] on the content
    [cell]: the result is (success, new [expected], new content). *)
Definition compare_exchange_strong (cell expected desired : Z) : bool * Z * Z :=
  if cell =? expected then (true, expected, desired) else (false, cell, cell).

(** A freshly constructed table: every slot holds the sentinel pair. *)
Definition empty_slots (v : view) : list slot :=
  replicate (Z.to_nat (capacity_ v))
    (Slot (empty_key_sentinel_ v) (empty_value_sentinel_ v)).

End Storage.

(** ** Group-cooperative insert ([device_mutable_view::insert(CG g, ...)])

The bodies for 4-byte and 8-byte keys are the same text apart from the
width of the wide load; one model serves both.

A probe group executes in lockstep, so it is modelled as one thread of
control whose state holds every lane's [current_slot].  The wide loads of
its lanes together are one step, and so is each compare-and-swap and the
store of the claiming lane; between two steps of a group any other group
may take steps. *)

(** [enum class insert_result] *)
Inductive insert_result := CONTINUE | SUCCESS | DUPLICATE.

Module Insert.

(** [g.ballot(pred)]: bit [r] of the result is the predicate of the lane
    of rank [r]. *)
Fixpoint ballot_from (r : Z) (preds : list bool) : Z :=
  match preds with
  | [] => 0
  | p :: ps => Z.lor (if p then Z.shiftl 1 r else 0) (ballot_from (r + 1) ps)
  end.

Definition ballot (preds : list bool) : Z := ballot_from 0 preds.

(** [__ffs(x)]: the position, counted from 1, of the least significant
    set bit of a 32-bit word; 0 when no bit is set. *)
Definition ffs (x : Z) : Z :=
  match find (fun i => Z.testbit x i) (map Z.of_nat (seq 0 32)) with
  | Some i => i + 1
  | None => 0
  end.

(** Where a group stands inside [insert]. *)
Inductive position :=
| AtLoad
    (** top of [while (true)]: wide load of the window and ballot *)
| AtKeyCas (insert_location : Z)
    (** the source lane, before [slot_key.compare_exchange_strong] *)
| AtValueCas (insert_location : Z) (key_success : bool)
    (** before the first [slot_value.compare_exchange_strong] *)
| AtValueLoop (insert_location : Z) (expected_value : Z)
    (** [key_success], inside [while (not value_success)] *)
| AtStore (insert_location : Z)
    (** [not key_success] and [value_success]: before [slot_value.store] *)
| AtVote (status : insert_result)
    (** [g.any(status == insert_result::SUCCESS)] *)
| Returned.

Record group := Group {
  insert_pair : Z * Z;
  current_slot : list Z;   (** one entry per lane, by rank *)
  step_size_ : Z;
  at_ : position
}.

Definition set_at (g : group) (p : position) : group :=
  Group (insert_pair g) (current_slot g) (step_size_ g) p.

Definition set_current_slot (g : group) (cur : list Z) : group :=
  Group (insert_pair g) cur (step_size_ g) (at_ g).

(** One lane's wide load of its two adjacent slots and the two emptiness
    tests: ([first_slot_is_empty], [second_slot_is_empty]). *)
Definition lane_load (v : view) (slots : list slot) (s : Z) : option (bool * bool) :=
  match Storage.load slots s, Storage.load slots (s + 1) with
  | Some a, Some b =>
      Some (first a =? empty_key_sentinel_ v, first b =? empty_key_sentinel_ v)
  | _, _ => None
  end.

Fixpoint window_load (v : view) (slots : list slot) (cur : list Z)
  : option (list (bool * bool)) :=
  match cur with
  | [] => Some []
  | s :: rest =>
      match lane_load v slots s, window_load v slots rest with
      | Some o, Some os => Some (o :: os)
      | _, _ => None
      end
  end.

(** Every lane executes [current_slot = next_slot(g, current_slot)]. *)
Fixpoint advance_lanes (v : view) (step : Z) (cur : list Z) : option (list Z) :=
  match cur with
  | [] => Some []
  | s :: rest =>
      match Probe.cg_next_slot (capacity_ v) step s, advance_lanes v step rest with
      | Some s', Some rest' => Some (s' :: rest')
      | _, _ => None
      end
  end.

Definition window_contains_empty (obs : list (bool * bool)) : Z :=
  ballot (map (fun o => fst o || snd o) obs).

(** [uint32_t src_lane = __ffs(window_contains_empty) - 1;] *)
Definition src_lane (obs : list (bool * bool)) : Z :=
  u32 (ffs (window_contains_empty obs) - 1).

(** [g.thread_rank() == src_lane], for the lane of rank [r]. *)
Definition lane_attempts (obs : list (bool * bool)) (r : Z) : bool :=
  r =? src_lane obs.

(** [current_slot + !(first_slot_is_empty)], for a lane at [s]. *)
Definition insert_location_of (s : Z) (o : bool * bool) : Z :=
  s + (if negb (fst o) then 1 else 0).

(** The slot the group is about to claim: the insert location of the
    lane whose rank is [src_lane], if there is such a lane. *)
Definition claim_target (cur : list Z) (obs : list (bool * bool)) : option Z :=
  let r := src_lane obs in
  match cur !! Z.to_nat r, obs !! Z.to_nat r with
  | Some s, Some o => Some (insert_location_of s o)
  | _, _ => None
  end.

(** One step of a group against the slot array. *)
Definition group_step (v : view) (slots : list slot) (g : group)
  : option (list slot * group) :=
  let ek := empty_key_sentinel_ v in
  let ev := empty_value_sentinel_ v in
  match at_ g with
  | AtLoad =>
      match window_load v slots (current_slot g) with
      | None => None
      | Some obs =>
          if window_contains_empty obs =? 0 then
            match advance_lanes v (step_size_ g) (current_slot g) with
            | Some cur' => Some (slots, set_current_slot g cur')
            | None => None
            end
          else
            match claim_target (current_slot g) obs with
            | Some loc => Some (slots, set_at g (AtKeyCas loc))
            | None => Some (slots, set_at g (AtVote CONTINUE))
            end
      end
  | AtKeyCas loc =>
      match Storage.load slots loc with
      | None => None
      | Some s =>
          let '(key_success, _, k') :=
            Storage.compare_exchange_strong (first s) ek (fst (insert_pair g)) in
          Some (Storage.store slots loc (Slot k' (second s)),
                set_at g (AtValueCas loc key_success))
      end
  | AtValueCas loc key_success =>
      match Storage.load slots loc with
      | None => None
      | Some s =>
          let '(value_success, expected_value, v') :=
            Storage.compare_exchange_strong (second s) ev (snd (insert_pair g)) in
          let slots' := Storage.store slots loc (Slot (first s) v') in
          if key_success then
            if value_success then Some (slots', set_at g (AtVote SUCCESS))
            else Some (slots', set_at g (AtValueLoop loc expected_value))
          else
            if value_success then Some (slots', set_at g (AtStore loc))
            else Some (slots', set_at g (AtVote CONTINUE))
      end
  | AtValueLoop loc _ =>
      match Storage.load slots loc with
      | None => None
      | Some s =>
          let '(value_success, expected_value, v') :=
            Storage.compare_exchange_strong (second s) ev (snd (insert_pair g)) in
          let slots' := Storage.store slots loc (Slot (first s) v') in
          if value_success then Some (slots', set_at g (AtVote SUCCESS))
          else Some (slots', set_at g (AtValueLoop loc expected_value))
      end
  | AtStore loc =>
      match Storage.load slots loc with
      | None => None
      | Some s =>
          Some (Storage.store slots loc (Slot (first s) ev),
                set_at g (AtVote CONTINUE))
      end
  | AtVote status =>
      match status with
      | SUCCESS => Some (slots, set_at g Returned)
      | _ => Some (slots, set_at g AtLoad)
      end
  | Returned => None
  end.

(** The slot array shared by the groups of one bulk insert. *)
Record config := Config {
  slots_ : list slot;
  groups : list group
}.

(** Group number [t] takes its next step. *)
Definition step_at (v : view) (t : nat) (c : config) : option config :=
  match groups c !! t with
  | None => None
  | Some g =>
      match group_step v (slots_ c) g with
      | None => None
      | Some (slots', g') => Some (Config slots' (<[t := g']> (groups c)))
      end
  end.

(** An interleaving: the groups named by [sched] step one after the other. *)
Fixpoint run (v : view) (sched : list nat) (c : config) : option config :=
  match sched with
  | [] => Some c
  | t :: rest =>
      match step_at v t c with
      | Some c' => run v rest c'
      | None => None
      end
  end.

(** The state in which a group enters the loop of [insert]. *)
Definition enter (hash : Z -> Z) (kbits : Z) (v : view) (cg_size : Z)
    (pair : Z * Z) : option group :=
  let lane r := Probe.cg_initial_slot hash kbits (capacity_ v) cg_size r (fst pair) in
  match lane 0 with
  | None => None
  | Some (step, _) =>
      match mapM (fun r => snd <$> lane (Z.of_nat r)) (seq 0 (Z.to_nat cg_size)) with
      | Some cur => Some (Group pair cur step AtLoad)
      | None => None
      end
  end.

(** The documented precondition of [insert]: neither sentinel is part of
    an inserted pair. *)
Definition valid_pair (v : view) (g : group) : Prop :=
  fst (insert_pair g) <> empty_key_sentinel_ v /\
  snd (insert_pair g) <> empty_value_sentinel_ v.

(** The group holds a key-claimed slot and still owes it the value. *)
Definition owes_value (g : group) (loc : Z) : Prop :=
  at_ g = AtValueCas loc true \/ exists e, at_ g = AtValueLoop loc e.

(** No group of [c] is in the middle of an attempt. *)
Definition quiescent (c : config) : Prop :=
  forall t g, groups c !! t = Some g -> at_ g = AtLoad \/ at_ g = Returned.

(** Every group of [c] inserts a valid pair. *)
Definition valid_pairs (v : view) (c : config) : Prop :=
  forall t g, groups c !! t = Some g -> valid_pair v g.

(** An empty slot carries the empty value: true of a fresh table. *)
Definition empty_slots_blank (v : view) (slots : list slot) : Prop :=
  forall loc s, Storage.load slots loc = Some s ->
    first s = empty_key_sentinel_ v -> second s = empty_value_sentinel_ v.

(** What the next step of a group writes. *)
Inductive effect :=
| Silent                 (** nothing changes in the slot array *)
| ClaimKey (loc : Z)     (** the key compare-and-swap succeeds *)
| Publish (loc : Z)      (** the value compare-and-swap of the key's owner succeeds *)
| Speculate (loc : Z)    (** a value compare-and-swap succeeds after a failed key claim *)
| Rollback (loc : Z).    (** [slot_value.store(empty_value_sentinel)] *)

Definition effect_of (v : view) (slots : list slot) (g : group) : effect :=
  match at_ g with
  | AtKeyCas loc =>
      match Storage.load slots loc with
      | Some s => if first s =? empty_key_sentinel_ v then ClaimKey loc else Silent
      | None => Silent
      end
  | AtValueCas loc key_success =>
      match Storage.load slots loc with
      | Some s =>
          if second s =? empty_value_sentinel_ v
          then if key_success then Publish loc else Speculate loc
          else Silent
      | None => Silent
      end
  | AtValueLoop loc _ =>
      match Storage.load slots loc with
      | Some s => if second s =? empty_value_sentinel_ v then Publish loc else Silent
      | None => Silent
      end
  | AtStore loc =>
      match Storage.load slots loc with
      | Some _ => Rollback loc
      | None => Silent
      end
  | _ => Silent
  end.

(** The invariant behind the two-phase publish.  A group that owes a slot
    its value sees its own key there and is the only such group; a group
    about to roll a speculative value back is the only one at that slot,
    and the value field is not the sentinel while it waits. *)
Record safe (v : view) (c : config) : Prop := Safe {
  safe_valid : valid_pairs v c;
  safe_owner_key : forall t g loc,
    groups c !! t = Some g -> owes_value g loc ->
    exists s, Storage.load (slots_ c) loc = Some s /\ first s = fst (insert_pair g);
  safe_owner_unique : forall t1 t2 g1 g2 loc,
    groups c !! t1 = Some g1 -> groups c !! t2 = Some g2 ->
    owes_value g1 loc -> owes_value g2 loc -> t1 = t2;
  safe_store_value : forall t g loc,
    groups c !! t = Some g -> at_ g = AtStore loc ->
    exists s, Storage.load (slots_ c) loc = Some s /\
              second s <> empty_value_sentinel_ v;
  safe_store_unique : forall t1 t2 g1 g2 loc,
    groups c !! t1 = Some g1 -> groups c !! t2 = Some g2 ->
    at_ g1 = AtStore loc -> at_ g2 = AtStore loc -> t1 = t2
}.

(** Slot [loc] holds the pair [(k, x)] for good: neither field is a
    sentinel and no group has a rollback pending on it. *)
Definition settled (v : view) (c : config) (loc k x : Z) : Prop :=
  Storage.load (slots_ c) loc = Some (Slot k x) /\
  k <> empty_key_sentinel_ v /\ x <> empty_value_sentinel_ v /\
  forall t g, groups c !! t = Some g -> at_ g <> AtStore loc.

(** The invariant behind the progress of the value loop: values sit only
    in claimed slots, and an owner that finds a value in its slot has a
    rollback pending there. *)
Record unblocked (v : view) (c : config) : Prop := Unblocked {
  unb_loser_key : forall t g loc,
    groups c !! t = Some g ->
    at_ g = AtValueCas loc false \/ at_ g = AtStore loc ->
    exists s, Storage.load (slots_ c) loc = Some s /\
              first s <> empty_key_sentinel_ v;
  unb_blank : empty_slots_blank v (slots_ c);
  unb_pending : forall t g loc s,
    groups c !! t = Some g -> owes_value g loc ->
    Storage.load (slots_ c) loc = Some s ->
    second s <> empty_value_sentinel_ v ->
    exists t' g', groups c !! t' = Some g' /\ at_ g' = AtStore loc
}.

End Insert.

(** ** The lazy duplicate-key iterator ([device_view::FancyIterator]) *)

Module Iter.

Record FancyIterator := Fancy {
  current_ : Z;
  key_ : Z;
  begin_ : Z;
  end_ : Z;
  it_empty_key_sentinel_ : Z
}.

(** The constructor: [begin_{view.begin_slot()}, end_{view.end_slot()}]. *)
Definition make (current key : Z) (v : view) : FancyIterator :=
  Fancy current key 0 (capacity_ v) (empty_key_sentinel_ v).

Definition set_current (it : FancyIterator) (p : Z) : FancyIterator :=
  Fancy p (key_ it) (begin_ it) (end_ it) (it_empty_key_sentinel_ it).

(** [FancyIterator::next_slot(it)]: [(++it < end_) ? it : begin_]. *)
Definition next_slot (it : FancyIterator) (p : Z) : Z :=
  if p + 1 <? end_ it then p + 1 else begin_ it.

(** The result of running a loop with a bound on its iterations. *)
Inductive outcome (A : Type) :=
| Finished (a : A)
| Fault          (** an access outside the slot array *)
| OutOfFuel.
Arguments Finished {A} a.
Arguments Fault {A}.
Arguments OutOfFuel {A}.

(** The [while (current_->first != key_)] loop of [operator++], entered
    with [current_ = p]; the result is the final [current_]. *)
Fixpoint scan (fuel : nat) (slots : list slot) (it : FancyIterator) (p : Z)
  : outcome Z :=
  match fuel with
  | O => OutOfFuel
  | S fuel' =>
      match Storage.load slots p with
      | None => Fault
      | Some s =>
          if negb (first s =? key_ it) then
            if first s =? it_empty_key_sentinel_ it then Finished (end_ it)
            else scan fuel' slots it (next_slot it p)
          else Finished p
      end
  end.

(** [FancyIterator::operator++()]. *)
Definition increment (fuel : nat) (slots : list slot) (it : FancyIterator)
  : outcome FancyIterator :=
  match scan fuel slots it (next_slot it (current_ it)) with
  | Finished p => Finished (set_current it p)
  | Fault => Fault
  | OutOfFuel => OutOfFuel
  end.

(** [operator==(const pointer_type& it)], used against [end()]. *)
Definition at_end (it : FancyIterator) : bool := current_ it =? end_ it.

(** Draining the iterator: the slots it stops at, from the first
    increment until it compares equal to [end()]; [rounds] bounds the
    number of increments. *)
Fixpoint drain (rounds fuel : nat) (slots : list slot) (it : FancyIterator)
  : outcome (list Z) :=
  match rounds with
  | O => OutOfFuel
  | S rounds' =>
      match increment fuel slots it with
      | Finished it' =>
          if at_end it' then Finished []
          else
            match drain rounds' fuel slots it' with
            | Finished l => Finished (current_ it' :: l)
            | Fault => Fault
            | OutOfFuel => OutOfFuel
            end
      | Fault => Fault
      | OutOfFuel => OutOfFuel
      end
  end.

(** The linear probe sequence continued from slot [p]: the [j]-th slot
    after [p], wrapping at the capacity. *)
Definition probe (cap p : Z) (j : Z) : Z := (p + j) mod cap.

Definition key_at (slots : list slot) (i : Z) : option Z :=
  first <$> Storage.load slots i.

(** Slot [i] stops the scan for [k]: it holds [k] or the empty key. *)
Definition stops (slots : list slot) (ek k i : Z) : bool :=
  match key_at slots i with
  | Some x => (x =? k) || (x =? ek)
  | None => false
  end.

(** The first [n] slots of the probe sequence after [p], in order. *)
Definition path (cap p : Z) (n : nat) : list Z :=
  map (fun i => probe cap p (Z.of_nat i)) (seq 1 n).

(** Slot [i] holds the key [k]. *)
Definition holds (slots : list slot) (k i : Z) : bool :=
  match key_at slots i with
  | Some x => x =? k
  | None => false
  end.

End Iter.

(** ** Lookup: the group-cooperative [find] and the host bulk [find]

    The bodies of [device_view::find] and of the host function
    [static_multimap::find] are in [static_multimap.inl] and in the kernels
    header; the header modelled here only declares them. *)

Module BulkFind.

Import Iter.

(** The lanes and the step a group starts with for the key [k]:
    [initial_slot(g, k, hash)] in every lane of the group. *)
Definition start_lanes (hash : Z -> Z) (kbits : Z) (v : view) (cg_size : Z) (k : Z)
  : option (Z * list Z) :=
  let lane r := Probe.cg_initial_slot hash kbits (capacity_ v) cg_size r k in
  match lane 0 with
  | None => None
  | Some (step, _) =>
      match mapM (fun r => snd <$> lane (Z.of_nat r)) (seq 0 (Z.to_nat cg_size)) with
      | Some cur => Some (step, cur)
      | None => None
      end
  end.

(** Modelled from the spec: the loads of one step of the
    group-cooperative lookup, missing with [static_multimap.inl]: every lane
    reads its sub-window, "one wide atomic load per lane retrieves both
    candidate slots" (section 4.2; the lanes of the probe engine of the
    source stand two slots apart, so a lane that inspected one slot only
    would pass over every second slot the insert fills).  A load outside
    the slot array is undefined. *)
Fixpoint window_slots (slots : list slot) (cur : list Z) : option (list (slot * slot)) :=
  match cur with
  | [] => Some []
  | s :: rest =>
      match Storage.load slots s, Storage.load slots (s + 1), window_slots slots rest with
      | Some a, Some b, Some w => Some ((a, b) :: w)
      | _, _, _ => None
      end
  end.

(** Modelled from the spec: the key test of a lookup, "via the equality
    predicate, never invoked against a sentinel". *)
Definition matches (v : view) (k : Z) (a : slot) : bool :=
  negb (first a =? empty_key_sentinel_ v) && (first a =? k).

(** Modelled from the spec: the two votes of a step, "the group
    collectively OR-votes on match found in this window and empty found in
    this window". *)
Definition window_match (v : view) (k : Z) (w : list (slot * slot)) : Z :=
  Insert.ballot (map (fun p => matches v k (fst p) || matches v k (snd p)) w).

Definition window_empty (v : view) (w : list (slot * slot)) : Z :=
  Insert.ballot
    (map (fun p => (first (fst p) =? empty_key_sentinel_ v) ||
                   (first (snd p) =? empty_key_sentinel_ v)) w).

(** Modelled from the spec: "lanes that find a match record it".  The
    spec does not say which match a [find] returns when a window holds more
    than one; taken here is the lowest-ranked lane with a match and its first
    slot when that one matches, the convention of the insert. *)
Definition found_slot (v : view) (k : Z) (cur : list Z) (w : list (slot * slot))
  : option Z :=
  let r := u32 (Insert.ffs (window_match v k w) - 1) in
  match cur !! Z.to_nat r, w !! Z.to_nat r with
  | Some s, Some p => Some (if matches v k (fst p) then s else s + 1)
  | _, _ => None
  end.

(** Modelled from the spec: the loop of the group-cooperative
    [device_view::find(g, key)], missing with [static_multimap.inl]: "if the
    key matches, return an iterator to that slot; if the key equals the
    empty sentinel, return an end iterator; otherwise continue probing",
    where "the group advances together using the cooperative probe step".
    The result is a slot index, [capacity_] for [end()]. *)
Fixpoint cg_find_from (fuel : nat) (v : view) (slots : list slot) (k step : Z)
    (cur : list Z) : outcome Z :=
  match fuel with
  | O => OutOfFuel
  | S fuel' =>
      match window_slots slots cur with
      | None => Fault
      | Some w =>
          if negb (window_match v k w =? 0) then
            match found_slot v k cur w with
            | Some loc => Finished loc
            | None => Fault
            end
          else if negb (window_empty v w =? 0) then Finished (capacity_ v)
          else
            match Insert.advance_lanes v step cur with
            | Some cur' => cg_find_from fuel' v slots k step cur'
            | None => Fault
            end
      end
  end.

(** Modelled from the spec: [device_view::find(g, key)], the loop above
    started at the group [initial_slot]. *)
Definition cg_find (hash : Z -> Z) (kbits : Z) (fuel : nat) (v : view) (cg_size : Z)
    (slots : list slot) (k : Z) : outcome Z :=
  match start_lanes hash kbits v cg_size k with
  | Some (step, cur) => cg_find_from fuel v slots k step cur
  | None => Fault
  end.

(** Modelled from the spec: what the host bulk [find] writes for one key,
    missing with the kernels: "the found value (or the empty-value sentinel
    if absent)". *)
Definition find_value (hash : Z -> Z) (kbits : Z) (fuel : nat) (v : view) (cg_size : Z)
    (slots : list slot) (k : Z) : outcome Z :=
  match cg_find hash kbits fuel v cg_size slots k with
  | Finished p =>
      if p =? capacity_ v then Finished (empty_value_sentinel_ v)
      else match Storage.load slots p with
           | Some s => Finished (second s)
           | None => Fault
           end
  | Fault => Fault
  | OutOfFuel => OutOfFuel
  end.

(** Modelled from the spec: the host bulk [find], a "symmetric bulk
    dispatch, producing exactly one output per input key": one probe group
    per key, the outputs in the order of the keys, output [i] for key [i]. *)
Fixpoint bulk_find (hash : Z -> Z) (kbits : Z) (fuel : nat) (v : view) (cg_size : Z)
    (slots : list slot) (keys : list Z) : outcome (list Z) :=
  match keys with
  | [] => Finished []
  | k :: rest =>
      match find_value hash kbits fuel v cg_size slots k,
            bulk_find hash kbits fuel v cg_size slots rest with
      | Finished x, Finished xs => Finished (x :: xs)
      | Fault, _ | _, Fault => Fault
      | _, _ => OutOfFuel
      end
  end.

(** The map holds the pair [(k, x)]: some slot that is not empty holds it. *)
Definition stored (v : view) (slots : list slot) (k x : Z) : Prop :=
  k <> empty_key_sentinel_ v /\
  exists loc, Storage.load slots loc = Some (Slot k x).

(** Modelled from the spec: the single-lane [insert(key, value)] of
    [static_multimap.inl], run alone: "starting at initial_slot,
    repeatedly: read the slot key; if it is not the empty sentinel, advance
    via next_slot and retry; otherwise" claim the slot and write the value. *)
Fixpoint insert_from (fuel : nat) (v : view) (slots : list slot) (k x p : Z)
  : outcome (list slot) :=
  match fuel with
  | O => OutOfFuel
  | S fuel' =>
      match Storage.load slots p with
      | None => Fault
      | Some s =>
          if first s =? empty_key_sentinel_ v
          then Finished (Storage.store slots p (Slot k x))
          else insert_from fuel' v slots k x (Probe.next_slot (capacity_ v) p)
      end
  end.

Definition insert (hash : Z -> Z) (fuel : nat) (v : view) (slots : list slot)
    (kv : Z * Z) : outcome (list slot) :=
  match Probe.initial_slot hash (capacity_ v) (fst kv) with
  | Some p => insert_from fuel v slots (fst kv) (snd kv) p
  | None => Fault
  end.

(** The table after inserting [pairs] one after the other ([slots] itself
    where an insert does not finish). *)
Fixpoint insert_all (hash : Z -> Z) (v : view) (slots : list slot)
    (pairs : list (Z * Z)) : list slot :=
  match pairs with
  | [] => slots
  | kv :: rest =>
      match insert hash (length slots) v slots kv with
      | Finished slots' => insert_all hash v slots' rest
      | _ => slots
      end
  end.

End BulkFind.

(** ** Concrete data used in examples *)

Module Example.

(** A 32-bit identity hash: the key's bit pattern itself. *)
Definition hash32 (k : Z) : Z := u32 k.

End Example.

Module ExampleInsert.

(** The scenario of the specification: 8 slots, both sentinels -1 (as a
    32-bit pattern), groups of 2 lanes. *)
Definition minus_one : Z := 2 ^ 32 - 1.

Definition v8 : view := View 8 minus_one minus_one.

Definition start (pair : Z * Z) : Insert.group :=
  default (Insert.Group pair [] 0 Insert.Returned)
          (Insert.enter Example.hash32 32 v8 2 pair).

(** Two groups insert (1, 10) and (5, 20) into the empty table; both keys
    start in the window of slots 4..7. *)
Definition c0 : Insert.config :=
  Insert.Config (Storage.empty_slots v8) [start (1, 10); start (5, 20)].

(** Three groups; the third inserts (9, 30), also into the window 4..7. *)
Definition c3 : Insert.config :=
  Insert.Config (Storage.empty_slots v8)
                [start (1, 10); start (5, 20); start (9, 30)].

(** The configuration reached from [c] under [sched] ([c] itself when the
    schedule cannot be run). *)
Definition after (sched : list nat) (c : Insert.config) : Insert.config :=
  default c (Insert.run v8 sched c).

Definition group_of (t : nat) (c : Insert.config) : Insert.group :=
  default (Insert.Group (0, 0) [] 0 Insert.Returned) (Insert.groups c !! t).

Definition blank : slot := Slot minus_one minus_one.

(** A table whose window 4..7 has one empty slot left, the last. *)
Definition busy_slots : list slot :=
  [blank; blank; blank; blank; Slot 1 10; Slot 5 20; Slot 9 30; blank].

(** A table whose window 4..7 is full. *)
Definition full_slots : list slot :=
  [blank; blank; blank; blank; Slot 1 10; Slot 5 20; Slot 9 30; Slot 13 40].

End ExampleInsert.

Module ExampleFind.

(** The scenario of the specification: capacity 8, sentinels (-1, -1),
    insert [(1,10); (1,20); (2,30)], single-lane probing. *)
Definition scenario_slots : list slot :=
  BulkFind.insert_all Example.hash32 ExampleInsert.v8
    (Storage.empty_slots ExampleInsert.v8) [(1, 10); (1, 20); (2, 30)].

End ExampleFind.

(** ** Runs of the group-cooperative insert, observed *)

Module InsertRun.

Import Insert.

(** Every group is about to enter the loop of [insert]. *)
Definition fresh (c : config) : Prop :=
  forall t g, groups c !! t = Some g -> at_ g = AtLoad.

(** The successful value writes of key owners along a run, in order: the
    group and the slot of each. *)
Fixpoint publications (v : view) (sched : list nat) (c : config)
  : list (nat * Z) :=
  match sched with
  | [] => []
  | t :: rest =>
      match step_at v t c with
      | None => []
      | Some c' =>
          match groups c !! t with
          | Some g =>
              match effect_of v (slots_ c) g with
              | Publish loc => (t, loc) :: publications v rest c'
              | _ => publications v rest c'
              end
          | None => publications v rest c'
          end
      end
  end.

(** The lanes of a group after [n] executions of the [else] branch
    ([current_slot = next_slot(g, current_slot)] in every lane). *)
Fixpoint lanes_after (v : view) (step : Z) (cur : list Z) (n : nat)
  : option (list Z) :=
  match n with
  | O => Some cur
  | S n' =>
      match advance_lanes v step cur with
      | Some cur' => lanes_after v step cur' n'
      | None => None
      end
  end.

(** The window a group is at contains an empty slot: one of the two slots
    of one of its lanes holds the empty key. *)
Definition window_has_empty (v : view) (slots : list slot) (cur : list Z) : Prop :=
  exists (r : nat) s loc a,
    cur !! r = Some s /\ (loc = s \/ loc = s + 1) /\
    Storage.load slots loc = Some a /\ first a = empty_key_sentinel_ v.

(** Every group of [c] is in the state in which [insert] is entered, for
    some pair. *)
Definition entered (hash : Z -> Z) (kbits : Z) (v : view) (cg_size : Z)
    (c : config) : Prop :=
  forall t g, groups c !! t = Some g ->
    exists pair, enter hash kbits v cg_size pair = Some g.

(** The slot a group is working on lies inside the slot array. *)
Definition position_in_bounds (capacity : Z) (p : position) : Prop :=
  match p with
  | AtKeyCas loc | AtValueCas loc _ | AtValueLoop loc _ | AtStore loc =>
      0 <= loc < capacity
  | _ => True
  end.

Definition group_in_bounds (v : view) (g : group) : Prop :=
  Z.even (step_size_ g) = true /\
  (forall (r : nat) s, current_slot g !! r = Some s -> Probe.lane_ok (capacity_ v) s) /\
  position_in_bounds (capacity_ v) (at_ g).

(** The slot array has [capacity_] slots and no group points outside it. *)
Definition in_bounds (v : view) (c : config) : Prop :=
  Z.of_nat (length (slots_ c)) = capacity_ v /\
  forall t g, groups c !! t = Some g -> group_in_bounds v g.

End InsertRun.

(** ** The table a bulk insert builds *)

Module GroupTable.

Import Insert.

Section WithHash.

Variable hash : Z -> Z.
Variable kbits : Z.
Variable v : view.
Variable G : Z.

(** The lanes [cur] are those of a group at window number [n] of the
    probe sequence of the key [k]. *)
Definition at_window (k : Z) (n : nat) (cur : list Z) : Prop :=
  length cur = Z.to_nat G /\
  forall (r : nat) s, cur !! r = Some s ->
    Probe.lane_slot hash kbits (capacity_ v) G (Z.of_nat r) k n = Some s.

(** No slot of the window is empty. *)
Definition window_full (slots : list slot) (cur : list Z) : Prop :=
  forall (r : nat) s, cur !! r = Some s ->
    exists a b,
      Storage.load slots s = Some a /\ Storage.load slots (s + 1) = Some b /\
      first a <> empty_key_sentinel_ v /\ first b <> empty_key_sentinel_ v.

(** Some slot of the window holds the key [k]. *)
Definition window_has_key (slots : list slot) (k : Z) (cur : list Z) : Prop :=
  exists (r : nat) s loc a,
    cur !! r = Some s /\ (loc = s \/ loc = s + 1) /\
    Storage.load slots loc = Some a /\ first a = k.

(** Slot [loc] lies on the probe sequence of the key [k], and every
    window of the sequence before its own is full. *)
Definition on_path (slots : list slot) (k loc : Z) : Prop :=
  exists (n : nat) cur (r : nat) s,
    at_window k n cur /\ cur !! r = Some s /\ (loc = s \/ loc = s + 1) /\
    forall (m : nat) curm, (m < n)%nat -> at_window k m curm -> window_full slots curm.

(** The slot a group is working on is one of its current window. *)
Definition position_in_window (p : position) (cur : list Z) : Prop :=
  match p with
  | AtKeyCas loc | AtValueCas loc _ | AtValueLoop loc _ | AtStore loc =>
      exists (r : nat) s, cur !! r = Some s /\ (loc = s \/ loc = s + 1)
  | _ => True
  end.

(** The group walks the probe sequence of its key and has seen every
    window before its current one full. *)
Definition probing (slots : list slot) (g : group) : Prop :=
  step_size_ g = Probe.code_step_size hash kbits (capacity_ v) G (fst (insert_pair g)) /\
  exists n : nat,
    at_window (fst (insert_pair g)) n (current_slot g) /\
    (forall (m : nat) curm, (m < n)%nat ->
       at_window (fst (insert_pair g)) m curm -> window_full slots curm) /\
    position_in_window (at_ g) (current_slot g).

(** The invariant of a bulk insert into a fresh table: every key in the
    table was put on its own probe sequence, behind full windows only, by a
    group that inserts it, and its value is that group's value once the
    group has written it. *)
Definition built (c : config) : Prop :=
  Z.of_nat (length (slots_ c)) = capacity_ v /\
  (forall t g, groups c !! t = Some g -> probing (slots_ c) g) /\
  (forall loc s, Storage.load (slots_ c) loc = Some s ->
     first s <> empty_key_sentinel_ v ->
     exists t g,
       groups c !! t = Some g /\ fst (insert_pair g) = first s /\
       on_path (slots_ c) (first s) loc /\
       (owes_value g loc \/
        settled v c loc (fst (insert_pair g)) (snd (insert_pair g)))).

(** The probe sequence of [k] comes to a window with an empty slot. *)
Definition reaches_empty (slots : list slot) (k : Z) : Prop :=
  exists (n : nat) cur, at_window k n cur /\ InsertRun.window_has_empty v slots cur.

End WithHash.

End GroupTable.

Module ExampleMore.

Import ExampleInsert.

(** A table of 8 slots without an empty slot: key [i] in slot [i mod 8]. *)
Definition full8 : list slot :=
  [Slot 8 80; Slot 1 10; Slot 2 20; Slot 3 30;
   Slot 4 40; Slot 5 50; Slot 6 60; Slot 7 70].

(** A schedule under which both groups of [c0] run to the end, interleaved. *)
Definition both_return : list nat := [0; 1; 0; 1; 1; 0; 1; 0; 0; 1; 1; 1; 1; 1]%nat.

(** The scenario of the specification as a bulk insert with groups of two
    lanes: three groups insert (1, 10), (1, 20) and (2, 30) into the empty
    table of 8 slots. *)
Definition scenario : Insert.config :=
  Insert.Config (Storage.empty_slots v8) [start (1, 10); start (1, 20); start (2, 30)].

(** An interleaving under which the three groups of [scenario] return;
    the two inserts of key 1 contend for slot 4. *)
Definition scenario_schedule : list nat :=
  [0; 1; 2; 0; 1; 2; 0; 1; 2; 0; 1; 2; 1; 1; 1; 1]%nat.

End ExampleMore.

(** ** [device_view::make_copy], the strided copy loop *)

Module MakeCopy.

(** The lanes of the group in the loop
    [for (i = g.thread_rank(); i < capacity; i += g.size())]:
    the destination array and the loop variable of every lane, by rank. *)
Record copy_state := CopyState {
  memory_to_use : list slot;
  next_i : list Z
}.

(** Every lane enters the loop with [i = g.thread_rank()]. *)
Definition start (memory : list slot) (size : nat) : copy_state :=
  CopyState memory (map Z.of_nat (seq 0 size)).

(** The lane of rank [r] runs its loop test and, when it holds, one
    iteration: both halves of slot [i] are read from the source and
    constructed in place in the destination, then [i += g.size()] on a
    [std::size_t].  A lane whose test fails waits at [g.sync()].  Reading
    outside the source or writing outside the destination is undefined. *)
Definition lane_step (slots_ptr : list slot) (capacity : Z) (size : nat) (r : nat)
    (st : copy_state) : option copy_state :=
  match next_i st !! r with
  | None => None
  | Some i =>
      if i <? capacity then
        match Storage.load slots_ptr i, Storage.load (memory_to_use st) i with
        | Some s, Some _ =>
            Some (CopyState (Storage.store (memory_to_use st) i (Slot (first s) (second s)))
                            (<[r := u64 (i + Z.of_nat size)]> (next_i st)))
        | _, _ => None
        end
      else Some st
  end.

(** An interleaving of the lanes' iterations. *)
Fixpoint run (slots_ptr : list slot) (capacity : Z) (size : nat) (sched : list nat)
    (st : copy_state) : option copy_state :=
  match sched with
  | [] => Some st
  | r :: rest =>
      match lane_step slots_ptr capacity size r st with
      | Some st' => run slots_ptr capacity size rest st'
      | None => None
      end
  end.

(** Every lane has left its loop: the group passes [g.sync()]. *)
Definition synced (capacity : Z) (st : copy_state) : Prop :=
  Forall (fun i => capacity <= i) (next_i st).

(** The lanes take turns in the order of the slots: slot [j] is copied by
    the lane of rank [j mod size]. *)
Definition in_order (capacity : nat) (size : nat) : list nat :=
  map (fun j => j mod size)%nat (seq 0 capacity).

(** What holds of the lanes at every moment of the loop: lane [r] is at
    an index of its own residue class, the slots of that class below it are
    copied, and nothing is written from [capacity] on. *)
Definition copying (slots_ptr memory : list slot) (capacity : Z) (size : nat)
    (st : copy_state) : Prop :=
  length (next_i st) = size /\
  length (memory_to_use st) = length memory /\
  (forall (r : nat) i, next_i st !! r = Some i ->
     0 <= i /\ i mod Z.of_nat size = Z.of_nat r /\
     forall j, 0 <= j < i -> j < capacity -> j mod Z.of_nat size = Z.of_nat r ->
       exists s, Storage.load slots_ptr j = Some s /\
                 Storage.load (memory_to_use st) j = Some s) /\
  (forall j, capacity <= j ->
     Storage.load (memory_to_use st) j = Storage.load memory j).

(** The state after the lanes have copied the first [n] slots in order. *)
Definition copied_up_to (slots_ptr memory : list slot) (size : nat) (n : nat)
    (st : copy_state) : Prop :=
  memory_to_use st = take n slots_ptr ++ drop n memory /\
  length (next_i st) = size /\
  (forall (r : nat) i, next_i st !! r = Some i ->
     Z.of_nat n <= i < Z.of_nat n + Z.of_nat size /\
     i mod Z.of_nat size = Z.of_nat r).

End MakeCopy.

(** * Properties *)

(** ** Machine integers *)

Lemma u32_small x : 0 <= x < 2 ^ 32 -> u32 x = x.
Proof. intros H. unfold u32. now apply Z.mod_small. Qed.

Lemma u64_small x : 0 <= x < 2 ^ 64 -> u64 x = x.
Proof. intros H. unfold u64. now apply Z.mod_small. Qed.

Lemma u32_range x : 0 <= u32 x < 2 ^ 32.
Proof. unfold u32. apply Z.mod_pos_bound. lia. Qed.

Lemma u64_range x : 0 <= u64 x < 2 ^ 64.
Proof. unfold u64. apply Z.mod_pos_bound. lia. Qed.

Lemma even_mod_even a m :
  0 < m -> Z.even m = true -> Z.even a = true -> Z.even (a mod m) = true.
Proof.
  intros Hm Em Ea.
  apply Z.even_spec in Em as [m' ->]. apply Z.even_spec in Ea as [a' ->].
  apply Z.even_spec.
  rewrite Zmult_mod_distr_l. now exists (a' mod m').
Qed.

Lemma even_u32 a : Z.even a = true -> Z.even (u32 a) = true.
Proof. intros. unfold u32. apply even_mod_even; [lia | reflexivity | assumption]. Qed.

Lemma even_u64 a : Z.even a = true -> Z.even (u64 a) = true.
Proof. intros. unfold u64. apply even_mod_even; [lia | reflexivity | assumption]. Qed.

(** ** Probe sequence engine *)

Module ProbeFacts.

Section WithHash.

Variable hash : Z -> Z.
Variable kbits : Z.

(** The hash returns an unsigned integer no wider than [std::size_t]. *)
Hypothesis hash_range : forall x, 0 <= hash x < 2 ^ 64.

Section Geometry.

Variables capacity G : Z.
Hypothesis G_pos : 1 <= G.
Hypothesis G_small : 2 * G < 2 ^ 32.
Hypothesis capacity_range : 0 <= capacity < 2 ^ 64.
Hypothesis two_windows : 2 <= capacity / (2 * G).

Lemma windows_fit : capacity / (2 * G) * (2 * G) <= capacity.
Proof using All. rewrite Z.mul_comm. apply Z.mul_div_le. lia. Qed.

Lemma step_modulus_value : Probe.step_modulus capacity G = capacity / (2 * G) - 1.
Proof using All.
  unfold Probe.step_modulus.
  rewrite (u32_small (G * 2)) by lia.
  replace (G * 2) with (2 * G) by lia.
  pose proof windows_fit.
  apply u64_small. nia.
Qed.

Lemma cg_initial_slot_value r k :
  0 <= r < G ->
  Probe.cg_initial_slot hash kbits capacity G r k =
    Some (Probe.code_step_size hash kbits capacity G k,
          Probe.spec_initial_index hash capacity G r k).
Proof using All.
  intros Hr. unfold Probe.cg_initial_slot.
  rewrite step_modulus_value.
  rewrite (u32_small (G * 2)) by lia.
  rewrite (u32_small (r * 2)) by lia.
  replace (G * 2) with (2 * G) by lia.
  pose proof windows_fit as Hfit.
  set (W := capacity / (2 * G)) in *.
  destruct (Z.eqb_spec (2 * G) 0); [lia |].
  destruct (Z.eqb_spec (W - 1) 0); [lia |].
  destruct (Z.eqb_spec W 0); [lia |].
  rewrite !(u64_small (hash _)) by apply hash_range.
  pose proof (Z.mod_pos_bound (hash (Probe.key_plus_one kbits k)) (W - 1) ltac:(lia)) as Hs.
  pose proof (Z.mod_pos_bound (hash k) W ltac:(lia)) as Hi.
  unfold Probe.code_step_size, Probe.spec_initial_index. fold W.
  set (a := hash (Probe.key_plus_one kbits k) mod (W - 1)) in *.
  set (b := hash k mod W) in *.
  rewrite (u64_small (a + 1)) by nia.
  rewrite (u64_small ((a + 1) * G)) by nia.
  rewrite (u64_small ((a + 1) * G * 2)) by nia.
  rewrite (u64_small (b * G)) by nia.
  rewrite (u64_small (b * G * 2)) by nia.
  rewrite (u64_small (b * G * 2 + r * 2)) by nia.
  f_equal. f_equal; lia.
Qed.

Lemma code_step_size_bounds k :
  2 * G <= Probe.code_step_size hash kbits capacity G k <= capacity - 2 * G /\
  Z.even (Probe.code_step_size hash kbits capacity G k) = true.
Proof using All.
  unfold Probe.code_step_size.
  pose proof windows_fit as Hfit.
  set (W := capacity / (2 * G)) in *.
  pose proof (Z.mod_pos_bound (hash (Probe.key_plus_one kbits k)) (W - 1) ltac:(lia)) as Hs.
  set (a := hash (Probe.key_plus_one kbits k) mod (W - 1)) in *.
  split; [nia |].
  replace ((a + 1) * (2 * G)) with (2 * ((a + 1) * G)) by lia.
  apply Z.even_spec. now exists ((a + 1) * G).
Qed.

Lemma cg_next_slot_small step s :
  capacity <= 2 ^ 32 -> 0 <= step < capacity -> 0 <= s < capacity ->
  Probe.cg_next_slot capacity step s = Some ((s + step) mod capacity).
Proof using All.
  intros Hc Hstep Hs. unfold Probe.cg_next_slot.
  destruct (Z.eqb_spec capacity 0); [lia |].
  rewrite (u32_small s) by lia.
  rewrite (u64_small (s + step)) by lia. reflexivity.
Qed.

(** C1 (amended): lane [r] of a group starts at
    [(hash(k) mod (capacity/2G)) * 2G + 2r], and the step stored by
    [initial_slot] is [((hash(k+1) mod (capacity/2G - 1)) + 1) * 2G],
    one window more than the remainder alone, so it is never zero; both
    hold for every capacity a [std::size_t] can hold.  For tables of at
    most [2^32] slots every later slot is [(index + step) mod capacity]. *)
Theorem cg_probe_start_and_step r k :
  0 <= r < G ->
  exists step s0,
    Probe.cg_initial_slot hash kbits capacity G r k = Some (step, s0) /\
    s0 = hash k mod (capacity / (2 * G)) * (2 * G) + 2 * r /\
    step = (hash (Probe.key_plus_one kbits k) mod (capacity / (2 * G) - 1) + 1)
           * (2 * G) /\
    0 < step /\
    (capacity <= 2 ^ 32 ->
     forall s, 0 <= s < capacity ->
       Probe.cg_next_slot capacity step s = Some ((s + step) mod capacity)).
Proof using All.
  intros Hr.
  exists (Probe.code_step_size hash kbits capacity G k),
         (Probe.spec_initial_index hash capacity G r k).
  pose proof (code_step_size_bounds k) as [Hb _].
  split; [now apply cg_initial_slot_value |].
  split; [reflexivity |]. split; [reflexivity |]. split; [lia |].
  intros s Hs. apply cg_next_slot_small; lia.
Qed.

Hypothesis whole_windows : capacity mod (2 * G) = 0.

Local Abbreviation lane_ok := (Probe.lane_ok capacity).

Lemma capacity_even : Z.even capacity = true /\ 4 <= capacity.
Proof using All.
  pose proof windows_fit.
  split; [| nia].
  apply Z.even_spec. exists (G * (capacity / (2 * G))).
  rewrite (Z_div_mod_eq_full capacity (2 * G)) at 1. lia.
Qed.

Lemma cg_next_slot_ok step s :
  Z.even step = true ->
  lane_ok s ->
  exists s', Probe.cg_next_slot capacity step s = Some s' /\ lane_ok s'.
Proof using All.
  intros Es [Ev Hs]. destruct capacity_even as [Ec Hc].
  unfold Probe.cg_next_slot.
  destruct (Z.eqb_spec capacity 0); [lia |].
  eexists; split; [reflexivity |].
  assert (E : Z.even (u64 (u32 s + step) mod capacity) = true).
  { apply even_mod_even; [lia | assumption |].
    apply even_u64. rewrite Z.even_add, Es, (even_u32 _ Ev). reflexivity. }
  split; [exact E |].
  pose proof (Z.mod_pos_bound (u64 (u32 s + step)) capacity ltac:(lia)) as Hb.
  set (x := u64 (u32 s + step) mod capacity) in *.
  apply Z.even_spec in E as [x' Hx]. apply Z.even_spec in Ec as [c' Hc'].
  lia.
Qed.

Lemma cg_probe_ok step s n :
  Z.even step = true ->
  lane_ok s ->
  exists s', Probe.cg_probe capacity step s n = Some s' /\ lane_ok s'.
Proof using All.
  intros Es. revert s. induction n as [| n IH]; intros s Hs; simpl.
  - now exists s.
  - destruct (cg_next_slot_ok step s Es Hs) as (s1 & -> & Hs1).
    now apply IH.
Qed.

Lemma spec_initial_index_ok r k :
  0 <= r < G -> lane_ok (Probe.spec_initial_index hash capacity G r k).
Proof using All.
  intros Hr. unfold Probe.spec_initial_index, Probe.lane_ok.
  pose proof windows_fit as Hfit.
  set (W := capacity / (2 * G)) in *.
  pose proof (Z.mod_pos_bound (hash k) W ltac:(lia)) as Hi.
  set (b := hash k mod W) in *.
  split; [| nia].
  apply Z.even_spec. exists (b * G + r). lia.
Qed.

(** C10: with the capacity a whole number (at least two) of [2G]-slot
    windows, the divisor of the step size is not zero, and after
    [initial_slot] and any number of group [next_slot] steps a lane holds
    an even index no larger than [capacity - 2]; its wide load of slots
    [s] and [s + 1] is then inside any slot array of [capacity] slots. *)
Theorem lane_slot_in_bounds r k n :
  0 <= r < G ->
  Probe.step_modulus capacity G <> 0 /\
  exists s,
    Probe.lane_slot hash kbits capacity G r k n = Some s /\
    Z.even s = true /\ 0 <= s <= capacity - 2 /\
    forall (v : view) (slots : list slot),
      Z.of_nat (length slots) = capacity ->
      is_Some (Insert.lane_load v slots s).
Proof using All.
  intros Hr. split; [rewrite step_modulus_value; lia |].
  unfold Probe.lane_slot. rewrite cg_initial_slot_value by assumption.
  destruct (code_step_size_bounds k) as [_ Es].
  destruct (cg_probe_ok _ _ n Es (spec_initial_index_ok r k Hr))
    as (s & Hs & Ev & Hb).
  exists s. split; [exact Hs |]. split; [exact Ev |]. split; [exact Hb |].
  intros v slots Hlen. unfold Insert.lane_load, Storage.load.
  destruct (Z.ltb_spec s 0); [lia |].
  destruct (Z.ltb_spec (s + 1) 0); [lia |].
  destruct (lookup_lt_is_Some_2 slots (Z.to_nat s) ltac:(lia)) as [a ->].
  destruct (lookup_lt_is_Some_2 slots (Z.to_nat (s + 1)) ltac:(lia)) as [b ->].
  eauto.
Qed.

End Geometry.

End WithHash.

Lemma hash32_range x : 0 <= Example.hash32 x < 2 ^ 64.
Proof.
  unfold Example.hash32. pose proof (u32_range x). lia.
Qed.

(** C1, as the specification words it, fails: for key 0, group size 2 and
    16 slots the code stores the step 8, the specification's formula gives 4. *)
Lemma cg_step_size_counterexample :
  Probe.cg_initial_slot Example.hash32 32 16 2 0 0 = Some (8, 0) /\
  Probe.spec_step_size Example.hash32 32 16 2 0 = 4 /\
  Probe.cg_initial_slot Example.hash32 32 16 2 0 0 <>
    Some (Probe.spec_step_size Example.hash32 32 16 2 0,
          Probe.spec_initial_index Example.hash32 16 2 0 0).
Proof. repeat split; try reflexivity. vm_compute. discriminate. Qed.

Lemma cg_probe_start_and_step_witness :
  exists step s0,
    Probe.cg_initial_slot Example.hash32 32 16 2 1 5 = Some (step, s0) /\
    s0 = Example.hash32 5 mod (16 / (2 * 2)) * (2 * 2) + 2 * 1 /\
    step = (Example.hash32 (Probe.key_plus_one 32 5) mod (16 / (2 * 2) - 1) + 1)
           * (2 * 2) /\
    0 < step /\
    forall s, 0 <= s < 16 ->
      Probe.cg_next_slot 16 step s = Some ((s + step) mod 16).
Proof.
  destruct (cg_probe_start_and_step Example.hash32 32 hash32_range 16 2
              ltac:(lia) ltac:(lia) ltac:(lia) ltac:(vm_compute; discriminate) 1 5
              ltac:(lia))
    as (step & s0 & H0 & H1 & H2 & H3 & H4).
  exists step, s0. repeat (split; [assumption |]).
  apply H4. lia.
Defined.

Lemma lane_slot_in_bounds_witness :
  Probe.step_modulus 16 2 <> 0 /\
  exists s,
    Probe.lane_slot Example.hash32 32 16 2 1 5 3 = Some s /\
    Z.even s = true /\ 0 <= s <= 16 - 2 /\
    forall (v : view) (slots : list slot),
      Z.of_nat (length slots) = 16 ->
      is_Some (Insert.lane_load v slots s).
Proof.
  apply (lane_slot_in_bounds Example.hash32 32 hash32_range 16 2);
    first [ lia | reflexivity | (vm_compute; intuition discriminate) ].
Defined.

End ProbeFacts.

(** ** Group-cooperative insert: the vote and the choice of the claiming lane *)

Module BallotFacts.

Lemma ballot_from_nonneg preds r : 0 <= r -> 0 <= Insert.ballot_from r preds.
Proof.
  revert r. induction preds as [| p ps IH]; intros r Hr; simpl; [lia |].
  apply Z.lor_nonneg. split; [| apply IH; lia].
  destruct p; [apply Z.shiftl_nonneg |]; lia.
Qed.

Lemma testbit_ballot_from preds r i :
  0 <= r -> 0 <= i ->
  Z.testbit (Insert.ballot_from r preds) i =
    if i <? r then false else default false (preds !! Z.to_nat (i - r)).
Proof.
  revert r. induction preds as [| p ps IH]; intros r Hr Hi; simpl.
  - rewrite Z.bits_0. now destruct (i <? r).
  - rewrite Z.lor_spec, IH by lia.
    assert (Hp : Z.testbit (if p then Z.shiftl 1 r else 0) i = p && (i =? r)).
    { destruct p; simpl; [| apply Z.bits_0].
      rewrite Z.shiftl_1_l, Z.pow2_bits_eqb by lia. apply Z.eqb_sym. }
    rewrite Hp.
    destruct (Z.ltb_spec i r) as [Hlt | Hge].
    + destruct (Z.ltb_spec i (r + 1)); [| lia].
      destruct (Z.eqb_spec i r); [lia |]. now rewrite andb_false_r.
    + destruct (Z.eqb_spec i r) as [-> | Hne].
      * destruct (Z.ltb_spec r (r + 1)); [| lia].
        replace (r - r) with 0 by lia. simpl. now rewrite andb_true_r, orb_false_r.
      * destruct (Z.ltb_spec i (r + 1)); [lia |].
        rewrite andb_false_r. simpl.
        replace (Z.to_nat (i - r)) with (S (Z.to_nat (i - (r + 1)))) by lia.
        reflexivity.
Qed.

Lemma testbit_ballot preds (r : nat) :
  Z.testbit (Insert.ballot preds) (Z.of_nat r) = default false (preds !! r).
Proof.
  unfold Insert.ballot. rewrite testbit_ballot_from by lia.
  destruct (Z.ltb_spec (Z.of_nat r) 0); [lia |].
  now replace (Z.to_nat (Z.of_nat r - 0)) with r by lia.
Qed.

Lemma ballot_from_all_false preds r :
  Forall (fun p => p = false) preds -> Insert.ballot_from r preds = 0.
Proof.
  revert r. induction preds as [| p ps IH]; intros r H; simpl; [reflexivity |].
  inversion H; subst. now rewrite IH.
Qed.

Lemma find_seq_first (P : Z -> bool) (n a i : nat) :
  (a <= i < a + n)%nat ->
  P (Z.of_nat i) = true ->
  (forall j, (a <= j < i)%nat -> P (Z.of_nat j) = false) ->
  find P (map Z.of_nat (seq a n)) = Some (Z.of_nat i).
Proof.
  revert a. induction n as [| n IH]; intros a Hrange Hi Hlow; [lia |].
  simpl. destruct (decide (a = i)) as [-> | Hne].
  - now rewrite Hi.
  - rewrite (Hlow a) by lia. apply IH; [lia | assumption |].
    intros j Hj. apply Hlow. lia.
Qed.

Lemma ffs_first_set x (i : nat) :
  (i < 32)%nat ->
  Z.testbit x (Z.of_nat i) = true ->
  (forall j, (j < i)%nat -> Z.testbit x (Z.of_nat j) = false) ->
  Insert.ffs x = Z.of_nat i + 1.
Proof.
  intros Hi Hset Hlow. unfold Insert.ffs.
  rewrite (find_seq_first (fun i => Z.testbit x i) 32 0 i); auto with lia.
Qed.

(** A ballot that is not zero has a lowest lane that voted yes, and
    [__ffs] finds it. *)
Lemma ballot_first preds :
  (length preds <= 32)%nat ->
  Insert.ballot preds <> 0 ->
  exists r : nat,
    preds !! r = Some true /\
    (forall r', (r' < r)%nat -> preds !! r' = Some false) /\
    u32 (Insert.ffs (Insert.ballot preds) - 1) = Z.of_nat r.
Proof.
  intros Hlen Hne.
  destruct (list_find (fun p => p = true) preds) as [[r p] |] eqn:Hfind.
  - apply list_find_Some in Hfind as (Hr & -> & Hlow).
    pose proof (lookup_lt_Some _ _ _ Hr) as Hrlt.
    assert (Hlow' : forall r', (r' < r)%nat -> preds !! r' = Some false).
    { intros r' Hr'.
      destruct (lookup_lt_is_Some_2 preds r' ltac:(lia)) as [q Hq].
      rewrite Hq. f_equal. specialize (Hlow r' q Hq Hr'). now destruct q. }
    exists r. split; [exact Hr |]. split; [exact Hlow' |].
    rewrite (ffs_first_set _ r); [| lia | |].
    + rewrite u32_small; lia.
    + rewrite testbit_ballot, Hr. reflexivity.
    + intros j Hj. rewrite testbit_ballot, (Hlow' j Hj). reflexivity.
  - exfalso. apply Hne. unfold Insert.ballot. apply ballot_from_all_false.
    apply Forall_forall. intros p Hp.
    apply list_find_None in Hfind. rewrite Forall_forall in Hfind.
    specialize (Hfind p Hp). now destruct p.
Qed.

End BallotFacts.

(** ** Group-cooperative insert: one group *)

Module InsertFacts.

Import Insert.

Lemma window_load_length v slots cur obs :
  window_load v slots cur = Some obs -> length obs = length cur.
Proof.
  revert obs. induction cur as [| s rest IH]; intros obs H; simpl in H.
  - now inversion H.
  - destruct (lane_load v slots s); [| discriminate].
    destruct (window_load v slots rest); [| discriminate].
    inversion H; subst. simpl. f_equal. now apply IH.
Qed.

Lemma window_load_lookup v slots cur obs r s :
  window_load v slots cur = Some obs ->
  cur !! r = Some s ->
  exists o, obs !! r = Some o /\ lane_load v slots s = Some o.
Proof.
  revert obs r. induction cur as [| s0 rest IH]; intros obs r H Hr; [discriminate |].
  simpl in H.
  destruct (lane_load v slots s0) as [o0 |] eqn:E0; [| discriminate].
  destruct (window_load v slots rest) as [os |]; [| discriminate].
  inversion H; subst. destruct r as [| r]; simpl in *.
  - inversion Hr; subst. eauto.
  - eapply IH; eauto.
Qed.

Lemma lane_load_slots v slots s o :
  lane_load v slots s = Some o ->
  exists a b,
    Storage.load slots s = Some a /\ Storage.load slots (s + 1) = Some b /\
    fst o = (first a =? empty_key_sentinel_ v) /\
    snd o = (first b =? empty_key_sentinel_ v).
Proof.
  unfold lane_load. intros H.
  destruct (Storage.load slots s) as [a |]; [| discriminate].
  destruct (Storage.load slots (s + 1)) as [b |]; [| discriminate].
  inversion H; subst. simpl. exists a, b. auto.
Qed.

Lemma advance_lanes_lookup v step cur cur' r s :
  advance_lanes v step cur = Some cur' ->
  cur !! r = Some s ->
  exists s', cur' !! r = Some s' /\ Probe.cg_next_slot (capacity_ v) step s = Some s'.
Proof.
  revert cur' r. induction cur as [| s0 rest IH]; intros cur' r H Hr; [discriminate |].
  simpl in H.
  destruct (Probe.cg_next_slot (capacity_ v) step s0) as [s0' |] eqn:E0; [| discriminate].
  destruct (advance_lanes v step rest) as [rest' |]; [| discriminate].
  inversion H; subst. destruct r as [| r]; simpl in *.
  - inversion Hr; subst. eauto.
  - eapply IH; eauto.
Qed.

Lemma advance_lanes_length v step cur cur' :
  advance_lanes v step cur = Some cur' -> length cur' = length cur.
Proof.
  revert cur'. induction cur as [| s rest IH]; intros cur' H; simpl in H.
  - now inversion H.
  - destruct (Probe.cg_next_slot (capacity_ v) step s); [| discriminate].
    destruct (advance_lanes v step rest); [| discriminate].
    inversion H; subst. simpl. f_equal. now apply IH.
Qed.

(** C2: when the ballot over "one of my two slots is empty" is not zero,
    the lane that goes on to the compare-and-swap is the one of lowest rank
    whose wide load showed an empty slot, no other lane attempts anything,
    and the slot it targets is its first slot when that one was empty and
    otherwise its second, which then was empty. *)
Theorem claiming_lane (v : view) (slots : list slot) (g : group)
    (obs : list (bool * bool)) :
  at_ g = AtLoad ->
  (length (current_slot g) <= 32)%nat ->
  window_load v slots (current_slot g) = Some obs ->
  window_contains_empty obs <> 0 ->
  exists (r : nat) (s : Z) (a b : slot),
    current_slot g !! r = Some s /\
    Storage.load slots s = Some a /\ Storage.load slots (s + 1) = Some b /\
    (first a = empty_key_sentinel_ v \/ first b = empty_key_sentinel_ v) /\
    (forall (r' : nat) (s' : Z), (r' < r)%nat -> current_slot g !! r' = Some s' ->
       exists a' b',
         Storage.load slots s' = Some a' /\ Storage.load slots (s' + 1) = Some b' /\
         first a' <> empty_key_sentinel_ v /\ first b' <> empty_key_sentinel_ v) /\
    (forall rank : Z, lane_attempts obs rank = true <-> rank = Z.of_nat r) /\
    group_step v slots g =
      Some (slots,
            set_at g (AtKeyCas (if first a =? empty_key_sentinel_ v then s else s + 1))) /\
    (first a <> empty_key_sentinel_ v -> first b = empty_key_sentinel_ v).
Proof.
  intros Hat Hlanes Hload Hvote.
  pose proof (window_load_length _ _ _ _ Hload) as Hlen.
  destruct (BallotFacts.ballot_first (map (fun o => fst o || snd o) obs))
    as (r & Hr & Hlow & Hsrc).
  { rewrite length_map. lia. }
  { exact Hvote. }
  rewrite list_lookup_fmap in Hr.
  destruct (obs !! r) as [o |] eqn:Ho; [| discriminate]. simpl in Hr.
  destruct (lookup_lt_is_Some_2 (current_slot g) r) as [s Hs].
  { rewrite <- Hlen. eapply lookup_lt_Some; eauto. }
  destruct (window_load_lookup _ _ _ _ _ _ Hload Hs) as (o' & Ho' & Hlane).
  rewrite Ho in Ho'. inversion Ho'; subst o'. clear Ho'.
  destruct (lane_load_slots _ _ _ _ Hlane) as (a & b & Ha & Hb & Hfa & Hfb).
  exists r, s, a, b.
  split; [exact Hs |]. split; [exact Ha |]. split; [exact Hb |].
  assert (Hsl : src_lane obs = Z.of_nat r) by exact Hsrc.
  split.
  { inversion Hr as [Hor]. rewrite Hfa, Hfb in Hor.
    apply orb_true_iff in Hor as [H | H]; apply Z.eqb_eq in H; auto. }
  split.
  { intros r' s' Hr' Hs'.
    destruct (window_load_lookup _ _ _ _ _ _ Hload Hs') as (o' & Ho' & Hlane').
    destruct (lane_load_slots _ _ _ _ Hlane') as (a' & b' & Ha' & Hb' & Hfa' & Hfb').
    exists a', b'. split; [exact Ha' |]. split; [exact Hb' |].
    specialize (Hlow r' Hr'). rewrite list_lookup_fmap, Ho' in Hlow. simpl in Hlow.
    inversion Hlow as [Hor]. rewrite Hfa', Hfb' in Hor.
    apply orb_false_iff in Hor as [H1 H2].
    apply Z.eqb_neq in H1, H2. auto. }
  split.
  { intros rank. unfold lane_attempts. rewrite Hsl. apply Z.eqb_eq. }
  split.
  { unfold group_step. rewrite Hat, Hload.
    destruct (Z.eqb_spec (window_contains_empty obs) 0); [contradiction |].
    unfold claim_target. rewrite Hsl, Nat2Z.id, Hs, Ho.
    unfold insert_location_of. rewrite Hfa.
    destruct (first a =? empty_key_sentinel_ v); simpl; [| reflexivity].
    now rewrite Z.add_0_r. }
  { intros Hna. inversion Hr as [Hor]. rewrite Hfa, Hfb in Hor.
    apply orb_true_iff in Hor as [H | H]; apply Z.eqb_eq in H; [contradiction | exact H]. }
Qed.

End InsertFacts.

(** ** Slot storage *)

Module StorageFacts.

Import Storage.

Lemma load_Some_range slots i s :
  load slots i = Some s -> 0 <= i /\ (Z.to_nat i < length slots)%nat.
Proof.
  unfold load. intros H. destruct (Z.ltb_spec i 0); [discriminate |].
  split; [lia |]. eapply lookup_lt_Some; eauto.
Qed.

Lemma load_store_eq slots i s s0 :
  load slots i = Some s0 -> load (store slots i s) i = Some s.
Proof.
  intros H. destruct (load_Some_range _ _ _ H) as [Hi Hlen].
  unfold load, store. destruct (Z.ltb_spec i 0); [lia |].
  now apply list_lookup_insert_eq.
Qed.

Lemma load_store_ne slots i j s :
  0 <= i -> i <> j -> load (store slots i s) j = load slots j.
Proof.
  intros Hi Hne. unfold load, store.
  destruct (Z.ltb_spec j 0); [reflexivity |].
  apply list_lookup_insert_ne. lia.
Qed.

Lemma store_same slots i s : load slots i = Some s -> store slots i s = slots.
Proof.
  unfold load, store. destruct (Z.ltb_spec i 0); [discriminate |].
  apply list_insert_id.
Qed.

Lemma slot_eta s : Slot (first s) (second s) = s.
Proof. now destruct s. Qed.

Lemma cas_success cell expected desired :
  cell = expected ->
  compare_exchange_strong cell expected desired = (true, expected, desired).
Proof. intros ->. unfold compare_exchange_strong. now rewrite Z.eqb_refl. Qed.

Lemma cas_failure cell expected desired :
  cell <> expected ->
  compare_exchange_strong cell expected desired = (false, cell, cell).
Proof.
  intros H. unfold compare_exchange_strong.
  now destruct (Z.eqb_spec cell expected).
Qed.

End StorageFacts.

(** ** Group-cooperative insert: what each step writes *)

Module StepFacts.

Import Insert StorageFacts.

Lemma step_pair v slots g slots' g' :
  group_step v slots g = Some (slots', g') -> insert_pair g' = insert_pair g.
Proof.
  unfold group_step. intros H.
  destruct (at_ g) as [| loc | loc ks | loc e | loc | st |].
  - destruct (window_load v slots (current_slot g)) as [obs |]; [| discriminate].
    destruct (window_contains_empty obs =? 0).
    + destruct (advance_lanes v (step_size_ g) (current_slot g)); [| discriminate].
      now inversion H.
    + destruct (claim_target (current_slot g) obs); now inversion H.
  - destruct (Storage.load slots loc) as [s |]; [| discriminate].
    destruct (Storage.compare_exchange_strong _ _ _) as [[ok e] k'].
    now inversion H.
  - destruct (Storage.load slots loc) as [s |]; [| discriminate].
    destruct (Storage.compare_exchange_strong _ _ _) as [[ok e] v'].
    destruct ks, ok; now inversion H.
  - destruct (Storage.load slots loc) as [s |]; [| discriminate].
    destruct (Storage.compare_exchange_strong _ _ _) as [[ok e'] v'].
    destruct ok; now inversion H.
  - destruct (Storage.load slots loc) as [s |]; [| discriminate].
    now inversion H.
  - destruct st; now inversion H.
  - discriminate.
Qed.

(** A step that writes nothing: the array is unchanged, no group starts to
    owe a value or to owe a rollback, and a group enters [AtValueCas _ false]
    only from a failed key compare-and-swap. *)
Lemma step_silent v slots g slots' g' :
  group_step v slots g = Some (slots', g') ->
  effect_of v slots g = Silent ->
  slots' = slots /\
  (forall loc, owes_value g' loc -> owes_value g loc) /\
  (forall loc, at_ g' <> AtStore loc) /\
  (forall loc, at_ g' = AtValueCas loc false ->
     exists s, Storage.load slots loc = Some s /\ first s <> empty_key_sentinel_ v).
Proof.
  unfold group_step, effect_of, owes_value. intros H E.
  destruct (at_ g) as [| loc | loc ks | loc e | loc | st |] eqn:Hat.
  - destruct (window_load v slots (current_slot g)) as [obs |]; [| discriminate].
    destruct (window_contains_empty obs =? 0).
    + destruct (advance_lanes v (step_size_ g) (current_slot g)); [| discriminate].
      inversion H; subst; simpl. rewrite Hat.
      repeat split; try congruence; try (intros loc [? | [e ?]]; congruence).
    + destruct (claim_target (current_slot g) obs); inversion H; subst; simpl;
        (repeat split; try congruence; try (intros loc0 [? | [e ?]]; congruence)).
  - destruct (Storage.load slots loc) as [s |] eqn:Hs; [| discriminate].
    destruct (Z.eqb_spec (first s) (empty_key_sentinel_ v)) as [| Hne]; [discriminate |].
    rewrite (cas_failure _ _ _ Hne) in H. inversion H; subst; simpl.
    rewrite slot_eta, (store_same _ _ _ Hs).
    repeat split; try congruence.
    + intros loc0 [? | [e ?]]; congruence.
    + intros loc0 Hl. inversion Hl; subst. eauto.
  - destruct (Storage.load slots loc) as [s |] eqn:Hs; [| discriminate].
    destruct (Z.eqb_spec (second s) (empty_value_sentinel_ v)) as [| Hne];
      [destruct ks; discriminate |].
    rewrite (cas_failure _ _ _ Hne) in H.
    destruct ks; inversion H; subst; simpl;
      rewrite slot_eta, (store_same _ _ _ Hs);
      (repeat split; try congruence).
    + intros loc0 [? | [e Hl]]; [congruence |]. inversion Hl; subst. now left.
    + intros loc0 [? | [e ?]]; congruence.
  - destruct (Storage.load slots loc) as [s |] eqn:Hs; [| discriminate].
    destruct (Z.eqb_spec (second s) (empty_value_sentinel_ v)) as [| Hne]; [discriminate |].
    rewrite (cas_failure _ _ _ Hne) in H.
    inversion H; subst; simpl. rewrite slot_eta, (store_same _ _ _ Hs).
    repeat split; try congruence.
    intros loc0 [? | [e' Hl]]; [congruence |]. inversion Hl; subst. right. eauto.
  - destruct (Storage.load slots loc) as [s |]; discriminate.
  - destruct st; inversion H; subst; simpl;
      (repeat split; try congruence; try (intros loc0 [? | [e ?]]; congruence)).
  - discriminate.
Qed.

Lemma step_claim v slots g slots' g' loc :
  group_step v slots g = Some (slots', g') ->
  effect_of v slots g = ClaimKey loc ->
  at_ g = AtKeyCas loc /\ at_ g' = AtValueCas loc true /\
  exists s, Storage.load slots loc = Some s /\
            first s = empty_key_sentinel_ v /\
            slots' = Storage.store slots loc (Slot (fst (insert_pair g)) (second s)).
Proof.
  unfold group_step, effect_of. intros H E.
  destruct (at_ g) as [| l | l ks | l e | l | st |] eqn:Hat; try discriminate.
  - destruct (Storage.load slots l) as [s |] eqn:Hs; [| discriminate].
    destruct (Z.eqb_spec (first s) (empty_key_sentinel_ v)) as [Heq |]; [| discriminate].
    inversion E; subst l. rewrite (cas_success _ _ _ Heq) in H.
    inversion H; subst; simpl. eauto 10.
  - destruct (Storage.load slots l) as [s |]; [| discriminate].
    destruct (second s =? empty_value_sentinel_ v); [destruct ks |]; discriminate.
  - destruct (Storage.load slots l) as [s |]; [| discriminate].
    destruct (second s =? empty_value_sentinel_ v); discriminate.
  - destruct (Storage.load slots l) as [s |]; discriminate.
Qed.

Lemma step_publish v slots g slots' g' loc :
  group_step v slots g = Some (slots', g') ->
  effect_of v slots g = Publish loc ->
  owes_value g loc /\ at_ g' = AtVote SUCCESS /\
  exists s, Storage.load slots loc = Some s /\
            second s = empty_value_sentinel_ v /\
            slots' = Storage.store slots loc (Slot (first s) (snd (insert_pair g))).
Proof.
  unfold group_step, effect_of, owes_value. intros H E.
  destruct (at_ g) as [| l | l ks | l e | l | st |] eqn:Hat; try discriminate.
  - destruct (Storage.load slots l) as [s |]; [| discriminate].
    destruct (first s =? empty_key_sentinel_ v); discriminate.
  - destruct (Storage.load slots l) as [s |] eqn:Hs; [| discriminate].
    destruct (Z.eqb_spec (second s) (empty_value_sentinel_ v)) as [Heq |]; [| discriminate].
    destruct ks; [| discriminate]. inversion E; subst l.
    rewrite (cas_success _ _ _ Heq) in H. inversion H; subst; simpl. eauto 10.
  - destruct (Storage.load slots l) as [s |] eqn:Hs; [| discriminate].
    destruct (Z.eqb_spec (second s) (empty_value_sentinel_ v)) as [Heq |]; [| discriminate].
    inversion E; subst l.
    rewrite (cas_success _ _ _ Heq) in H. inversion H; subst; simpl. eauto 10.
  - destruct (Storage.load slots l) as [s |]; discriminate.
Qed.

Lemma step_speculate v slots g slots' g' loc :
  group_step v slots g = Some (slots', g') ->
  effect_of v slots g = Speculate loc ->
  at_ g = AtValueCas loc false /\ at_ g' = AtStore loc /\
  exists s, Storage.load slots loc = Some s /\
            second s = empty_value_sentinel_ v /\
            slots' = Storage.store slots loc (Slot (first s) (snd (insert_pair g))).
Proof.
  unfold group_step, effect_of. intros H E.
  destruct (at_ g) as [| l | l ks | l e | l | st |] eqn:Hat; try discriminate.
  - destruct (Storage.load slots l) as [s |]; [| discriminate].
    destruct (first s =? empty_key_sentinel_ v); discriminate.
  - destruct (Storage.load slots l) as [s |] eqn:Hs; [| discriminate].
    destruct (Z.eqb_spec (second s) (empty_value_sentinel_ v)) as [Heq |]; [| discriminate].
    destruct ks; [discriminate |]. inversion E; subst l.
    rewrite (cas_success _ _ _ Heq) in H. inversion H; subst; simpl. eauto 10.
  - destruct (Storage.load slots l) as [s |]; [| discriminate].
    destruct (second s =? empty_value_sentinel_ v); discriminate.
  - destruct (Storage.load slots l) as [s |]; discriminate.
Qed.

Lemma step_rollback v slots g slots' g' loc :
  group_step v slots g = Some (slots', g') ->
  effect_of v slots g = Rollback loc ->
  at_ g = AtStore loc /\ at_ g' = AtVote CONTINUE /\
  exists s, Storage.load slots loc = Some s /\
            slots' = Storage.store slots loc (Slot (first s) (empty_value_sentinel_ v)).
Proof.
  unfold group_step, effect_of. intros H E.
  destruct (at_ g) as [| l | l ks | l e | l | st |] eqn:Hat; try discriminate.
  - destruct (Storage.load slots l) as [s |]; [| discriminate].
    destruct (first s =? empty_key_sentinel_ v); discriminate.
  - destruct (Storage.load slots l) as [s |]; [| discriminate].
    destruct (second s =? empty_value_sentinel_ v); [destruct ks |]; discriminate.
  - destruct (Storage.load slots l) as [s |]; [| discriminate].
    destruct (second s =? empty_value_sentinel_ v); discriminate.
  - destruct (Storage.load slots l) as [s |] eqn:Hs; [| discriminate].
    inversion E; subst l. inversion H; subst; simpl. eauto 10.
Qed.

(** Only a successful value compare-and-swap of the key's owner leads to
    the vote with status SUCCESS. *)
Lemma step_to_success v slots g slots' g' :
  group_step v slots g = Some (slots', g') ->
  at_ g' = AtVote SUCCESS ->
  exists loc, effect_of v slots g = Publish loc.
Proof.
  unfold group_step, effect_of. intros H Hs.
  destruct (at_ g) as [| loc | loc ks | loc e | loc | st |] eqn:Hat.
  - destruct (window_load v slots (current_slot g)) as [obs |]; [| discriminate].
    destruct (window_contains_empty obs =? 0).
    + destruct (advance_lanes v (step_size_ g) (current_slot g)); [| discriminate].
      inversion H; subst; simpl in Hs. congruence.
    + destruct (claim_target (current_slot g) obs); inversion H; subst; discriminate.
  - destruct (Storage.load slots loc) as [s |]; [| discriminate].
    destruct (Storage.compare_exchange_strong _ _ _) as [[ok e] k'].
    inversion H; subst; discriminate.
  - destruct (Storage.load slots loc) as [s |]; [| discriminate].
    unfold Storage.compare_exchange_strong in H.
    destruct (second s =? empty_value_sentinel_ v);
      destruct ks; inversion H; subst; try discriminate. eauto.
  - destruct (Storage.load slots loc) as [s |]; [| discriminate].
    unfold Storage.compare_exchange_strong in H.
    destruct (second s =? empty_value_sentinel_ v);
      inversion H; subst; try discriminate. eauto.
  - destruct (Storage.load slots loc) as [s |]; [| discriminate].
    inversion H; subst; discriminate.
  - destruct st; inversion H; subst; discriminate.
  - discriminate.
Qed.

Lemma silent_not_store v slots g loc :
  at_ g = AtStore loc -> effect_of v slots g = Silent -> group_step v slots g = None.
Proof.
  unfold group_step, effect_of. intros -> H.
  destruct (Storage.load slots loc); [discriminate | reflexivity].
Qed.

(** The steps of the value phase, read forwards. *)
Lemma owner_step v slots g loc s :
  owes_value g loc ->
  Storage.load slots loc = Some s ->
  group_step v slots g =
    if second s =? empty_value_sentinel_ v
    then Some (Storage.store slots loc (Slot (first s) (snd (insert_pair g))),
               set_at g (AtVote SUCCESS))
    else Some (slots, set_at g (AtValueLoop loc (second s))).
Proof.
  unfold group_step, owes_value. intros Ho Hs.
  destruct (Z.eqb_spec (second s) (empty_value_sentinel_ v)) as [Heq | Hne].
  - destruct Ho as [-> | [e ->]]; rewrite Hs, (cas_success _ _ _ Heq); reflexivity.
  - destruct Ho as [-> | [e ->]]; rewrite Hs, (cas_failure _ _ _ Hne);
      now rewrite slot_eta, (store_same _ _ _ Hs).
Qed.

Lemma key_cas_step v slots g loc s :
  at_ g = AtKeyCas loc ->
  Storage.load slots loc = Some s ->
  group_step v slots g =
    if first s =? empty_key_sentinel_ v
    then Some (Storage.store slots loc (Slot (fst (insert_pair g)) (second s)),
               set_at g (AtValueCas loc true))
    else Some (slots, set_at g (AtValueCas loc false)).
Proof.
  unfold group_step. intros -> Hs. rewrite Hs.
  destruct (Z.eqb_spec (first s) (empty_key_sentinel_ v)) as [Heq | Hne].
  - now rewrite (cas_success _ _ _ Heq).
  - now rewrite (cas_failure _ _ _ Hne), slot_eta, (store_same _ _ _ Hs).
Qed.

Lemma loser_step v slots g loc s :
  at_ g = AtValueCas loc false ->
  Storage.load slots loc = Some s ->
  group_step v slots g =
    if second s =? empty_value_sentinel_ v
    then Some (Storage.store slots loc (Slot (first s) (snd (insert_pair g))),
               set_at g (AtStore loc))
    else Some (slots, set_at g (AtVote CONTINUE)).
Proof.
  unfold group_step. intros -> Hs. rewrite Hs.
  destruct (Z.eqb_spec (second s) (empty_value_sentinel_ v)) as [Heq | Hne].
  - now rewrite (cas_success _ _ _ Heq).
  - now rewrite (cas_failure _ _ _ Hne), slot_eta, (store_same _ _ _ Hs).
Qed.

Lemma store_step v slots g loc s :
  at_ g = AtStore loc ->
  Storage.load slots loc = Some s ->
  group_step v slots g =
    Some (Storage.store slots loc (Slot (first s) (empty_value_sentinel_ v)),
          set_at g (AtVote CONTINUE)).
Proof. unfold group_step. intros -> Hs. now rewrite Hs. Qed.

End StepFacts.

(** ** Group-cooperative insert: interleavings of several groups *)

Module ProtocolFacts.

Import Insert StorageFacts StepFacts.

Lemma step_at_inv v t0 c c' :
  step_at v t0 c = Some c' ->
  exists g g',
    groups c !! t0 = Some g /\
    group_step v (slots_ c) g = Some (slots_ c', g') /\
    groups c' = <[t0 := g']> (groups c).
Proof.
  unfold step_at. intros H.
  destruct (groups c !! t0) as [g |]; [| discriminate].
  destruct (group_step v (slots_ c) g) as [[slots' g'] |] eqn:E; [| discriminate].
  inversion H; subst; simpl. eauto.
Qed.

Lemma lookup_updated (gs : list group) t0 g0 g' t g :
  gs !! t0 = Some g0 ->
  <[t0 := g']> gs !! t = Some g ->
  (t = t0 /\ g = g') \/ (t <> t0 /\ gs !! t = Some g).
Proof.
  intros H0 H. destruct (decide (t0 = t)) as [-> | Hne].
  - rewrite list_lookup_insert_eq in H by (eapply lookup_lt_Some; eauto).
    inversion H; auto.
  - rewrite list_lookup_insert_ne in H by assumption. auto.
Qed.

Lemma load_store_cases slots loc0 s0 snew loc :
  Storage.load slots loc0 = Some s0 ->
  Storage.load (Storage.store slots loc0 snew) loc =
    if decide (loc = loc0) then Some snew else Storage.load slots loc.
Proof.
  intros H. destruct (decide (loc = loc0)) as [-> | Hne].
  - eapply load_store_eq; eauto.
  - apply load_store_ne; [| congruence]. eapply load_Some_range; eauto.
Qed.

Lemma owes_value_at g g' loc :
  at_ g' = at_ g -> owes_value g' loc -> owes_value g loc.
Proof. unfold owes_value. intros ->. auto. Qed.

Lemma owes_value_cas g loc loc' :
  at_ g = AtValueCas loc true -> owes_value g loc' -> loc' = loc.
Proof.
  unfold owes_value. intros H [H' | [e H']]; rewrite H in H'; now inversion H'.
Qed.

Lemma not_owes g loc :
  (at_ g = AtLoad \/ at_ g = Returned \/ (exists st, at_ g = AtVote st) \/
   (exists l, at_ g = AtStore l) \/ (exists l, at_ g = AtKeyCas l) \/
   (exists l, at_ g = AtValueCas l false)) ->
  ~ owes_value g loc.
Proof.
  unfold owes_value.
  intros [H | [H | [[st H] | [[l H] | [[l H] | [l H]]]]]] [H' | [e H']];
    rewrite H in H'; discriminate.
Qed.

(** The publish invariant is kept by every step of every group. *)
Lemma safe_step v t0 c c' :
  safe v c -> step_at v t0 c = Some c' -> safe v c'.
Proof.
  intros [Hvalid Hokey Hounique Hsval Hsunique] Hstep.
  destruct (step_at_inv _ _ _ _ Hstep) as (g & g' & Hg & Hgs & Hgroups).
  pose proof (step_pair _ _ _ _ _ Hgs) as Hpair.
  assert (Hvalid' : valid_pairs v c').
  { intros t g1 H1. rewrite Hgroups in H1.
    destruct (lookup_updated _ _ _ _ _ _ Hg H1) as [[-> ->] | [Hne H1']].
    - unfold valid_pair. rewrite Hpair. exact (Hvalid _ _ Hg).
    - exact (Hvalid _ _ H1'). }
  pose proof (Hvalid _ _ Hg) as [Hk0 Hv0].
  destruct (effect_of v (slots_ c) g) as [| loc0 | loc0 | loc0 | loc0] eqn:E.
  - (* nothing written *)
    destruct (step_silent _ _ _ _ _ Hgs E) as (Hslots & Howes & Hnostore & _).
    assert (Hback : forall t g1 loc, groups c' !! t = Some g1 -> owes_value g1 loc ->
              exists g1', groups c !! t = Some g1' /\ owes_value g1' loc /\
                          insert_pair g1' = insert_pair g1).
    { intros t g1 loc H1 Ho. rewrite Hgroups in H1.
      destruct (lookup_updated _ _ _ _ _ _ Hg H1) as [[-> ->] | [Hne H1']]; eauto. }
    assert (Hback' : forall t g1 loc, groups c' !! t = Some g1 -> at_ g1 = AtStore loc ->
              groups c !! t = Some g1).
    { intros t g1 loc H1 Ho. rewrite Hgroups in H1.
      destruct (lookup_updated _ _ _ _ _ _ Hg H1) as [[-> ->] | [Hne H1']]; auto.
      now apply Hnostore in Ho. }
    split; [exact Hvalid' | | | |]; rewrite ?Hslots.
    + intros t g1 loc H1 Ho.
      destruct (Hback _ _ _ H1 Ho) as (g1' & H1' & Ho' & <-). eauto.
    + intros t1 t2 g1 g2 loc H1 H2 Ho1 Ho2.
      destruct (Hback _ _ _ H1 Ho1) as (g1' & H1' & Ho1' & _).
      destruct (Hback _ _ _ H2 Ho2) as (g2' & H2' & Ho2' & _). eauto.
    + intros t g1 loc H1 Ho. eauto.
    + intros t1 t2 g1 g2 loc H1 H2 Ho1 Ho2. eauto.
  - (* the key is claimed *)
    destruct (step_claim _ _ _ _ _ _ Hgs E) as (Hat & Hat' & s & Hs & Hek & Hslots).
    assert (Hno : forall t g1, groups c !! t = Some g1 -> ~ owes_value g1 loc0).
    { intros t g1 H1 Ho. destruct (Hokey _ _ _ H1 Ho) as (s1 & Hs1 & Hf).
      rewrite Hs in Hs1. inversion Hs1; subst s1.
      destruct (Hvalid _ _ H1) as [Hk _]. congruence. }
    split; [exact Hvalid' | | | |]; rewrite ?Hslots.
    + intros t g1 loc H1 Ho. rewrite Hgroups in H1.
      rewrite (load_store_cases _ _ _ _ _ Hs).
      destruct (lookup_updated _ _ _ _ _ _ Hg H1) as [[-> ->] | [Hne H1']].
      * rewrite (owes_value_cas _ _ _ Hat' Ho).
        destruct (decide (loc0 = loc0)); [| congruence].
        rewrite Hpair. eauto.
      * destruct (decide (loc = loc0)) as [-> | Hl]; [exfalso; eapply Hno; eauto |]. eauto.
    + intros t1 t2 g1 g2 loc H1 H2 Ho1 Ho2. rewrite Hgroups in H1, H2.
      destruct (lookup_updated _ _ _ _ _ _ Hg H1) as [[-> ->] | [Hne1 H1']];
      destruct (lookup_updated _ _ _ _ _ _ Hg H2) as [[-> ->] | [Hne2 H2']];
        [reflexivity | | | eauto].
      * rewrite (owes_value_cas _ _ _ Hat' Ho1) in Ho2. exfalso; eapply Hno; eauto.
      * rewrite (owes_value_cas _ _ _ Hat' Ho2) in Ho1. exfalso; eapply Hno; eauto.
    + intros t g1 loc H1 Ho. rewrite Hgroups in H1.
      rewrite (load_store_cases _ _ _ _ _ Hs).
      destruct (lookup_updated _ _ _ _ _ _ Hg H1) as [[-> ->] | [Hne H1']];
        [congruence |].
      destruct (Hsval _ _ _ H1' Ho) as (s1 & Hs1 & Hsec).
      destruct (decide (loc = loc0)) as [-> | Hl]; [| eauto].
      rewrite Hs in Hs1. inversion Hs1; subst s1. eauto.
    + intros t1 t2 g1 g2 loc H1 H2 Ho1 Ho2. rewrite Hgroups in H1, H2.
      destruct (lookup_updated _ _ _ _ _ _ Hg H1) as [[-> ->] | [Hne1 H1']];
      destruct (lookup_updated _ _ _ _ _ _ Hg H2) as [[-> ->] | [Hne2 H2']];
        try congruence. eauto.
  - (* the owner publishes its value *)
    destruct (step_publish _ _ _ _ _ _ Hgs E) as (Hown & Hat' & s & Hs & Hev & Hslots).
    assert (Hnot : forall loc, ~ owes_value g' loc).
    { intros loc. apply not_owes. eauto 10. }
    split; [exact Hvalid' | | | |]; rewrite ?Hslots.
    + intros t g1 loc H1 Ho. rewrite Hgroups in H1.
      rewrite (load_store_cases _ _ _ _ _ Hs).
      destruct (lookup_updated _ _ _ _ _ _ Hg H1) as [[-> ->] | [Hne H1']];
        [now apply Hnot in Ho |].
      destruct (Hokey _ _ _ H1' Ho) as (s1 & Hs1 & Hf).
      destruct (decide (loc = loc0)) as [-> | Hl]; [| eauto].
      rewrite Hs in Hs1. inversion Hs1; subst s1. eauto.
    + intros t1 t2 g1 g2 loc H1 H2 Ho1 Ho2. rewrite Hgroups in H1, H2.
      destruct (lookup_updated _ _ _ _ _ _ Hg H1) as [[-> ->] | [Hne1 H1']];
        [now apply Hnot in Ho1 |].
      destruct (lookup_updated _ _ _ _ _ _ Hg H2) as [[-> ->] | [Hne2 H2']];
        [now apply Hnot in Ho2 |]. eauto.
    + intros t g1 loc H1 Ho. rewrite Hgroups in H1.
      rewrite (load_store_cases _ _ _ _ _ Hs).
      destruct (lookup_updated _ _ _ _ _ _ Hg H1) as [[-> ->] | [Hne H1']];
        [congruence |].
      destruct (Hsval _ _ _ H1' Ho) as (s1 & Hs1 & Hsec).
      destruct (decide (loc = loc0)) as [-> | Hl]; [| eauto].
      rewrite Hs in Hs1. inversion Hs1; subst s1. congruence.
    + intros t1 t2 g1 g2 loc H1 H2 Ho1 Ho2. rewrite Hgroups in H1, H2.
      destruct (lookup_updated _ _ _ _ _ _ Hg H1) as [[-> ->] | [Hne1 H1']];
      destruct (lookup_updated _ _ _ _ _ _ Hg H2) as [[-> ->] | [Hne2 H2']];
        try congruence. eauto.
  - (* a speculative value is written *)
    destruct (step_speculate _ _ _ _ _ _ Hgs E) as (Hat & Hat' & s & Hs & Hev & Hslots).
    assert (Hnot : forall loc, ~ owes_value g' loc).
    { intros loc. apply not_owes. eauto 10. }
    assert (Hnone : forall t g1, groups c !! t = Some g1 -> at_ g1 <> AtStore loc0).
    { intros t g1 H1 Ho. destruct (Hsval _ _ _ H1 Ho) as (s1 & Hs1 & Hsec).
      rewrite Hs in Hs1. inversion Hs1; subst s1. congruence. }
    split; [exact Hvalid' | | | |]; rewrite ?Hslots.
    + intros t g1 loc H1 Ho. rewrite Hgroups in H1.
      rewrite (load_store_cases _ _ _ _ _ Hs).
      destruct (lookup_updated _ _ _ _ _ _ Hg H1) as [[-> ->] | [Hne H1']];
        [now apply Hnot in Ho |].
      destruct (Hokey _ _ _ H1' Ho) as (s1 & Hs1 & Hf).
      destruct (decide (loc = loc0)) as [-> | Hl]; [| eauto].
      rewrite Hs in Hs1. inversion Hs1; subst s1. eauto.
    + intros t1 t2 g1 g2 loc H1 H2 Ho1 Ho2. rewrite Hgroups in H1, H2.
      destruct (lookup_updated _ _ _ _ _ _ Hg H1) as [[-> ->] | [Hne1 H1']];
        [now apply Hnot in Ho1 |].
      destruct (lookup_updated _ _ _ _ _ _ Hg H2) as [[-> ->] | [Hne2 H2']];
        [now apply Hnot in Ho2 |]. eauto.
    + intros t g1 loc H1 Ho. rewrite Hgroups in H1.
      rewrite (load_store_cases _ _ _ _ _ Hs).
      destruct (lookup_updated _ _ _ _ _ _ Hg H1) as [[-> ->] | [Hne H1']].
      * rewrite Hat' in Ho. inversion Ho; subst loc.
        destruct (decide (loc0 = loc0)); [| congruence]. eauto.
      * destruct (decide (loc = loc0)) as [-> | Hl]; [exfalso; eapply Hnone; eauto |].
        eauto.
    + intros t1 t2 g1 g2 loc H1 H2 Ho1 Ho2. rewrite Hgroups in H1, H2.
      destruct (lookup_updated _ _ _ _ _ _ Hg H1) as [[-> ->] | [Hne1 H1']];
      destruct (lookup_updated _ _ _ _ _ _ Hg H2) as [[-> ->] | [Hne2 H2']];
        [reflexivity | | | eauto].
      * rewrite Hat' in Ho1. inversion Ho1; subst loc. exfalso; eapply Hnone; eauto.
      * rewrite Hat' in Ho2. inversion Ho2; subst loc. exfalso; eapply Hnone; eauto.
  - (* the speculative value is rolled back *)
    destruct (step_rollback _ _ _ _ _ _ Hgs E) as (Hat & Hat' & s & Hs & Hslots).
    assert (Hnot : forall loc, ~ owes_value g' loc).
    { intros loc. apply not_owes. eauto 10. }
    split; [exact Hvalid' | | | |]; rewrite ?Hslots.
    + intros t g1 loc H1 Ho. rewrite Hgroups in H1.
      rewrite (load_store_cases _ _ _ _ _ Hs).
      destruct (lookup_updated _ _ _ _ _ _ Hg H1) as [[-> ->] | [Hne H1']];
        [now apply Hnot in Ho |].
      destruct (Hokey _ _ _ H1' Ho) as (s1 & Hs1 & Hf).
      destruct (decide (loc = loc0)) as [-> | Hl]; [| eauto].
      rewrite Hs in Hs1. inversion Hs1; subst s1. eauto.
    + intros t1 t2 g1 g2 loc H1 H2 Ho1 Ho2. rewrite Hgroups in H1, H2.
      destruct (lookup_updated _ _ _ _ _ _ Hg H1) as [[-> ->] | [Hne1 H1']];
        [now apply Hnot in Ho1 |].
      destruct (lookup_updated _ _ _ _ _ _ Hg H2) as [[-> ->] | [Hne2 H2']];
        [now apply Hnot in Ho2 |]. eauto.
    + intros t g1 loc H1 Ho. rewrite Hgroups in H1.
      rewrite (load_store_cases _ _ _ _ _ Hs).
      destruct (lookup_updated _ _ _ _ _ _ Hg H1) as [[-> ->] | [Hne H1']];
        [congruence |].
      destruct (decide (loc = loc0)) as [-> | Hl]; [| eauto].
      exfalso. apply Hne. eapply Hsunique; eauto.
    + intros t1 t2 g1 g2 loc H1 H2 Ho1 Ho2. rewrite Hgroups in H1, H2.
      destruct (lookup_updated _ _ _ _ _ _ Hg H1) as [[-> ->] | [Hne1 H1']];
      destruct (lookup_updated _ _ _ _ _ _ Hg H2) as [[-> ->] | [Hne2 H2']];
        try congruence. eauto.
Qed.

Lemma safe_run v sched c c' :
  safe v c -> run v sched c = Some c' -> safe v c'.
Proof.
  revert c. induction sched as [| t rest IH]; intros c Hs H; simpl in H.
  - now inversion H; subst.
  - destruct (step_at v t c) as [c1 |] eqn:E; [| discriminate].
    eapply IH; [eapply safe_step |]; eauto.
Qed.

Lemma quiescent_safe v c : quiescent c -> valid_pairs v c -> safe v c.
Proof.
  intros Hq Hv.
  assert (Hno : forall t g loc, groups c !! t = Some g -> ~ owes_value g loc).
  { intros t g loc H. apply not_owes. destruct (Hq _ _ H); auto. }
  assert (Hno' : forall t g loc, groups c !! t = Some g -> at_ g <> AtStore loc).
  { intros t g loc H. destruct (Hq _ _ H); congruence. }
  split; [exact Hv | | | |].
  - intros t g loc H Ho. exfalso; eapply Hno; eauto.
  - intros t1 t2 g1 g2 loc H1 _ Ho. exfalso; eapply Hno; eauto.
  - intros t g loc H Ho. exfalso; eapply Hno'; eauto.
  - intros t1 t2 g1 g2 loc H1 _ Ho. exfalso; eapply Hno'; eauto.
Qed.

(** A settled slot stays as it is under every step. *)
Lemma settled_step v t0 c c' loc k x :
  settled v c loc k x -> step_at v t0 c = Some c' -> settled v c' loc k x.
Proof.
  intros (Hl & Hk & Hx & Hnone) Hstep.
  destruct (step_at_inv _ _ _ _ Hstep) as (g & g' & Hg & Hgs & Hgroups).
  assert (Hkeep : forall loc0 s snew,
            Storage.load (slots_ c) loc0 = Some s ->
            (first s = empty_key_sentinel_ v \/ second s = empty_value_sentinel_ v \/
             at_ g = AtStore loc0) ->
            Storage.load (Storage.store (slots_ c) loc0 snew) loc = Some (Slot k x)).
  { intros loc0 s snew Hs Hcase.
    rewrite (load_store_cases _ _ _ _ _ Hs).
    destruct (decide (loc = loc0)) as [-> | Hne]; [| exact Hl].
    rewrite Hl in Hs. inversion Hs; subst s. simpl in Hcase.
    destruct Hcase as [? | [? | Hst]]; try congruence.
    exfalso. eapply Hnone; eauto. }
  assert (Hothers : (forall l, at_ g' = AtStore l -> l <> loc) ->
            forall t g1, groups c' !! t = Some g1 -> at_ g1 <> AtStore loc).
  { intros Hg' t g1 H1 Hst. rewrite Hgroups in H1.
    destruct (lookup_updated _ _ _ _ _ _ Hg H1) as [[-> ->] | [Hne H1']].
    - now apply (Hg' _ Hst).
    - eapply Hnone; eauto. }
  unfold settled.
  destruct (effect_of v (slots_ c) g) as [| loc0 | loc0 | loc0 | loc0] eqn:E.
  - destruct (step_silent _ _ _ _ _ Hgs E) as (Hslots & _ & Hnostore & _).
    rewrite Hslots. repeat split; auto.
    apply Hothers. intros l Hst. now apply Hnostore in Hst.
  - destruct (step_claim _ _ _ _ _ _ Hgs E) as (Hat & Hat' & s & Hs & Hek & Hslots).
    rewrite Hslots. repeat split; eauto.
    apply Hothers. intros l Hst. congruence.
  - destruct (step_publish _ _ _ _ _ _ Hgs E) as (Hown & Hat' & s & Hs & Hev & Hslots).
    rewrite Hslots. repeat split; eauto.
    apply Hothers. intros l Hst. congruence.
  - destruct (step_speculate _ _ _ _ _ _ Hgs E) as (Hat & Hat' & s & Hs & Hev & Hslots).
    rewrite Hslots. repeat split; eauto.
    apply Hothers. intros l Hst Heq. subst l.
    rewrite Hat' in Hst. inversion Hst; subst loc0.
    rewrite Hl in Hs. inversion Hs; subst s. simpl in Hev. congruence.
  - destruct (step_rollback _ _ _ _ _ _ Hgs E) as (Hat & Hat' & s & Hs & Hslots).
    rewrite Hslots. repeat split; eauto.
    apply Hothers. intros l Hst. congruence.
Qed.

Lemma settled_run v sched c c' loc k x :
  settled v c loc k x -> run v sched c = Some c' -> settled v c' loc k x.
Proof.
  revert c. induction sched as [| t rest IH]; intros c Hs H; simpl in H.
  - now inversion H; subst.
  - destruct (step_at v t c) as [c1 |] eqn:E; [| discriminate].
    eapply IH; [eapply settled_step |]; eauto.
Qed.

(** The successful value compare-and-swap of the owner settles the slot. *)
Lemma publish_settles v t c c' g loc :
  safe v c ->
  groups c !! t = Some g ->
  effect_of v (slots_ c) g = Publish loc ->
  step_at v t c = Some c' ->
  settled v c' loc (fst (insert_pair g)) (snd (insert_pair g)).
Proof.
  intros [Hvalid Hokey Hounique Hsval Hsunique] Hg E Hstep.
  destruct (step_at_inv _ _ _ _ Hstep) as (g0 & g' & Hg0 & Hgs & Hgroups).
  rewrite Hg in Hg0. inversion Hg0; subst g0. clear Hg0.
  destruct (step_publish _ _ _ _ _ _ Hgs E) as (Hown & Hat' & s & Hs & Hev & Hslots).
  destruct (Hokey _ _ _ Hg Hown) as (s1 & Hs1 & Hf).
  rewrite Hs in Hs1. inversion Hs1; subst s1. clear Hs1.
  destruct (Hvalid _ _ Hg) as [Hk Hx].
  unfold settled. rewrite Hslots, (load_store_eq _ _ _ _ Hs), Hf.
  repeat split; auto.
  intros t1 g1 H1 Hst. rewrite Hgroups in H1.
  destruct (lookup_updated _ _ _ _ _ _ Hg H1) as [[-> ->] | [Hne H1']];
    [congruence |].
  destruct (Hsval _ _ _ H1' Hst) as (s1 & Hs1 & Hsec).
  rewrite Hs in Hs1. inversion Hs1; subst s1. congruence.
Qed.

(** A key field changes only from the empty-key sentinel. *)
Lemma key_written_from_sentinel v t c c' loc s s' :
  step_at v t c = Some c' ->
  Storage.load (slots_ c) loc = Some s ->
  Storage.load (slots_ c') loc = Some s' ->
  first s' <> first s ->
  first s = empty_key_sentinel_ v.
Proof.
  intros Hstep Hl Hl' Hne.
  destruct (step_at_inv _ _ _ _ Hstep) as (g & g' & Hg & Hgs & Hgroups).
  assert (Hvalue : forall loc0 s0 x,
            Storage.load (slots_ c) loc0 = Some s0 ->
            slots_ c' = Storage.store (slots_ c) loc0 (Slot (first s0) x) -> False).
  { intros loc0 s0 x Hs0 Hslots.
    rewrite Hslots, (load_store_cases _ _ _ _ _ Hs0) in Hl'.
    destruct (decide (loc = loc0)) as [-> | Hd].
    - rewrite Hl in Hs0. inversion Hs0; subst s0. inversion Hl'; subst s'. now apply Hne.
    - rewrite Hl in Hl'. inversion Hl'; subst s'. now apply Hne. }
  destruct (effect_of v (slots_ c) g) as [| loc0 | loc0 | loc0 | loc0] eqn:E.
  - destruct (step_silent _ _ _ _ _ Hgs E) as (Hslots & _).
    rewrite Hslots, Hl in Hl'. inversion Hl'; subst s'. now contradiction Hne.
  - destruct (step_claim _ _ _ _ _ _ Hgs E) as (Hat & Hat' & s0 & Hs & Hek & Hslots).
    rewrite Hslots, (load_store_cases _ _ _ _ _ Hs) in Hl'.
    destruct (decide (loc = loc0)) as [-> | Hd].
    + rewrite Hl in Hs. now inversion Hs; subst s0.
    + rewrite Hl in Hl'. inversion Hl'; subst s'. now contradiction Hne.
  - destruct (step_publish _ _ _ _ _ _ Hgs E) as (_ & _ & s0 & Hs & _ & Hslots).
    exfalso. eauto.
  - destruct (step_speculate _ _ _ _ _ _ Hgs E) as (_ & _ & s0 & Hs & _ & Hslots).
    exfalso. eauto.
  - destruct (step_rollback _ _ _ _ _ _ Hgs E) as (_ & _ & s0 & Hs & Hslots).
    exfalso. eauto.
Qed.

(** C5: once the owner of a slot has published its value there, the slot
    holds the inserted pair and keeps it through every later step of every
    group; and no step changes a key field that is not the empty-key
    sentinel.  All groups insert pairs free of the two sentinels, as the
    container requires. *)
Theorem published_slot_is_final
    (v : view) (c0 c c' c'' : config) (sched sched' : list nat)
    (t : nat) (g : group) (loc : Z) :
  quiescent c0 -> valid_pairs v c0 ->
  run v sched c0 = Some c ->
  groups c !! t = Some g ->
  effect_of v (slots_ c) g = Publish loc ->
  step_at v t c = Some c' ->
  run v sched' c' = Some c'' ->
  Storage.load (slots_ c') loc =
    Some (Slot (fst (insert_pair g)) (snd (insert_pair g))) /\
  Storage.load (slots_ c'') loc =
    Some (Slot (fst (insert_pair g)) (snd (insert_pair g))) /\
  (forall u d d' j s s',
     step_at v u d = Some d' ->
     Storage.load (slots_ d) j = Some s ->
     Storage.load (slots_ d') j = Some s' ->
     first s' <> first s -> first s = empty_key_sentinel_ v).
Proof.
  intros Hq Hv Hrun Hg E Hstep Hrun'.
  pose proof (safe_run _ _ _ _ (quiescent_safe _ _ Hq Hv) Hrun) as Hsafe.
  pose proof (publish_settles _ _ _ _ _ _ Hsafe Hg E Hstep) as Hset.
  pose proof (settled_run _ _ _ _ _ _ _ Hset Hrun') as Hset'.
  split; [apply Hset |]. split; [apply Hset' |].
  intros u d d' j s s'. apply key_written_from_sentinel.
Qed.

(** The progress invariant is kept by every step. *)
Lemma unblocked_step v t0 c c' :
  safe v c -> unblocked v c -> step_at v t0 c = Some c' -> unblocked v c'.
Proof.
  intros [Hvalid Hokey Hounique Hsval Hsunique] [Hloser Hblank Hpend] Hstep.
  destruct (step_at_inv _ _ _ _ Hstep) as (g & g' & Hg & Hgs & Hgroups).
  pose proof (step_pair _ _ _ _ _ Hgs) as Hpair.
  pose proof (Hvalid _ _ Hg) as [Hk0 Hv0].
  (* a rollback pending in [c] at a group other than [t0] is still pending *)
  assert (Hstill : forall t' g1 loc, t' <> t0 -> groups c !! t' = Some g1 ->
            at_ g1 = AtStore loc ->
            exists t2 g2, groups c' !! t2 = Some g2 /\ at_ g2 = AtStore loc).
  { intros t' g1 loc Hne H1 Hst. exists t', g1. split; [| exact Hst].
    rewrite Hgroups, list_lookup_insert_ne; auto. }
  destruct (effect_of v (slots_ c) g) as [| loc0 | loc0 | loc0 | loc0] eqn:E.
  - destruct (step_silent _ _ _ _ _ Hgs E) as (Hslots & Howes & Hnostore & Hfail).
    split; rewrite ?Hslots.
    + intros t g1 loc H1 Hc. rewrite Hgroups in H1.
      destruct (lookup_updated _ _ _ _ _ _ Hg H1) as [[-> ->] | [Hne H1']]; [| eauto].
      destruct Hc as [Hc | Hc]; [eauto | now apply Hnostore in Hc].
    + exact Hblank.
    + intros t g1 loc s H1 Ho Hs Hsec. rewrite Hgroups in H1.
      assert (exists g1', groups c !! t = Some g1' /\ owes_value g1' loc) as (g1' & H1' & Ho').
      { destruct (lookup_updated _ _ _ _ _ _ Hg H1) as [[-> ->] | [Hne H1']]; eauto. }
      destruct (Hpend _ _ _ _ H1' Ho' Hs Hsec) as (t' & g2 & H2 & Hst).
      apply (Hstill t' g2); auto. intros ->.
      rewrite Hg in H2. inversion H2; subst g2.
      rewrite (silent_not_store _ _ _ _ Hst E) in Hgs. discriminate.
  - destruct (step_claim _ _ _ _ _ _ Hgs E) as (Hat & Hat' & s0 & Hs0 & Hek & Hslots).
    pose proof (Hblank _ _ Hs0 Hek) as Hev0.
    split; rewrite ?Hslots.
    + intros t g1 loc H1 Hc. rewrite Hgroups in H1.
      rewrite (load_store_cases _ _ _ _ _ Hs0).
      destruct (lookup_updated _ _ _ _ _ _ Hg H1) as [[-> ->] | [Hne H1']];
        [destruct Hc; congruence |].
      destruct (Hloser _ _ _ H1' Hc) as (s1 & Hs1 & Hf).
      destruct (decide (loc = loc0)) as [-> | Hd]; [| eauto].
      rewrite Hs0 in Hs1. inversion Hs1; subst s1. congruence.
    + intros loc s. rewrite (load_store_cases _ _ _ _ _ Hs0).
      destruct (decide (loc = loc0)) as [-> | Hd]; [| apply Hblank].
      intros Hl. inversion Hl; subst s. simpl. congruence.
    + intros t g1 loc s H1 Ho. rewrite Hgroups in H1.
      rewrite (load_store_cases _ _ _ _ _ Hs0).
      destruct (decide (loc = loc0)) as [-> | Hd].
      * intros Hl. inversion Hl; subst s. simpl. congruence.
      * intros Hs Hsec.
        destruct (lookup_updated _ _ _ _ _ _ Hg H1) as [[-> ->] | [Hne H1']].
        { now rewrite (owes_value_cas _ _ _ Hat' Ho) in Hd. }
        destruct (Hpend _ _ _ _ H1' Ho Hs Hsec) as (t' & g2 & H2 & Hst).
        apply (Hstill t' g2); auto. intros ->. congruence.
  - destruct (step_publish _ _ _ _ _ _ Hgs E) as (Hown & Hat' & s0 & Hs0 & Hev & Hslots).
    destruct (Hokey _ _ _ Hg Hown) as (s1 & Hs1 & Hf).
    rewrite Hs0 in Hs1. inversion Hs1; subst s1. clear Hs1.
    assert (Hnot : forall loc, ~ owes_value g' loc).
    { intros loc. apply not_owes. eauto 10. }
    split; rewrite ?Hslots.
    + intros t g1 loc H1 Hc. rewrite Hgroups in H1.
      rewrite (load_store_cases _ _ _ _ _ Hs0).
      destruct (lookup_updated _ _ _ _ _ _ Hg H1) as [[-> ->] | [Hne H1']];
        [destruct Hc; congruence |].
      destruct (Hloser _ _ _ H1' Hc) as (s1 & Hs1 & Hf1).
      destruct (decide (loc = loc0)) as [-> | Hd]; [| eauto].
      rewrite Hs0 in Hs1. inversion Hs1; subst s1. eauto.
    + intros loc s. rewrite (load_store_cases _ _ _ _ _ Hs0).
      destruct (decide (loc = loc0)) as [-> | Hd]; [| apply Hblank].
      intros Hl. inversion Hl; subst s. simpl. congruence.
    + intros t g1 loc s H1 Ho. rewrite Hgroups in H1.
      rewrite (load_store_cases _ _ _ _ _ Hs0).
      destruct (lookup_updated _ _ _ _ _ _ Hg H1) as [[-> ->] | [Hne H1']];
        [exfalso; eapply Hnot; eauto |].
      destruct (decide (loc = loc0)) as [-> | Hd].
      { exfalso. apply Hne. eapply Hounique; eauto. }
      intros Hs Hsec.
      destruct (Hpend _ _ _ _ H1' Ho Hs Hsec) as (t' & g2 & H2 & Hst).
      apply (Hstill t' g2); auto. intros ->.
      rewrite Hg in H2. inversion H2; subst g2.
      eapply not_owes; [| exact Hown]. eauto 10.
  - destruct (step_speculate _ _ _ _ _ _ Hgs E) as (Hat & Hat' & s0 & Hs0 & Hev & Hslots).
    destruct (Hloser _ _ _ Hg (or_introl Hat)) as (s1 & Hs1 & Hf).
    rewrite Hs0 in Hs1. inversion Hs1; subst s1. clear Hs1.
    assert (Hnot : forall loc, ~ owes_value g' loc).
    { intros loc. apply not_owes. eauto 10. }
    split; rewrite ?Hslots.
    + intros t g1 loc H1 Hc. rewrite Hgroups in H1.
      rewrite (load_store_cases _ _ _ _ _ Hs0).
      destruct (lookup_updated _ _ _ _ _ _ Hg H1) as [[-> ->] | [Hne H1']].
      * destruct Hc as [Hc | Hc]; [congruence |].
        rewrite Hat' in Hc. inversion Hc; subst loc.
        destruct (decide (loc0 = loc0)); [| congruence]. eauto.
      * destruct (Hloser _ _ _ H1' Hc) as (s1 & Hs1 & Hf1).
        destruct (decide (loc = loc0)) as [-> | Hd]; [| eauto].
        rewrite Hs0 in Hs1. inversion Hs1; subst s1. eauto.
    + intros loc s. rewrite (load_store_cases _ _ _ _ _ Hs0).
      destruct (decide (loc = loc0)) as [-> | Hd]; [| apply Hblank].
      intros Hl. inversion Hl; subst s. simpl. congruence.
    + intros t g1 loc s H1 Ho. rewrite Hgroups in H1.
      rewrite (load_store_cases _ _ _ _ _ Hs0).
      destruct (lookup_updated _ _ _ _ _ _ Hg H1) as [[-> ->] | [Hne H1']];
        [exfalso; eapply Hnot; eauto |].
      destruct (decide (loc = loc0)) as [-> | Hd].
      { intros _ _. exists t0, g'. split; [| exact Hat'].
        rewrite Hgroups. apply list_lookup_insert_eq. eapply lookup_lt_Some; eauto. }
      intros Hs Hsec.
      destruct (Hpend _ _ _ _ H1' Ho Hs Hsec) as (t' & g2 & H2 & Hst).
      apply (Hstill t' g2); auto. intros ->. congruence.
  - destruct (step_rollback _ _ _ _ _ _ Hgs E) as (Hat & Hat' & s0 & Hs0 & Hslots).
    assert (Hnot : forall loc, ~ owes_value g' loc).
    { intros loc. apply not_owes. eauto 10. }
    split; rewrite ?Hslots.
    + intros t g1 loc H1 Hc. rewrite Hgroups in H1.
      rewrite (load_store_cases _ _ _ _ _ Hs0).
      destruct (lookup_updated _ _ _ _ _ _ Hg H1) as [[-> ->] | [Hne H1']];
        [destruct Hc; congruence |].
      destruct (Hloser _ _ _ H1' Hc) as (s1 & Hs1 & Hf1).
      destruct (decide (loc = loc0)) as [-> | Hd]; [| eauto].
      rewrite Hs0 in Hs1. inversion Hs1; subst s1. eauto.
    + intros loc s. rewrite (load_store_cases _ _ _ _ _ Hs0).
      destruct (decide (loc = loc0)) as [-> | Hd]; [| apply Hblank].
      intros Hl. inversion Hl; subst s. reflexivity.
    + intros t g1 loc s H1 Ho. rewrite Hgroups in H1.
      rewrite (load_store_cases _ _ _ _ _ Hs0).
      destruct (lookup_updated _ _ _ _ _ _ Hg H1) as [[-> ->] | [Hne H1']];
        [exfalso; eapply Hnot; eauto |].
      destruct (decide (loc = loc0)) as [-> | Hd].
      { intros Hl. inversion Hl; subst s. simpl. congruence. }
      intros Hs Hsec.
      destruct (Hpend _ _ _ _ H1' Ho Hs Hsec) as (t' & g2 & H2 & Hst).
      apply (Hstill t' g2); auto. intros ->. congruence.
Qed.

Lemma safe_unblocked_run v sched c c' :
  safe v c -> unblocked v c -> run v sched c = Some c' -> safe v c' /\ unblocked v c'.
Proof.
  revert c. induction sched as [| t rest IH]; intros c Hs Hu H; simpl in H.
  - now inversion H; subst.
  - destruct (step_at v t c) as [c1 |] eqn:E; [| discriminate].
    eapply IH; [eapply safe_step | eapply unblocked_step |]; eauto.
Qed.

Lemma quiescent_unblocked v c :
  quiescent c -> empty_slots_blank v (slots_ c) -> unblocked v c.
Proof.
  intros Hq Hb. split; [| exact Hb |].
  - intros t g loc H [Hc | Hc]; destruct (Hq _ _ H); congruence.
  - intros t g loc s H Ho. exfalso. eapply not_owes; [| exact Ho].
    destruct (Hq _ _ H); auto.
Qed.

(** The value loop cannot be blocked for good: from any reachable state
    the owner's value write succeeds after at most one step of another
    group, the pending rollback. *)
Lemma value_write_completes v c t g loc :
  safe v c -> unblocked v c ->
  groups c !! t = Some g -> owes_value g loc ->
  exists sched c' g',
    (length sched <= 2)%nat /\ run v sched c = Some c' /\
    groups c' !! t = Some g' /\ at_ g' = AtVote SUCCESS.
Proof.
  intros Hsafe Hunb Hg Ho.
  destruct (safe_owner_key _ _ Hsafe _ _ _ Hg Ho) as (s & Hs & Hf).
  assert (Hgo : forall c1 g1 s1,
            groups c1 !! t = Some g1 -> owes_value g1 loc ->
            Storage.load (slots_ c1) loc = Some s1 ->
            second s1 = empty_value_sentinel_ v ->
            exists c' g', run v [t] c1 = Some c' /\
              groups c' !! t = Some g' /\ at_ g' = AtVote SUCCESS).
  { intros c1 g1 s1 H1 Ho1 Hs1 Hev. simpl. unfold step_at.
    rewrite H1, (owner_step _ _ _ _ _ Ho1 Hs1), Hev, Z.eqb_refl.
    eexists _, (set_at g1 (AtVote SUCCESS)). split; [reflexivity |].
    simpl. split; [| reflexivity].
    apply list_lookup_insert_eq. eapply lookup_lt_Some; eauto. }
  destruct (decide (second s = empty_value_sentinel_ v)) as [Hev | Hne].
  - destruct (Hgo _ _ _ Hg Ho Hs Hev) as (c' & g' & Hr & Hg' & Hst).
    exists [t], c', g'. simpl length. auto with lia.
  - destruct (unb_pending _ _ Hunb _ _ _ _ Hg Ho Hs Hne) as (t' & g2 & H2 & Hst).
    assert (Hne' : t' <> t).
    { intros ->. rewrite Hg in H2. inversion H2; subst g2.
      eapply not_owes; [| exact Ho]. eauto 10. }
    set (c1 := Config (Storage.store (slots_ c) loc (Slot (first s) (empty_value_sentinel_ v)))
                      (<[t' := set_at g2 (AtVote CONTINUE)]> (groups c))).
    assert (Hstep : step_at v t' c = Some c1).
    { unfold step_at. now rewrite H2, (store_step _ _ _ _ _ Hst Hs). }
    destruct (Hgo c1 g (Slot (first s) (empty_value_sentinel_ v))) as (c' & g' & Hr & Hg' & Hst').
    + simpl. now rewrite list_lookup_insert_ne.
    + exact Ho.
    + simpl. eapply load_store_eq; eauto.
    + reflexivity.
    + exists [t'; t], c', g'. split; [simpl; lia |]. split; [| auto].
      simpl. rewrite Hstep. simpl in Hr. exact Hr.
Qed.

Lemma step_at_group v t c c' g g' :
  groups c !! t = Some g -> step_at v t c = Some c' -> groups c' !! t = Some g' ->
  group_step v (slots_ c) g = Some (slots_ c', g').
Proof.
  intros Hg Hstep Hg'.
  destruct (step_at_inv _ _ _ _ Hstep) as (g0 & g1 & Hg0 & Hgs & Hgroups).
  rewrite Hg in Hg0. inversion Hg0; subst g0.
  rewrite Hgroups, list_lookup_insert_eq in Hg' by (eapply lookup_lt_Some; eauto).
  now inversion Hg'; subst g1.
Qed.

(** C9 (amended): after the key compare-and-swap the group goes to the
    value compare-and-swap whatever the outcome, and that compare-and-swap
    writes the value whenever the field holds the sentinel.  A group whose
    key claim failed and whose value write succeeded stores the sentinel
    back, and right after that store the value field is the sentinel.  A
    group whose two compare-and-swaps both failed writes nothing: the slot
    is as it was, its value field a value other than the sentinel. *)
Theorem failed_claim_rolls_back (v : view) :
  (forall c t g loc s,
     groups c !! t = Some g -> Storage.load (slots_ c) loc = Some s ->
     at_ g = AtKeyCas loc ->
     step_at v t c =
       Some (Config
               (if first s =? empty_key_sentinel_ v
                then Storage.store (slots_ c) loc
                       (Slot (fst (insert_pair g)) (second s))
                else slots_ c)
               (<[t := set_at g (AtValueCas loc (first s =? empty_key_sentinel_ v))]>
                  (groups c)))) /\
  (forall c t g loc s,
     groups c !! t = Some g -> Storage.load (slots_ c) loc = Some s ->
     at_ g = AtValueCas loc false ->
     second s = empty_value_sentinel_ v ->
     step_at v t c =
       Some (Config
               (Storage.store (slots_ c) loc (Slot (first s) (snd (insert_pair g))))
               (<[t := set_at g (AtStore loc)]> (groups c)))) /\
  (forall c t g loc s,
     groups c !! t = Some g -> Storage.load (slots_ c) loc = Some s ->
     at_ g = AtValueCas loc false ->
     second s <> empty_value_sentinel_ v ->
     step_at v t c =
       Some (Config (slots_ c) (<[t := set_at g (AtVote CONTINUE)]> (groups c))) /\
     exists x, Storage.load (slots_ c) loc = Some (Slot (first s) x) /\
               x <> empty_value_sentinel_ v) /\
  (forall c t g loc s,
     groups c !! t = Some g -> Storage.load (slots_ c) loc = Some s ->
     at_ g = AtStore loc ->
     step_at v t c =
       Some (Config
               (Storage.store (slots_ c) loc (Slot (first s) (empty_value_sentinel_ v)))
               (<[t := set_at g (AtVote CONTINUE)]> (groups c))) /\
     Storage.load
       (Storage.store (slots_ c) loc (Slot (first s) (empty_value_sentinel_ v))) loc =
       Some (Slot (first s) (empty_value_sentinel_ v))).
Proof.
  split; [| split; [| split]].
  - intros c t g loc s Hg Hs Hat. unfold step_at.
    rewrite Hg, (key_cas_step _ _ _ _ _ Hat Hs).
    now destruct (first s =? empty_key_sentinel_ v).
  - intros c t g loc s Hg Hs Hat Hev. unfold step_at.
    now rewrite Hg, (loser_step _ _ _ _ _ Hat Hs), Hev, Z.eqb_refl.
  - intros c t g loc s Hg Hs Hat Hev. split.
    + unfold step_at. rewrite Hg, (loser_step _ _ _ _ _ Hat Hs).
      now destruct (Z.eqb_spec (second s) (empty_value_sentinel_ v)).
    + exists (second s). now rewrite slot_eta.
  - intros c t g loc s Hg Hs Hat. split.
    + unfold step_at. now rewrite Hg, (store_step _ _ _ _ _ Hat Hs).
    + eapply load_store_eq; eauto.
Qed.

End ProtocolFacts.

(** ** The protocol on the 8-slot example *)

Module ExampleFacts.

Import Insert ExampleInsert.

Lemma empty_slots_are_blank v : empty_slots_blank v (Storage.empty_slots v).
Proof.
  intros loc s H _. unfold Storage.load, Storage.empty_slots in H.
  destruct (loc <? 0); [discriminate |].
  apply lookup_replicate in H as [-> _]. reflexivity.
Qed.

Lemma c0_quiescent : quiescent c0.
Proof.
  intros t g H. destruct t as [| [| t]]; simpl in H; inversion H; subst; now left.
Qed.

Lemma c0_valid : valid_pairs v8 c0.
Proof.
  intros t g H.
  destruct t as [| [| t]]; simpl in H; inversion H; subst; split; discriminate.
Qed.

Lemma claiming_lane_witness :
  exists (r : nat) (s : Z) (a b : slot),
    current_slot (start (13, 40)) !! r = Some s /\
    Storage.load busy_slots s = Some a /\ Storage.load busy_slots (s + 1) = Some b /\
    (first a = empty_key_sentinel_ v8 \/ first b = empty_key_sentinel_ v8) /\
    (forall (r' : nat) (s' : Z), (r' < r)%nat ->
       current_slot (start (13, 40)) !! r' = Some s' ->
       exists a' b',
         Storage.load busy_slots s' = Some a' /\
         Storage.load busy_slots (s' + 1) = Some b' /\
         first a' <> empty_key_sentinel_ v8 /\ first b' <> empty_key_sentinel_ v8) /\
    (forall rank : Z,
       lane_attempts [(false, false); (false, true)] rank = true <-> rank = Z.of_nat r) /\
    group_step v8 busy_slots (start (13, 40)) =
      Some (busy_slots,
            set_at (start (13, 40))
              (AtKeyCas (if first a =? empty_key_sentinel_ v8 then s else s + 1))) /\
    (first a <> empty_key_sentinel_ v8 -> first b = empty_key_sentinel_ v8).
Proof.
  apply (InsertFacts.claiming_lane v8 busy_slots (start (13, 40))
           [(false, false); (false, true)]).
  - reflexivity.
  - simpl. lia.
  - reflexivity.
  - vm_compute. discriminate.
Defined.

Lemma published_slot_is_final_witness :
  Storage.load (slots_ (after [0; 1; 0; 1; 1; 0; 1; 0]%nat c0)) 4 =
    Some (Slot (fst (insert_pair (group_of 0 (after [0; 1; 0; 1; 1; 0; 1]%nat c0))))
               (snd (insert_pair (group_of 0 (after [0; 1; 0; 1; 1; 0; 1]%nat c0))))) /\
  Storage.load (slots_ (after [0; 1; 0; 1; 1; 0; 1; 0; 0; 1; 1; 1; 1; 1]%nat c0)) 4 =
    Some (Slot (fst (insert_pair (group_of 0 (after [0; 1; 0; 1; 1; 0; 1]%nat c0))))
               (snd (insert_pair (group_of 0 (after [0; 1; 0; 1; 1; 0; 1]%nat c0))))) /\
  (forall u d d' j s s',
     step_at v8 u d = Some d' ->
     Storage.load (slots_ d) j = Some s ->
     Storage.load (slots_ d') j = Some s' ->
     first s' <> first s -> first s = empty_key_sentinel_ v8).
Proof.
  apply (ProtocolFacts.published_slot_is_final v8 c0
           (after [0; 1; 0; 1; 1; 0; 1]%nat c0)
           (after [0; 1; 0; 1; 1; 0; 1; 0]%nat c0)
           (after [0; 1; 0; 1; 1; 0; 1; 0; 0; 1; 1; 1; 1; 1]%nat c0)
           [0; 1; 0; 1; 1; 0; 1]%nat [0; 1; 1; 1; 1; 1]%nat 0%nat).
  - exact c0_quiescent.
  - exact c0_valid.
  - vm_compute. reflexivity.
  - vm_compute. reflexivity.
  - vm_compute. reflexivity.
  - vm_compute. reflexivity.
  - vm_compute. reflexivity.
Defined.

Lemma failed_claim_rolls_back_witness :
  (step_at v8 1 (after [0; 1; 0]%nat c0) =
     Some (Config (slots_ (after [0; 1; 0]%nat c0))
                  (<[1%nat := set_at (group_of 1 (after [0; 1; 0]%nat c0))
                                (AtValueCas 4 false)]>
                     (groups (after [0; 1; 0]%nat c0)))) /\
   Storage.load (slots_ (after [0; 1; 0]%nat c0)) 4 = Some (Slot 1 minus_one)) /\
  step_at v8 1 (after [0; 1; 0; 1]%nat c0) =
    Some (Config (Storage.store (slots_ (after [0; 1; 0; 1]%nat c0)) 4 (Slot 1 20))
                 (<[1%nat := set_at (group_of 1 (after [0; 1; 0; 1]%nat c0)) (AtStore 4)]>
                    (groups (after [0; 1; 0; 1]%nat c0)))) /\
  (step_at v8 1 (after [0; 1; 0; 1; 0]%nat c0) =
     Some (Config (slots_ (after [0; 1; 0; 1; 0]%nat c0))
                  (<[1%nat := set_at (group_of 1 (after [0; 1; 0; 1; 0]%nat c0))
                                (AtVote CONTINUE)]>
                     (groups (after [0; 1; 0; 1; 0]%nat c0)))) /\
   exists x, Storage.load (slots_ (after [0; 1; 0; 1; 0]%nat c0)) 4 = Some (Slot 1 x) /\
             x <> empty_value_sentinel_ v8) /\
  (step_at v8 1 (after [0; 1; 0; 1; 1]%nat c0) =
     Some (Config
             (Storage.store (slots_ (after [0; 1; 0; 1; 1]%nat c0)) 4
                (Slot 1 (empty_value_sentinel_ v8)))
             (<[1%nat := set_at (group_of 1 (after [0; 1; 0; 1; 1]%nat c0))
                           (AtVote CONTINUE)]>
                (groups (after [0; 1; 0; 1; 1]%nat c0)))) /\
   Storage.load
     (Storage.store (slots_ (after [0; 1; 0; 1; 1]%nat c0)) 4
        (Slot 1 (empty_value_sentinel_ v8))) 4 =
     Some (Slot 1 (empty_value_sentinel_ v8))).
Proof.
  destruct (ProtocolFacts.failed_claim_rolls_back v8) as (Hkey & Hspec & Hboth & Hstore).
  split; [| split; [| split]].
  - split; [| reflexivity].
    exact (Hkey (after [0; 1; 0]%nat c0) 1%nat _ 4 (Slot 1 minus_one)
             eq_refl eq_refl eq_refl).
  - exact (Hspec (after [0; 1; 0; 1]%nat c0) 1%nat _ 4 (Slot 1 minus_one)
             eq_refl eq_refl eq_refl eq_refl).
  - apply (Hboth (after [0; 1; 0; 1; 0]%nat c0) 1%nat _ 4 (Slot 1 10)
             eq_refl eq_refl eq_refl).
    vm_compute. discriminate.
  - exact (Hstore (after [0; 1; 0; 1; 1]%nat c0) 1%nat _ 4 (Slot 1 20)
             eq_refl eq_refl eq_refl).
Defined.

(** C9, as worded, fails: group 1 loses the key of slot 4 to group 0 and
    finds the value already written; its attempt ends with the status
    CONTINUE and the value field of slot 4 is 10, not the sentinel. *)
Lemma failed_claim_counterexample :
  exists cA cB gA gB,
    run v8 [0; 1; 0; 1; 0]%nat c0 = Some cA /\
    groups cA !! 1%nat = Some gA /\ at_ gA = AtValueCas 4 false /\
    step_at v8 1 cA = Some cB /\
    groups cB !! 1%nat = Some gB /\ at_ gB = AtVote CONTINUE /\
    Storage.load (slots_ cB) 4 = Some (Slot 1 10) /\
    (10 =? empty_value_sentinel_ v8) = false.
Proof.
  do 4 eexists. repeat split; vm_compute; reflexivity.
Qed.

End ExampleFacts.

(** ** Identity hash functions *)

Module IdentityHashFacts.

Import IdentityHash.

Lemma key_bytes_length size key : length (key_bytes size key) = size.
Proof.
  revert key. induction size as [| n IH]; intros key; simpl; [reflexivity |].
  now rewrite IH.
Qed.

Lemma key_bytes_take w m key : take w (key_bytes (w + m) key) = key_bytes w key.
Proof.
  revert key. induction w as [| w IH]; intros key; simpl; [reflexivity |].
  now rewrite IH.
Qed.

(** Reading the bytes of a key back gives the key, reduced to the width
    of the object. *)
Lemma bytes_value_key_bytes size key :
  bytes_value (key_bytes size key) = key mod 256 ^ Z.of_nat size.
Proof.
  revert key. induction size as [| n IH]; intros key.
  - simpl. now rewrite Z.mod_1_r.
  - cbn [key_bytes bytes_value]. rewrite IH.
    replace (256 ^ Z.of_nat (S n)) with (256 * 256 ^ Z.of_nat n)
      by (rewrite Nat2Z.inj_succ, Z.pow_succ_r; lia).
    rewrite Z.rem_mul_r; [reflexivity | lia |].
    apply Z.pow_pos_nonneg; lia.
Qed.

Lemma first_byte size key : key_bytes (S size) key = key mod 256 :: key_bytes size (key / 256).
Proof. reflexivity. Qed.

Lemma land_low_byte key n :
  0 <= n < 8 -> Z.land (key mod 256) (2 ^ n) = Z.land key (2 ^ n).
Proof.
  intros Hn. apply Z.bits_inj'. intros i Hi.
  rewrite !Z.land_spec, Z.pow2_bits_eqb by lia.
  destruct (Z.eqb_spec n i) as [<- | Hne].
  - change 256 with (2 ^ 8). rewrite Z.mod_pow2_bits_low by lia. reflexivity.
  - now rewrite !andb_false_r.
Qed.

Lemma load_chunk_memcpy_first w bytes :
  (w <= length bytes)%nat ->
  load_chunk_memcpy w bytes 0 = Some (bytes_value (take w bytes)).
Proof.
  intros H. unfold load_chunk_memcpy. simpl. rewrite drop_0.
  rewrite length_take, Nat.min_l by lia. now rewrite Nat.eqb_refl.
Qed.

Section WithLoadChunk.

Variable load_chunk : nat -> list Z -> Z -> option Z.

(** What the hash functions need of [load_chunk]: chunk 0 is the first
    [w] bytes of the object. *)
Hypothesis load_chunk_first :
  forall w bytes, (w <= length bytes)%nat ->
    load_chunk w bytes 0 = Some (bytes_value (take w bytes)).

Lemma hash_32_of_4_bytes seed key :
  0 <= key < 2 ^ 32 ->
  IdentityHash_32 load_chunk seed 4 key = Some (Z.lxor key seed).
Proof using load_chunk_first.
  intros Hk. unfold IdentityHash_32, compute_hash_32.
  change (4 <=? Z.of_nat 4) with true. cbv iota.
  change (Z.of_nat 4 - 4) with 0.
  rewrite load_chunk_first by (rewrite key_bytes_length; lia).
  rewrite (key_bytes_take 4 0), bytes_value_key_bytes.
  change (256 ^ Z.of_nat 4) with (2 ^ 32). now rewrite Z.mod_small.
Qed.

Lemma hash_64_of_wide seed (size : nat) key :
  (8 <= size)%nat ->
  IdentityHash_64 load_chunk seed size key = Some (Z.lxor (key mod 2 ^ 64) seed).
Proof using load_chunk_first.
  intros Hs. unfold IdentityHash_64, compute_hash_64.
  destruct (Z.leb_spec 8 (Z.of_nat size)); [| lia].
  rewrite load_chunk_first by (rewrite key_bytes_length; lia).
  replace size with (8 + (size - 8))%nat at 1 by lia.
  rewrite key_bytes_take, bytes_value_key_bytes. reflexivity.
Qed.

Lemma hash_32_of_narrow seed (size : nat) key :
  (1 <= size < 4)%nat ->
  IdentityHash_32 load_chunk seed size key =
    Some (Z.lxor (Z.land key (2 ^ Z.of_nat size)) seed).
Proof using Type.
  intros Hs. unfold IdentityHash_32, compute_hash_32.
  destruct (Z.leb_spec 4 (Z.of_nat size)); [lia |].
  destruct size as [| [| [| [| n]]]]; try lia;
    rewrite first_byte; cbv zeta;
    (rewrite <- (land_low_byte key) by (simpl; lia)); reflexivity.
Qed.

Lemma hash_64_of_narrow seed (size : nat) key :
  (1 <= size < 8)%nat ->
  IdentityHash_64 load_chunk seed size key =
    Some (Z.lxor (Z.land key (2 ^ (Z.of_nat size - 1))) seed).
Proof using Type.
  intros Hs. unfold IdentityHash_64, compute_hash_64.
  destruct (Z.leb_spec 8 (Z.of_nat size)); [lia |].
  destruct size as [| [| [| [| [| [| [| [| n]]]]]]]]; try lia;
    rewrite first_byte; cbv zeta;
    (rewrite <- (land_low_byte key) by (simpl; lia)); reflexivity.
Qed.

End WithLoadChunk.

End IdentityHashFacts.

(** ** Linear probing *)

Module LinearFacts.

Import Iter.

Lemma probe_range cap p j : 0 < cap -> 0 <= probe cap p j < cap.
Proof. intros H. unfold probe. apply Z.mod_pos_bound. lia. Qed.

Lemma probe_0 cap p : 0 <= p < cap -> probe cap p 0 = p.
Proof. intros H. unfold probe. rewrite Z.add_0_r. now apply Z.mod_small. Qed.

Lemma probe_probe cap p i j :
  0 < cap -> probe cap (probe cap p i) j = probe cap p (i + j).
Proof.
  intros H. unfold probe. rewrite Zplus_mod_idemp_l. f_equal. lia.
Qed.

Lemma next_slot_probe cap p j :
  0 < cap -> Probe.next_slot cap (probe cap p j) = probe cap p (j + 1).
Proof.
  intros H. unfold Probe.next_slot.
  pose proof (probe_range cap p j H) as Hr.
  replace (probe cap p (j + 1)) with ((probe cap p j + 1) mod cap).
  2: { unfold probe. rewrite Zplus_mod_idemp_l. f_equal. lia. }
  destruct (Z.ltb_spec (probe cap p j + 1) cap).
  - symmetry. apply Z.mod_small. lia.
  - replace (probe cap p j + 1) with cap by lia.
    symmetry. apply Z_mod_same_full.
Qed.

Lemma iter_next_slot v k cur p :
  Iter.next_slot (make cur k v) p = Probe.next_slot (capacity_ v) p.
Proof. reflexivity. Qed.

Lemma load_in_range (slots : list slot) cap i :
  Z.of_nat (length slots) = cap ->
  0 <= i < cap -> exists s, Storage.load slots i = Some s.
Proof.
  intros Hlen H. unfold Storage.load. destruct (Z.ltb_spec i 0); [lia |].
  apply lookup_lt_is_Some_2. lia.
Qed.

Lemma load_range (slots : list slot) cap i s :
  Z.of_nat (length slots) = cap ->
  Storage.load slots i = Some s -> 0 <= i < cap.
Proof.
  intros Hlen H. apply StorageFacts.load_Some_range in H. lia.
Qed.

(** Slot [i] is [(i - p) mod capacity] probe steps after [p]. *)
Lemma probe_reaches cap p i :
  0 <= i < cap -> probe cap p ((i - p) mod cap) = i.
Proof.
  intros H. unfold probe. rewrite Zplus_mod_idemp_r.
  replace (p + (i - p)) with i by lia. now apply Z.mod_small.
Qed.

End LinearFacts.

(** ** The find_all iterator *)

Module IterFacts.

Import Iter LinearFacts.

(** The first index from 1 at which a test succeeds, if any up to [J]. *)
Lemma first_index (P : nat -> bool) (J : nat) :
  (exists j : nat, (1 <= j <= J)%nat /\ P j = true /\
     forall i : nat, (1 <= i < j)%nat -> P i = false) \/
  (forall i : nat, (1 <= i <= J)%nat -> P i = false).
Proof.
  induction J as [| J IH].
  - right. intros i Hi. lia.
  - destruct IH as [(j & Hj & Hs & Hlow) | Hnone].
    + left. exists j. split; [lia | auto].
    + destruct (P (S J)) eqn:E.
      * left. exists (S J). split; [lia |]. split; [exact E |].
        intros i Hi. apply Hnone. lia.
      * right. intros i Hi. destruct (decide (i = S J)) as [-> | Hne]; [exact E |].
        apply Hnone. lia.
Qed.

Lemma holds_iff slots x i : holds slots x i = true <-> key_at slots i = Some x.
Proof.
  unfold holds. destruct (key_at slots i) as [y |]; [| split; discriminate].
  rewrite Z.eqb_eq. split; [now intros -> | now inversion 1].
Qed.

(** From any slot the probe sequence meets the first empty slot of a table
    that has one within [capacity] steps. *)
Lemma first_empty (v : view) (slots : list slot) cur :
  Z.of_nat (length slots) = capacity_ v ->
  0 <= cur < capacity_ v ->
  (exists i s, Storage.load slots i = Some s /\ first s = empty_key_sentinel_ v) ->
  exists J : nat,
    (1 <= J <= length slots)%nat /\
    key_at slots (probe (capacity_ v) cur (Z.of_nat J)) = Some (empty_key_sentinel_ v) /\
    forall i : nat, (1 <= i < J)%nat ->
      key_at slots (probe (capacity_ v) cur (Z.of_nat i)) <> Some (empty_key_sentinel_ v).
Proof.
  intros Hlen Hcur (i0 & s0 & Hs0 & Hek).
  pose proof (load_range _ _ _ _ Hlen Hs0) as Hi0.
  set (d := (i0 - cur) mod capacity_ v).
  assert (Hd : 0 <= d < capacity_ v) by (apply Z.mod_pos_bound; lia).
  set (J0 := Z.to_nat (if d =? 0 then capacity_ v else d)).
  assert (HJ0 : (1 <= J0 <= length slots)%nat).
  { unfold J0. destruct (Z.eqb_spec d 0); lia. }
  assert (Hreach : probe (capacity_ v) cur (Z.of_nat J0) = i0).
  { unfold J0. destruct (Z.eqb_spec d 0) as [Hz | Hnz]; rewrite Z2Nat.id by lia.
    - unfold probe. rewrite <- Zplus_mod_idemp_r, Z_mod_same_full, Z.add_0_r.
      rewrite <- (probe_reaches (capacity_ v) cur i0 Hi0). fold d. rewrite Hz.
      unfold probe. now rewrite Z.add_0_r.
    - now apply probe_reaches. }
  destruct (first_index
              (fun i => holds slots (empty_key_sentinel_ v)
                          (probe (capacity_ v) cur (Z.of_nat i))) J0)
    as [(j & Hj & Hs & Hlow) | Hnone].
  - exists j. split; [lia |]. split; [now apply holds_iff |].
    intros i Hi He. apply holds_iff in He. rewrite Hlow in He by lia. discriminate.
  - exfalso. specialize (Hnone J0 ltac:(lia)). rewrite Hreach in Hnone.
    assert (holds slots (empty_key_sentinel_ v) i0 = true); [| congruence].
    apply holds_iff. unfold key_at. rewrite Hs0. simpl. now rewrite Hek.
Qed.

Section Table.

Variable v : view.
Variable slots : list slot.
Variable k : Z.
Hypothesis slots_length : Z.of_nat (length slots) = capacity_ v.
Hypothesis key_valid : k <> empty_key_sentinel_ v.

Local Abbreviation cap := (capacity_ v).
Local Abbreviation ek := (empty_key_sentinel_ v).

Lemma stops_cases i :
  stops slots ek k i = true ->
  key_at slots i = Some k \/ key_at slots i = Some ek.
Proof using All.
  unfold stops. destruct (key_at slots i) as [x |]; [| discriminate].
  intros H. apply orb_true_iff in H as [H | H]; apply Z.eqb_eq in H; subst; auto.
Qed.

Lemma stops_false i x :
  stops slots ek k i = false -> key_at slots i = Some x -> x <> k /\ x <> ek.
Proof using All.
  unfold stops. intros H Hx. rewrite Hx in H. apply orb_false_iff in H as [H1 H2].
  apply Z.eqb_neq in H1, H2. auto.
Qed.

(** The scan started [j0] steps after [cur] ends at the first slot that
    holds the key or is empty. *)
Lemma scan_stops cur (n : nat) :
  0 < cap ->
  forall (j0 : Z) (fuel : nat),
    0 <= j0 ->
    (forall i, j0 <= i < j0 + Z.of_nat n -> stops slots ek k (probe cap cur i) = false) ->
    stops slots ek k (probe cap cur (j0 + Z.of_nat n)) = true ->
    (n < fuel)%nat ->
    scan fuel slots (make cur k v) (probe cap cur j0) =
      Finished (if holds slots k (probe cap cur (j0 + Z.of_nat n))
                then probe cap cur (j0 + Z.of_nat n) else cap).
Proof using All.
  intros Hcap. induction n as [| n IH]; intros j0 fuel Hj0 Hlow Hstop Hfuel.
  - destruct fuel as [| fuel]; [lia |].
    replace (j0 + Z.of_nat 0) with j0 in * by lia.
    unfold holds. simpl.
    destruct (stops_cases _ Hstop) as [Hk | Hek]; rewrite ?Hk, ?Hek;
      unfold key_at in *;
      destruct (Storage.load slots (probe cap cur j0)) as [s |]; try discriminate;
      simpl in *.
    + inversion Hk as [Hf]. rewrite Hf, Z.eqb_refl. reflexivity.
    + inversion Hek as [Hf]. rewrite Hf.
      destruct (Z.eqb_spec ek k); [congruence |]. simpl. now rewrite Z.eqb_refl.
  - destruct fuel as [| fuel]; [lia |].
    destruct (load_in_range slots cap (probe cap cur j0) slots_length) as [s Hs].
    { now apply probe_range. }
    assert (Hns : stops slots ek k (probe cap cur j0) = false) by (apply Hlow; lia).
    destruct (stops_false _ (first s) Hns) as [Hnk Hne].
    { unfold key_at. now rewrite Hs. }
    simpl. rewrite Hs.
    destruct (Z.eqb_spec (first s) k); [contradiction |].
    destruct (Z.eqb_spec (first s) ek); [contradiction |].
    simpl. rewrite iter_next_slot, next_slot_probe by assumption.
    replace (j0 + Z.of_nat (S n)) with (j0 + 1 + Z.of_nat n) in * by lia.
    apply IH; [lia | | assumption | lia].
    intros i Hi. apply Hlow. lia.
Qed.

Lemma increment_stops cur (j fuel : nat) :
  0 <= cur < cap ->
  (1 <= j)%nat ->
  (forall i : nat, (1 <= i < j)%nat ->
     stops slots ek k (probe cap cur (Z.of_nat i)) = false) ->
  stops slots ek k (probe cap cur (Z.of_nat j)) = true ->
  (j <= fuel)%nat ->
  increment fuel slots (make cur k v) =
    Finished (make (if holds slots k (probe cap cur (Z.of_nat j))
                    then probe cap cur (Z.of_nat j) else cap) k v).
Proof using All.
  intros Hcur Hj Hlow Hstop Hfuel. unfold increment.
  change (current_ (make cur k v)) with cur.
  rewrite iter_next_slot.
  replace (Probe.next_slot cap cur) with (probe cap cur 1).
  2: { change 1 with (0 + 1). rewrite <- next_slot_probe by lia. now rewrite probe_0. }
  rewrite (scan_stops cur (j - 1)); try lia.
  - replace (1 + Z.of_nat (j - 1)) with (Z.of_nat j) by lia. reflexivity.
  - intros i Hi. replace i with (Z.of_nat (Z.to_nat i)) by lia. apply Hlow. lia.
  - replace (1 + Z.of_nat (j - 1)) with (Z.of_nat j) by lia. exact Hstop.
Qed.

Lemma first_stop cur (J : nat) :
  (exists j : nat, (1 <= j <= J)%nat /\
     stops slots ek k (probe cap cur (Z.of_nat j)) = true /\
     forall i : nat, (1 <= i < j)%nat ->
       stops slots ek k (probe cap cur (Z.of_nat i)) = false) \/
  (forall i : nat, (1 <= i <= J)%nat ->
     stops slots ek k (probe cap cur (Z.of_nat i)) = false).
Proof using All.
  apply (first_index (fun i => stops slots ek k (probe cap cur (Z.of_nat i)))).
Qed.

Lemma holds_stops i : holds slots k i = true -> stops slots ek k i = true.
Proof using All.
  unfold holds, stops. destruct (key_at slots i); [| discriminate].
  intros ->. reflexivity.
Qed.

Lemma holds_key i : holds slots k i = true <-> key_at slots i = Some k.
Proof using All.
  unfold holds. destruct (key_at slots i) as [x |]; [| split; discriminate].
  rewrite Z.eqb_eq. split; [now intros -> | now inversion 1].
Qed.

Lemma empty_stops i : key_at slots i = Some ek -> stops slots ek k i = true.
Proof using All.
  unfold stops. intros ->. rewrite Z.eqb_refl. apply orb_true_r.
Qed.

Lemma empty_not_held i : key_at slots i = Some ek -> holds slots k i = false.
Proof using All.
  unfold holds. intros ->. apply Z.eqb_neq. congruence.
Qed.

Lemma path_shift cur (j a x : nat) :
  0 < cap ->
  map (fun i => probe cap cur (Z.of_nat i)) (seq (j + a) x) =
  map (fun i => probe cap (probe cap cur (Z.of_nat j)) (Z.of_nat i)) (seq a x).
Proof using All.
  intros Hcap. revert a. induction x as [| x IH]; intros a; simpl; [reflexivity |].
  rewrite probe_probe by assumption.
  replace (Z.of_nat j + Z.of_nat a) with (Z.of_nat (j + a)) by lia.
  f_equal. replace (S (j + a)) with (j + S a)%nat by lia. apply IH.
Qed.

Lemma path_split cur (j m : nat) :
  0 < cap -> (1 <= j <= m)%nat ->
  path cap cur m =
    path cap cur (j - 1) ++
    probe cap cur (Z.of_nat j) :: path cap (probe cap cur (Z.of_nat j)) (m - j).
Proof using All.
  intros Hcap Hj. unfold path.
  replace m with ((j - 1) + S (m - j))%nat at 1 by lia.
  rewrite seq_app, map_app. f_equal.
  replace (1 + (j - 1))%nat with j by lia.
  cbn [seq map]. f_equal.
  replace (S j) with (j + 1)%nat by lia. now apply path_shift.
Qed.

Lemma filter_path_none cur (m : nat) :
  (forall i : nat, (1 <= i <= m)%nat ->
     holds slots k (probe cap cur (Z.of_nat i)) = false) ->
  List.filter (holds slots k) (path cap cur m) = [].
Proof using All.
  intros H. unfold path.
  assert (G : forall l, (forall i, In i l -> (1 <= i <= m)%nat) ->
            List.filter (holds slots k)
              (map (fun i => probe cap cur (Z.of_nat i)) l) = []).
  { induction l as [| i l IH]; intros Hl; simpl; [reflexivity |].
    rewrite H by (apply Hl; now left). apply IH. intros i' Hi'. apply Hl. now right. }
  apply G. intros i Hi. apply in_seq in Hi. lia.
Qed.

(** Draining the iterator gives the slots that hold the key among those
    between the current slot and the first empty slot after it, in probe
    order. *)
Lemma drain_collects (n : nat) :
  forall (J : nat) cur,
    (J <= n)%nat -> 0 <= cur < cap -> (1 <= J)%nat ->
    key_at slots (probe cap cur (Z.of_nat J)) = Some ek ->
    (forall i : nat, (1 <= i < J)%nat ->
       key_at slots (probe cap cur (Z.of_nat i)) <> Some ek) ->
    forall rounds fuel : nat, (J <= rounds)%nat -> (J <= fuel)%nat ->
      drain rounds fuel slots (make cur k v) =
        Finished (List.filter (holds slots k) (path cap cur (J - 1))).
Proof using All.
  induction n as [| n IH]; intros J cur HJn Hcur HJ Hend Hbefore rounds fuel Hr Hf;
    [lia |].
  assert (Hcap : 0 < cap) by lia.
  destruct (first_stop cur J) as [(j & Hj & Hs & Hlow) | Hnone].
  2: { pose proof (empty_stops _ Hend) as Hs. rewrite Hnone in Hs; [discriminate | lia]. }
  destruct rounds as [| rounds]; [lia |]. cbn [drain].
  rewrite (increment_stops cur j fuel Hcur) by (auto; lia).
  destruct (holds slots k (probe cap cur (Z.of_nat j))) eqn:Hh.
  - (* the scan stopped at a slot that holds the key *)
    assert (HjJ : (j < J)%nat).
    { destruct (decide (j = J)) as [-> | Hne]; [| lia].
      rewrite (empty_not_held _ Hend) in Hh. discriminate. }
    pose proof (probe_range cap cur (Z.of_nat j) Hcap) as Hpr.
    unfold at_end. cbn [current_ end_ make].
    destruct (Z.eqb_spec (probe cap cur (Z.of_nat j)) cap) as [Heq | _]; [lia |].
    rewrite (IH (J - j)%nat (probe cap cur (Z.of_nat j))); try lia.
    + f_equal. rewrite (path_split cur j (J - 1)) by (auto; lia).
      rewrite filter_app, (filter_path_none cur (j - 1)).
      * cbn [app List.filter]. rewrite Hh.
        replace (J - 1 - j)%nat with (J - j - 1)%nat by lia. reflexivity.
      * intros i Hi. specialize (Hlow i ltac:(lia)).
        destruct (holds slots k (probe cap cur (Z.of_nat i))) eqn:E; [| reflexivity].
        apply holds_stops in E. congruence.
    + rewrite probe_probe by assumption.
      now replace (Z.of_nat j + Z.of_nat (J - j)) with (Z.of_nat J) by lia.
    + intros i Hi. rewrite probe_probe by assumption.
      replace (Z.of_nat j + Z.of_nat i) with (Z.of_nat (j + i)) by lia.
      apply Hbefore. lia.
  - (* the scan stopped at the empty slot *)
    assert (j = J) as ->.
    { destruct (decide (j = J)) as [| Hne]; [assumption |].
      destruct (stops_cases _ Hs) as [Hk | Hek].
      - apply holds_key in Hk. congruence.
      - exfalso. apply (Hbefore j); [lia | exact Hek]. }
    unfold at_end. cbn [current_ end_ make]. rewrite Z.eqb_refl.
    rewrite filter_path_none; [reflexivity |].
    intros i Hi. specialize (Hlow i ltac:(lia)).
    destruct (holds slots k (probe cap cur (Z.of_nat i))) eqn:E; [| reflexivity].
    apply holds_stops in E. congruence.
Qed.

(** C6: [operator++] walks on from the current slot along the linear
    probe sequence of the view and stops at the first slot that holds the
    key or is empty; on the key the iterator points to that slot, on the
    empty key it is [end()].  Repeated until [end()], it yields exactly the
    slots holding the key between the current slot and the first empty slot
    after it, in probe order; with one empty slot in the table this takes
    no more than [capacity] increments of [capacity] loop rounds each. *)
Theorem find_all_advance (cur : Z) :
  0 <= cur < cap ->
  (forall p, Iter.next_slot (make cur k v) p = Probe.next_slot cap p) /\
  (forall j fuel : nat, (1 <= j <= fuel)%nat ->
     (forall i : nat, (1 <= i < j)%nat ->
        stops slots ek k (probe cap cur (Z.of_nat i)) = false) ->
     (key_at slots (probe cap cur (Z.of_nat j)) = Some k ->
        increment fuel slots (make cur k v) =
          Finished (make (probe cap cur (Z.of_nat j)) k v) /\
        at_end (make (probe cap cur (Z.of_nat j)) k v) = false) /\
     (key_at slots (probe cap cur (Z.of_nat j)) = Some ek ->
        increment fuel slots (make cur k v) = Finished (make cap k v) /\
        at_end (make cap k v) = true)) /\
  ((exists i s, Storage.load slots i = Some s /\ first s = ek) ->
   exists J : nat,
     (1 <= J <= length slots)%nat /\
     key_at slots (probe cap cur (Z.of_nat J)) = Some ek /\
     (forall i : nat, (1 <= i < J)%nat ->
        key_at slots (probe cap cur (Z.of_nat i)) <> Some ek) /\
     drain (length slots) (length slots) slots (make cur k v) =
       Finished (List.filter (holds slots k) (path cap cur (J - 1)))).
Proof using All.
  intros Hcur. split; [reflexivity |]. split.
  - intros j fuel Hj Hlow.
    pose proof (probe_range cap cur (Z.of_nat j) ltac:(lia)) as Hpr.
    split; intros Hkey.
    + rewrite (increment_stops cur j fuel Hcur); try lia; auto.
      * rewrite (proj2 (holds_key _) Hkey). split; [reflexivity |].
        unfold at_end. cbn [current_ end_ make]. apply Z.eqb_neq. lia.
      * unfold stops. rewrite Hkey, Z.eqb_refl. reflexivity.
    + rewrite (increment_stops cur j fuel Hcur); try lia; auto.
      * rewrite (empty_not_held _ Hkey). split; [reflexivity |].
        unfold at_end. cbn [current_ end_ make]. apply Z.eqb_refl.
      * now apply empty_stops.
  - intros Hempty.
    destruct (first_empty v slots cur slots_length Hcur Hempty) as (J & HJ & Hend & Hbefore).
    exists J. split; [exact HJ |]. split; [exact Hend |]. split; [exact Hbefore |].
    apply (drain_collects J J cur); auto; lia.
Qed.

End Table.

End IterFacts.

(** ** The iterator on the scenario of the specification *)

Module ExampleFindFacts.

Import Iter BulkFind ExampleInsert ExampleFind.

Lemma scenario_length : Z.of_nat (length scenario_slots) = capacity_ v8.
Proof. reflexivity. Qed.

Lemma scenario_has_empty :
  exists i s, Storage.load scenario_slots i = Some s /\ first s = empty_key_sentinel_ v8.
Proof. exists 0, blank. split; reflexivity. Qed.

Lemma minus_one_not_1 : 1 <> empty_key_sentinel_ v8.
Proof. discriminate. Qed.

Lemma find_all_advance_witness :
  (forall p, Iter.next_slot (make 1 1 v8) p = Probe.next_slot (capacity_ v8) p) /\
  (forall j fuel : nat, (1 <= j <= fuel)%nat ->
     (forall i : nat, (1 <= i < j)%nat ->
        stops scenario_slots (empty_key_sentinel_ v8) 1
          (probe (capacity_ v8) 1 (Z.of_nat i)) = false) ->
     (key_at scenario_slots (probe (capacity_ v8) 1 (Z.of_nat j)) = Some 1 ->
        increment fuel scenario_slots (make 1 1 v8) =
          Finished (make (probe (capacity_ v8) 1 (Z.of_nat j)) 1 v8) /\
        at_end (make (probe (capacity_ v8) 1 (Z.of_nat j)) 1 v8) = false) /\
     (key_at scenario_slots (probe (capacity_ v8) 1 (Z.of_nat j)) =
        Some (empty_key_sentinel_ v8) ->
        increment fuel scenario_slots (make 1 1 v8) =
          Finished (make (capacity_ v8) 1 v8) /\
        at_end (make (capacity_ v8) 1 v8) = true)) /\
  ((exists i s, Storage.load scenario_slots i = Some s /\
                first s = empty_key_sentinel_ v8) ->
   exists J : nat,
     (1 <= J <= length scenario_slots)%nat /\
     key_at scenario_slots (probe (capacity_ v8) 1 (Z.of_nat J)) =
       Some (empty_key_sentinel_ v8) /\
     (forall i : nat, (1 <= i < J)%nat ->
        key_at scenario_slots (probe (capacity_ v8) 1 (Z.of_nat i)) <>
          Some (empty_key_sentinel_ v8)) /\
     drain (length scenario_slots) (length scenario_slots) scenario_slots (make 1 1 v8) =
       Finished (List.filter (holds scenario_slots 1) (path (capacity_ v8) 1 (J - 1)))).
Proof.
  apply (IterFacts.find_all_advance v8 scenario_slots 1 scenario_length minus_one_not_1 1).
  vm_compute. split; [discriminate | reflexivity].
Defined.

End ExampleFindFacts.

(** * Further properties of the probe sequence engine *)

Module ProbeMoreFacts.

Import Iter LinearFacts.

Lemma iter_next_slot_probe cap p (n : nat) :
  0 <= p < cap ->
  Nat.iter n (Probe.next_slot cap) p = probe cap p (Z.of_nat n).
Proof.
  intros Hp. induction n as [| n IH].
  - simpl. now rewrite probe_0.
  - rewrite Nat.iter_succ, IH, next_slot_probe by lia. f_equal. lia.
Qed.

(** X1: single-lane probing.  For a table with at least one slot,
    [initial_slot] is a slot of the table, [n] calls of [next_slot] lead
    from it to the slot [n] places further on, wrapping at the capacity, so
    every slot is reached within [capacity - 1] calls and [capacity] calls
    lead back to the start. *)
Theorem linear_probe_visits_all (hash : Z -> Z) (cap k : Z) :
  0 < cap ->
  exists p0,
    Probe.initial_slot hash cap k = Some p0 /\
    0 <= p0 < cap /\
    (forall n : nat,
       Nat.iter n (Probe.next_slot cap) p0 = (p0 + Z.of_nat n) mod cap) /\
    (forall i, 0 <= i < cap ->
       exists n : nat, (n < Z.to_nat cap)%nat /\
         Nat.iter n (Probe.next_slot cap) p0 = i) /\
    Nat.iter (Z.to_nat cap) (Probe.next_slot cap) p0 = p0.
Proof.
  intros Hcap. unfold Probe.initial_slot.
  destruct (Z.eqb_spec cap 0) as [| _]; [lia |].
  pose proof (Z.mod_pos_bound (u64 (hash k)) cap Hcap) as Hr.
  eexists. split; [reflexivity |]. split; [exact Hr |].
  set (p0 := u64 (hash k) mod cap) in *.
  split; [| split].
  - intros n. now apply iter_next_slot_probe.
  - intros i Hi. exists (Z.to_nat ((i - p0) mod cap)).
    pose proof (Z.mod_pos_bound (i - p0) cap Hcap).
    split; [lia |].
    rewrite iter_next_slot_probe, Z2Nat.id by lia. now apply probe_reaches.
  - rewrite iter_next_slot_probe, Z2Nat.id by lia. unfold probe.
    rewrite <- Zplus_mod_idemp_r, Z_mod_same_full, Z.add_0_r. now apply Z.mod_small.
Qed.

Lemma linear_probe_visits_all_witness :
  exists p0,
    Probe.initial_slot Example.hash32 8 13 = Some p0 /\
    0 <= p0 < 8 /\
    (forall n : nat,
       Nat.iter n (Probe.next_slot 8) p0 = (p0 + Z.of_nat n) mod 8) /\
    (forall i, 0 <= i < 8 ->
       exists n : nat, (n < Z.to_nat 8)%nat /\
         Nat.iter n (Probe.next_slot 8) p0 = i) /\
    Nat.iter (Z.to_nat 8) (Probe.next_slot 8) p0 = p0.
Proof. apply (linear_probe_visits_all Example.hash32 8 13). lia. Defined.

(** Taking a remainder window by window. *)
Lemma mod_windows a b m W :
  0 < m -> 0 < W -> 0 <= b < m ->
  (a * m + b) mod (W * m) = (a mod W) * m + b.
Proof.
  intros Hm HW Hb.
  pose proof (Z.mod_pos_bound a W HW) as Hr.
  rewrite (Z_div_mod_eq_full a W) at 1.
  replace ((W * (a / W) + a mod W) * m + b)
    with ((a mod W) * m + b + (a / W) * (W * m)) by ring.
  rewrite Z_mod_plus_full. apply Z.mod_small. nia.
Qed.

Section WithHash.

Variable hash : Z -> Z.
Variable kbits : Z.
Hypothesis hash_range : forall x, 0 <= hash x < 2 ^ 64.

Variables capacity G : Z.
Hypothesis G_pos : 1 <= G.
Hypothesis G_small : 2 * G < 2 ^ 32.
Hypothesis capacity_small : 0 <= capacity <= 2 ^ 32.
Hypothesis two_windows : 2 <= capacity / (2 * G).
Hypothesis whole_windows : capacity mod (2 * G) = 0.

Local Abbreviation W := (capacity / (2 * G)).
Local Abbreviation first_window k := (hash k mod (capacity / (2 * G))).
Local Abbreviation window_step k :=
  (hash (Probe.key_plus_one kbits k) mod (capacity / (2 * G) - 1) + 1).

Lemma capacity_windows : capacity = W * (2 * G).
Proof using All.
  rewrite (Z_div_mod_eq_full capacity (2 * G)) at 1. rewrite whole_windows. lia.
Qed.

Lemma cg_probe_closed_form r k (n : nat) : forall w,
  0 <= r < G -> 0 <= w < W ->
  Probe.cg_probe capacity (window_step k * (2 * G)) (w * (2 * G) + 2 * r) n =
    Some ((w + Z.of_nat n * window_step k) mod W * (2 * G) + 2 * r).
Proof using All.
  pose proof capacity_windows as Hcw.
  pose proof (Z.mod_pos_bound (hash (Probe.key_plus_one kbits k)) (W - 1) ltac:(lia)) as Hs.
  induction n as [| n IH]; intros w Hr Hw.
  - simpl. rewrite Z.add_0_r, Z.mod_small by lia. reflexivity.
  - cbn [Probe.cg_probe]. unfold Probe.cg_next_slot.
    destruct (Z.eqb_spec capacity 0); [nia |].
    rewrite (u32_small (w * (2 * G) + 2 * r)) by nia.
    rewrite u64_small by nia.
    replace (w * (2 * G) + 2 * r + window_step k * (2 * G))
      with ((w + window_step k) * (2 * G) + 2 * r) by ring.
    pose proof (mod_windows (w + window_step k) (2 * r) (2 * G) W
                  ltac:(lia) ltac:(lia) ltac:(lia)) as Hmod.
    rewrite <- Hcw in Hmod. rewrite Hmod.
    rewrite IH by (auto; apply Z.mod_pos_bound; lia).
    f_equal. f_equal. f_equal.
    rewrite Zplus_mod_idemp_l. f_equal. lia.
Qed.

(** X2: the group probe sequence in closed form.  With the capacity a
    whole number of [2G]-slot windows (at most [2^32] slots), lane [r] is,
    after [n] group steps, at offset [2r] of window
    [(hash(k) mod W + n * s) mod W], where [W] is the number of windows and
    [s = hash(k+1) mod (W - 1) + 1]: the lanes of a group always sit side by
    side in one window. *)
Theorem cg_lane_closed_form r k (n : nat) :
  0 <= r < G ->
  Probe.lane_slot hash kbits capacity G r k n =
    Some ((first_window k + Z.of_nat n * window_step k) mod W * (2 * G) + 2 * r).
Proof using All.
  intros Hr. unfold Probe.lane_slot.
  rewrite (ProbeFacts.cg_initial_slot_value hash kbits hash_range capacity G)
    by (auto; lia).
  unfold Probe.code_step_size, Probe.spec_initial_index.
  apply cg_probe_closed_form; [assumption |].
  apply Z.mod_pos_bound. lia.
Qed.

(** X3: the windows a group can reach.  When a number [d] divides both the
    number of windows and the window step of a key, every window the group
    visits has the residue of its first window modulo [d]; windows of the
    other residues are never examined for this key. *)
Theorem cg_windows_residue r k (n : nat) d :
  0 <= r < G ->
  0 < d -> (d | W) -> (d | window_step k) ->
  exists w,
    Probe.lane_slot hash kbits capacity G r k n = Some (w * (2 * G) + 2 * r) /\
    0 <= w < W /\
    w mod d = first_window k mod d.
Proof using All.
  intros Hr Hd HdW Hds.
  exists ((first_window k + Z.of_nat n * window_step k) mod W).
  split.
  { unfold Probe.lane_slot.
    rewrite (ProbeFacts.cg_initial_slot_value hash kbits hash_range capacity G)
      by (auto; lia).
    unfold Probe.code_step_size, Probe.spec_initial_index.
    apply cg_probe_closed_form; [assumption |].
    apply Z.mod_pos_bound. lia. }
  split; [apply Z.mod_pos_bound; lia |].
  rewrite Z.mod_mod_divide by assumption.
  destruct Hds as [q Hq]. rewrite Hq.
  replace (first_window k + Z.of_nat n * (q * d))
    with (first_window k + (Z.of_nat n * q) * d) by ring.
  apply Z_mod_plus_full.
Qed.

End WithHash.

Lemma cg_lane_closed_form_witness :
  Probe.lane_slot Example.hash32 32 16 2 1 5 3 =
    Some ((Example.hash32 5 mod (16 / (2 * 2))
           + Z.of_nat 3 * (Example.hash32 (Probe.key_plus_one 32 5) mod (16 / (2 * 2) - 1) + 1))
          mod (16 / (2 * 2)) * (2 * 2) + 2 * 1).
Proof.
  apply (cg_lane_closed_form Example.hash32 32 ProbeFacts.hash32_range 16 2);
    first [ lia | reflexivity | (vm_compute; intuition discriminate) ].
Defined.

Lemma cg_windows_residue_witness :
  exists w,
    Probe.lane_slot Example.hash32 32 16 2 1 3 5 = Some (w * (2 * 2) + 2 * 1) /\
    0 <= w < 16 / (2 * 2) /\
    w mod 2 = Example.hash32 3 mod (16 / (2 * 2)) mod 2.
Proof.
  apply (cg_windows_residue Example.hash32 32 ProbeFacts.hash32_range 16 2);
    first [ lia | reflexivity | (vm_compute; intuition discriminate)
          | (exists 2; reflexivity) | (exists 1; reflexivity) ].
Defined.

End ProbeMoreFacts.

Module ProbeEdgeFacts.

(** X4: where the group [initial_slot] is defined.  It divides by
    [capacity / 2G] and by [capacity / 2G - 1]; one of the two is zero
    exactly when the table has fewer than two windows, that is fewer than
    [4G] slots. *)
Theorem cg_initial_slot_undefined_iff (hash : Z -> Z) (kbits capacity G r k : Z) :
  (forall x, 0 <= hash x < 2 ^ 64) ->
  1 <= G -> 2 * G < 2 ^ 32 -> 0 <= capacity < 2 ^ 64 -> 0 <= r < G ->
  (Probe.cg_initial_slot hash kbits capacity G r k = None <-> capacity < 4 * G).
Proof.
  intros Hh HG HGs Hc Hr.
  destruct (Z.lt_ge_cases capacity (4 * G)) as [Hlt | Hge].
  - split; [auto | intros _].
    assert (HW : 0 <= capacity / (2 * G) < 2).
    { split; [apply Z.div_pos; lia |]. apply Z.div_lt_upper_bound; lia. }
    unfold Probe.cg_initial_slot, Probe.step_modulus.
    rewrite (u32_small (G * 2)) by lia. replace (G * 2) with (2 * G) by lia.
    destruct (Z.eqb_spec (2 * G) 0); [reflexivity |].
    assert (capacity / (2 * G) = 0 \/ capacity / (2 * G) = 1) as [-> | ->] by lia;
      reflexivity.
  - assert (HW : 2 <= capacity / (2 * G)).
    { apply Z.div_le_lower_bound; lia. }
    rewrite (ProbeFacts.cg_initial_slot_value hash kbits Hh capacity G) by (auto; lia).
    split; [discriminate | lia].
Qed.

Lemma cg_initial_slot_undefined_iff_witness :
  Probe.cg_initial_slot Example.hash32 32 7 2 1 5 = None <-> 7 < 4 * 2.
Proof.
  apply (cg_initial_slot_undefined_iff Example.hash32 32 7 2 1 5
           ProbeFacts.hash32_range); lia.
Defined.

End ProbeEdgeFacts.

(** * Further properties of the find_all iterator *)

Module IterMoreFacts.

Import Iter LinearFacts IterFacts.

Lemma next_slot_range cap p : 0 < cap -> 0 <= p < cap -> 0 <= Probe.next_slot cap p < cap.
Proof. intros Hc Hp. unfold Probe.next_slot. destruct (Z.ltb_spec (p + 1) cap); lia. Qed.

Section Table.

Variable v : view.
Variable slots : list slot.
Variable k : Z.
Hypothesis slots_length : Z.of_nat (length slots) = capacity_ v.

Local Abbreviation cap := (capacity_ v).
Local Abbreviation ek := (empty_key_sentinel_ v).

Lemma scan_spins cur (fuel : nat) : forall p,
  (forall i, 0 <= i < cap -> stops slots ek k i = false) ->
  0 <= p < cap ->
  scan fuel slots (make cur k v) p = OutOfFuel.
Proof using All.
  induction fuel as [| fuel IH]; intros p Hnone Hp; [reflexivity |].
  destruct (load_in_range slots cap p slots_length Hp) as [s Hs].
  pose proof (Hnone p Hp) as Hst. unfold stops, key_at in Hst. rewrite Hs in Hst.
  simpl in Hst. apply orb_false_iff in Hst as [H1 H2].
  cbn [scan]. rewrite Hs. cbn [key_ it_empty_key_sentinel_ make].
  rewrite H1, H2. cbn [negb]. apply IH; [assumption |].
  rewrite iter_next_slot. apply next_slot_range; lia.
Qed.

(** X5: [operator++] has no exit other than a slot that holds the key or
    the empty key.  On a table without either it runs for as many rounds as
    it is given and never returns. *)
Theorem increment_spins cur :
  0 <= cur < cap ->
  (forall i, 0 <= i < cap -> stops slots ek k i = false) ->
  forall fuel : nat, increment fuel slots (make cur k v) = OutOfFuel.
Proof using All.
  intros Hcur Hnone fuel. unfold increment. cbn [current_ make].
  rewrite scan_spins; [reflexivity | assumption |].
  rewrite iter_next_slot. apply next_slot_range; lia.
Qed.

Lemma scan_full cur (fuel : nat) : forall p,
  (forall i, 0 <= i < cap -> key_at slots i <> Some ek) ->
  0 <= p < cap ->
  scan fuel slots (make cur k v) p = OutOfFuel \/
  exists q, scan fuel slots (make cur k v) p = Finished q /\
            0 <= q < cap /\ key_at slots q = Some k.
Proof using All.
  induction fuel as [| fuel IH]; intros p Hfull Hp; [now left |].
  destruct (load_in_range slots cap p slots_length Hp) as [s Hs].
  cbn [scan]. rewrite Hs. cbn [key_ it_empty_key_sentinel_ make].
  destruct (Z.eqb_spec (first s) k) as [Hk | Hnk]; cbn [negb].
  - right. exists p. split; [reflexivity |]. split; [assumption |].
    unfold key_at. rewrite Hs. simpl. now rewrite Hk.
  - destruct (Z.eqb_spec (first s) ek) as [He | Hne].
    + exfalso. apply (Hfull p Hp). unfold key_at. rewrite Hs. simpl. now rewrite He.
    + apply IH; [assumption |]. rewrite iter_next_slot. apply next_slot_range; lia.
Qed.

Lemma increment_full cur (fuel : nat) :
  (forall i, 0 <= i < cap -> key_at slots i <> Some ek) ->
  0 <= cur < cap ->
  increment fuel slots (make cur k v) = OutOfFuel \/
  exists q, increment fuel slots (make cur k v) = Finished (make q k v) /\
            0 <= q < cap /\ key_at slots q = Some k.
Proof using All.
  intros Hfull Hcur. unfold increment. cbn [current_ make].
  destruct (scan_full cur fuel (Iter.next_slot (make cur k v) cur) Hfull)
    as [-> | (q & -> & Hq & Hk)].
  - rewrite iter_next_slot. apply next_slot_range; lia.
  - now left.
  - right. exists q. auto.
Qed.

(** X6: a table without an empty slot.  [operator++] then never yields
    [end()]: it comes back with a slot that holds the key or does not come
    back at all, and a loop that increments until [end()] never finishes,
    however many increments and rounds it is given. *)
Theorem full_table_never_ends cur :
  0 <= cur < cap ->
  (forall i, 0 <= i < cap -> key_at slots i <> Some ek) ->
  (forall fuel : nat,
     increment fuel slots (make cur k v) = OutOfFuel \/
     exists q, increment fuel slots (make cur k v) = Finished (make q k v) /\
               0 <= q < cap /\ key_at slots q = Some k /\
               at_end (make q k v) = false) /\
  (forall rounds fuel : nat, drain rounds fuel slots (make cur k v) = OutOfFuel).
Proof using All.
  intros Hcur Hfull. split.
  - intros fuel. destruct (increment_full cur fuel Hfull Hcur) as [H | (q & H & Hq & Hk)];
      [now left |].
    right. exists q. repeat split; try assumption; try lia.
    unfold at_end. cbn [current_ end_ make]. apply Z.eqb_neq. lia.
  - intros rounds fuel. revert cur Hcur.
    induction rounds as [| rounds IH]; intros cur Hcur; [reflexivity |].
    cbn [drain].
    destruct (increment_full cur fuel Hfull Hcur) as [-> | (q & -> & Hq & Hk)];
      [reflexivity |].
    unfold at_end. cbn [current_ end_ make].
    destruct (Z.eqb_spec q cap); [lia |].
    now rewrite (IH q Hq).
Qed.

Lemma scan_any_current c1 c2 (fuel : nat) : forall p,
  scan fuel slots (make c1 k v) p = scan fuel slots (make c2 k v) p.
Proof using All.
  induction fuel as [| fuel IH]; intros p; [reflexivity |].
  cbn [scan]. destruct (Storage.load slots p) as [s |]; [| reflexivity].
  cbn [key_ it_empty_key_sentinel_ end_ make].
  destruct (negb (first s =? k)); [| reflexivity].
  destruct (first s =? ek); [reflexivity |]. apply IH.
Qed.

(** X7: [end()] is not a resting place.  Incrementing an iterator that
    equals [end()] continues at the first slot of the table, exactly as
    incrementing an iterator at the last slot does; if slot 0 holds the key,
    the result points to slot 0. *)
Theorem increment_past_end (fuel : nat) :
  0 < cap ->
  increment fuel slots (make cap k v) = increment fuel slots (make (cap - 1) k v) /\
  (key_at slots 0 = Some k -> (1 <= fuel)%nat ->
     increment fuel slots (make cap k v) = Finished (make 0 k v) /\
     at_end (make 0 k v) = false).
Proof using All.
  intros Hcap.
  assert (Hnext : Iter.next_slot (make cap k v) cap = 0).
  { unfold Iter.next_slot. cbn [end_ begin_ make].
    destruct (Z.ltb_spec (cap + 1) cap); [lia | reflexivity]. }
  assert (Hnext' : Iter.next_slot (make (cap - 1) k v) (cap - 1) = 0).
  { unfold Iter.next_slot. cbn [end_ begin_ make].
    destruct (Z.ltb_spec (cap - 1 + 1) cap); [lia | reflexivity]. }
  split.
  - unfold increment. cbn [current_ make] in *. rewrite Hnext, Hnext'.
    rewrite (scan_any_current cap (cap - 1)).
    destruct (scan fuel slots (make (cap - 1) k v) 0); reflexivity.
  - intros Hk Hfuel. unfold increment. cbn [current_ make] in *. rewrite Hnext.
    destruct fuel as [| fuel]; [lia |]. cbn [scan].
    unfold key_at in Hk.
    destruct (Storage.load slots 0) as [s |]; [| discriminate].
    simpl in Hk. inversion Hk as [Hf]. cbn [key_ make]. rewrite Hf, Z.eqb_refl.
    cbn [negb]. split; [reflexivity |].
    unfold at_end. cbn [current_ end_ make]. apply Z.eqb_neq. lia.
Qed.

End Table.

End IterMoreFacts.

Module IterMoreExamples.

Import Iter ExampleInsert ExampleMore.

Lemma full8_length : Z.of_nat (length full8) = capacity_ v8.
Proof. reflexivity. Qed.

Lemma full8_no_stop_for_9 :
  forall i, 0 <= i < capacity_ v8 -> stops full8 (empty_key_sentinel_ v8) 9 i = false.
Proof.
  intros i Hi. simpl in Hi.
  assert (i = 0 \/ i = 1 \/ i = 2 \/ i = 3 \/ i = 4 \/ i = 5 \/ i = 6 \/ i = 7)
    as Hcases by lia.
  clear Hi. repeat (destruct Hcases as [-> | Hcases]); [.. | subst i]; reflexivity.
Qed.

Lemma full8_no_empty :
  forall i, 0 <= i < capacity_ v8 -> key_at full8 i <> Some (empty_key_sentinel_ v8).
Proof.
  intros i Hi. simpl in Hi.
  assert (i = 0 \/ i = 1 \/ i = 2 \/ i = 3 \/ i = 4 \/ i = 5 \/ i = 6 \/ i = 7)
    as Hcases by lia.
  clear Hi. repeat (destruct Hcases as [-> | Hcases]); [.. | subst i]; discriminate.
Qed.

Lemma increment_spins_witness :
  0 <= 3 < capacity_ v8 /\
  forall fuel : nat, increment fuel full8 (make 3 9 v8) = OutOfFuel.
Proof.
  split; [simpl; lia |].
  apply (IterMoreFacts.increment_spins v8 full8 9 full8_length 3).
  - simpl. lia.
  - exact full8_no_stop_for_9.
Defined.

Lemma full_table_never_ends_witness :
  (forall fuel : nat,
     increment fuel full8 (make 3 3 v8) = OutOfFuel \/
     exists q, increment fuel full8 (make 3 3 v8) = Finished (make q 3 v8) /\
               0 <= q < capacity_ v8 /\ key_at full8 q = Some 3 /\
               at_end (make q 3 v8) = false) /\
  (forall rounds fuel : nat, drain rounds fuel full8 (make 3 3 v8) = OutOfFuel).
Proof.
  apply (IterMoreFacts.full_table_never_ends v8 full8 3 full8_length 3).
  - simpl. lia.
  - exact full8_no_empty.
Defined.

Lemma increment_past_end_witness :
  increment 4 full8 (make (capacity_ v8) 8 v8) =
    increment 4 full8 (make (capacity_ v8 - 1) 8 v8) /\
  key_at full8 0 = Some 8 /\
  increment 4 full8 (make (capacity_ v8) 8 v8) = Finished (make 0 8 v8) /\
  at_end (make 0 8 v8) = false.
Proof.
  destruct (IterMoreFacts.increment_past_end v8 full8 8 full8_length 4) as [H1 H2];
    [simpl; lia |].
  split; [exact H1 |]. split; [reflexivity |].
  apply H2; [reflexivity | lia].
Defined.

End IterMoreExamples.

(** * Further properties of the group-cooperative insert *)

Module InsertRunFacts.

Import Insert InsertRun StorageFacts StepFacts ProtocolFacts.

Lemma step_fields v slots g slots' g' :
  group_step v slots g = Some (slots', g') ->
  step_size_ g' = step_size_ g /\
  length (current_slot g') = length (current_slot g) /\
  length slots' = length slots.
Proof.
  unfold group_step. intros H.
  destruct (at_ g) as [| loc | loc ks | loc e | loc | st |].
  - destruct (window_load v slots (current_slot g)) as [obs |]; [| discriminate].
    destruct (window_contains_empty obs =? 0).
    + destruct (advance_lanes v (step_size_ g) (current_slot g)) as [cur' |] eqn:E;
        [| discriminate].
      inversion H; subst; simpl.
      now rewrite (InsertFacts.advance_lanes_length _ _ _ _ E).
    + destruct (claim_target (current_slot g) obs); now inversion H.
  - destruct (Storage.load slots loc) as [s |]; [| discriminate].
    destruct (Storage.compare_exchange_strong _ _ _) as [[ok e] k'].
    inversion H; subst; simpl. unfold Storage.store. now rewrite length_insert.
  - destruct (Storage.load slots loc) as [s |]; [| discriminate].
    destruct (Storage.compare_exchange_strong _ _ _) as [[ok e] v'].
    destruct ks, ok; inversion H; subst; simpl;
      unfold Storage.store; now rewrite length_insert.
  - destruct (Storage.load slots loc) as [s |]; [| discriminate].
    destruct (Storage.compare_exchange_strong _ _ _) as [[ok e'] v'].
    destruct ok; inversion H; subst; simpl;
      unfold Storage.store; now rewrite length_insert.
  - destruct (Storage.load slots loc) as [s |]; [| discriminate].
    inversion H; subst; simpl. unfold Storage.store. now rewrite length_insert.
  - destruct st; now inversion H.
  - discriminate.
Qed.

Lemma step_to_returned v slots g slots' g' :
  group_step v slots g = Some (slots', g') ->
  at_ g' = Returned -> at_ g = AtVote SUCCESS.
Proof.
  unfold group_step. intros H Hr.
  destruct (at_ g) as [| loc | loc ks | loc e | loc | st |] eqn:Hat.
  - destruct (window_load v slots (current_slot g)) as [obs |]; [| discriminate].
    destruct (window_contains_empty obs =? 0).
    + destruct (advance_lanes v (step_size_ g) (current_slot g)); [| discriminate].
      inversion H; subst; simpl in Hr. congruence.
    + destruct (claim_target (current_slot g) obs); inversion H; subst; discriminate.
  - destruct (Storage.load slots loc) as [s |]; [| discriminate].
    destruct (Storage.compare_exchange_strong _ _ _) as [[ok e] k'].
    inversion H; subst; discriminate.
  - destruct (Storage.load slots loc) as [s |]; [| discriminate].
    destruct (Storage.compare_exchange_strong _ _ _) as [[ok e] v'].
    destruct ks, ok; inversion H; subst; discriminate.
  - destruct (Storage.load slots loc) as [s |]; [| discriminate].
    destruct (Storage.compare_exchange_strong _ _ _) as [[ok e'] v'].
    destruct ok; inversion H; subst; discriminate.
  - destruct (Storage.load slots loc) as [s |]; [| discriminate].
    inversion H; subst; discriminate.
  - destruct st; inversion H; subst; try discriminate. reflexivity.
  - discriminate.
Qed.

(** What a step of group [t0] leaves of every group. *)
Lemma step_keeps_groups v t0 c c' u g :
  step_at v t0 c = Some c' ->
  groups c !! u = Some g ->
  exists g', groups c' !! u = Some g' /\
    insert_pair g' = insert_pair g /\ step_size_ g' = step_size_ g /\
    length (current_slot g') = length (current_slot g) /\
    (u <> t0 -> g' = g).
Proof.
  intros Hstep Hu.
  destruct (step_at_inv _ _ _ _ Hstep) as (g0 & g1 & Hg0 & Hgs & Hgroups).
  rewrite Hgroups. destruct (decide (u = t0)) as [-> | Hne].
  - rewrite Hg0 in Hu. inversion Hu; subst g0.
    exists g1. rewrite list_lookup_insert_eq by (eapply lookup_lt_Some; eauto).
    destruct (step_fields _ _ _ _ _ Hgs) as (Hs & Hl & _).
    pose proof (step_pair _ _ _ _ _ Hgs). repeat split; auto. congruence.
  - exists g. rewrite list_lookup_insert_ne by congruence. repeat split; auto.
Qed.

Lemma step_group_back v t0 c c' u g' :
  step_at v t0 c = Some c' ->
  groups c' !! u = Some g' ->
  exists g, groups c !! u = Some g /\ insert_pair g = insert_pair g' /\
            (u <> t0 -> g = g').
Proof.
  intros Hstep Hu.
  destruct (step_at_inv _ _ _ _ Hstep) as (g0 & g1 & Hg0 & Hgs & Hgroups).
  rewrite Hgroups in Hu.
  destruct (lookup_updated _ _ _ _ _ _ Hg0 Hu) as [[-> ->] | [Hne Hu']].
  - exists g0. split; [assumption |]. split; [| congruence].
    symmetry. eapply step_pair; eauto.
  - eauto.
Qed.

Lemma step_keeps_length v t0 c c' :
  step_at v t0 c = Some c' ->
  length (slots_ c') = length (slots_ c) /\ length (groups c') = length (groups c).
Proof.
  intros Hstep.
  destruct (step_at_inv _ _ _ _ Hstep) as (g0 & g1 & Hg0 & Hgs & Hgroups).
  destruct (step_fields _ _ _ _ _ Hgs) as (_ & _ & Hl).
  rewrite Hgroups, length_insert. auto.
Qed.

Lemma groups_of_run v sched : forall c c',
  run v sched c = Some c' ->
  forall t, (t < length (groups c'))%nat -> exists g, groups c !! t = Some g.
Proof.
  induction sched as [| t0 rest IH]; intros c c' H t Ht; simpl in H.
  - inversion H; subst. now apply lookup_lt_is_Some_2.
  - destruct (step_at v t0 c) as [c1 |] eqn:E; [| discriminate].
    destruct (IH _ _ H t Ht) as [g1 Hg1].
    destruct (step_group_back _ _ _ _ _ _ E Hg1) as (g & Hg & _). eauto.
Qed.

Lemma load_same_length (slots slots' : list slot) loc s :
  length slots' = length slots ->
  Storage.load slots loc = Some s ->
  exists s', Storage.load slots' loc = Some s'.
Proof.
  intros Hlen Hs. destruct (load_Some_range _ _ _ Hs) as [Hi Hlt].
  unfold Storage.load. destruct (Z.ltb_spec loc 0); [lia |].
  apply lookup_lt_is_Some_2. lia.
Qed.

(** X9: a key is never erased or replaced.  A slot whose key is not the
    empty-key sentinel holds the same key after any interleaving of any
    inserts, whatever pairs they insert. *)
Theorem keys_never_erased (v : view) (sched : list nat) (c c' : config)
    (loc : Z) (s : slot) :
  run v sched c = Some c' ->
  Storage.load (slots_ c) loc = Some s ->
  first s <> empty_key_sentinel_ v ->
  exists s', Storage.load (slots_ c') loc = Some s' /\ first s' = first s.
Proof.
  revert c s. induction sched as [| t rest IH]; intros c s H Hs Hk; simpl in H.
  - inversion H; subst. eauto.
  - destruct (step_at v t c) as [c1 |] eqn:E; [| discriminate].
    destruct (step_keeps_length _ _ _ _ E) as [Hl _].
    destruct (load_same_length _ _ _ _ Hl Hs) as [s1 Hs1].
    assert (Hf : first s1 = first s).
    { destruct (Z.eq_dec (first s1) (first s)) as [| Hne]; [assumption |].
      exfalso. apply Hk. eapply key_written_from_sentinel; eauto. }
    destruct (IH c1 s1 H Hs1 ltac:(congruence)) as (s' & Hs' & Hf').
    exists s'. split; [assumption | congruence].
Qed.

Lemma publications_step v t rest c c1 :
  step_at v t c = Some c1 ->
  forall x, In x (publications v rest c1) -> In x (publications v (t :: rest) c).
Proof.
  intros E x Hx. cbn [publications]. rewrite E.
  destruct (groups c !! t) as [g |]; [| assumption].
  destruct (effect_of v (slots_ c) g); try assumption. now right.
Qed.

Lemma publications_cases v t rest c c1 g x :
  step_at v t c = Some c1 ->
  groups c !! t = Some g ->
  In x (publications v (t :: rest) c) ->
  (exists loc, effect_of v (slots_ c) g = Publish loc /\ x = (t, loc)) \/
  In x (publications v rest c1).
Proof.
  intros E Hg. cbn [publications]. rewrite E, Hg.
  destruct (effect_of v (slots_ c) g) as [| l | l | l | l]; auto.
  intros [<- | Hx]; eauto.
Qed.

(** A settled slot is not published again. *)
Lemma publications_avoid_settled v sched : forall c loc k x,
  settled v c loc k x ->
  forall t l, In (t, l) (publications v sched c) -> l <> loc.
Proof.
  induction sched as [| t0 rest IH]; intros c loc k x Hset t l Hin; [contradiction |].
  cbn [publications] in Hin.
  destruct (step_at v t0 c) as [c1 |] eqn:E; [| contradiction].
  destruct (step_at_inv _ _ _ _ E) as (g & g' & Hg & Hgs & _).
  pose proof (settled_step _ _ _ _ _ _ _ Hset E) as Hset1.
  rewrite Hg in Hin.
  destruct (effect_of v (slots_ c) g) as [| l0 | l0 | l0 | l0] eqn:Eff;
    try (eapply IH; eauto; fail).
  destruct Hin as [Heq | Hin]; [| eapply IH; eauto].
  inversion Heq; subst t0 l0.
  destruct (step_publish _ _ _ _ _ _ Hgs Eff) as (_ & _ & s & Hs & Hev & _).
  destruct Hset as (Hl & _ & Hx & _). intros ->.
  rewrite Hl in Hs. inversion Hs; subst s. simpl in Hev. congruence.
Qed.

(** A group that has its SUCCESS publishes nothing more. *)
Lemma publications_done v sched : forall c t g,
  groups c !! t = Some g ->
  at_ g = AtVote SUCCESS \/ at_ g = Returned ->
  forall l, ~ In (t, l) (publications v sched c).
Proof.
  induction sched as [| t0 rest IH]; intros c t g Hg Hat l Hin; [contradiction |].
  cbn [publications] in Hin.
  destruct (step_at v t0 c) as [c1 |] eqn:E; [| contradiction].
  destruct (step_at_inv _ _ _ _ E) as (g0 & g1 & Hg0 & Hgs & Hgroups).
  destruct (decide (t0 = t)) as [-> | Hne].
  - rewrite Hg in Hg0. inversion Hg0; subst g0. rewrite Hg in Hin.
    assert (Hsilent : effect_of v (slots_ c) g = Silent).
    { unfold effect_of. destruct Hat as [-> | ->]; reflexivity. }
    rewrite Hsilent in Hin.
    assert (Hat1 : at_ g1 = Returned).
    { unfold group_step in Hgs. destruct Hat as [Hat | Hat]; rewrite Hat in Hgs;
        [now inversion Hgs | discriminate]. }
    eapply (IH c1 t g1); eauto.
    rewrite Hgroups. apply list_lookup_insert_eq. eapply lookup_lt_Some; eauto.
  - assert (Hg1 : groups c1 !! t = Some g).
    { rewrite Hgroups, list_lookup_insert_ne; auto. }
    rewrite Hg0 in Hin.
    destruct (effect_of v (slots_ c) g0); try (eapply IH; eauto; fail).
    destruct Hin as [Heq | Hin]; [inversion Heq; congruence | eapply IH; eauto].
Qed.

Lemma publications_final v sched : forall c cf,
  safe v c -> run v sched c = Some cf ->
  forall t loc, In (t, loc) (publications v sched c) ->
    exists g, groups c !! t = Some g /\
      Storage.load (slots_ cf) loc =
        Some (Slot (fst (insert_pair g)) (snd (insert_pair g))).
Proof.
  induction sched as [| t0 rest IH]; intros c cf Hsafe Hrun t loc Hin; [contradiction |].
  simpl in Hrun.
  destruct (step_at v t0 c) as [c1 |] eqn:E; [| discriminate].
  destruct (step_at_inv _ _ _ _ E) as (g0 & g1 & Hg0 & Hgs & _).
  destruct (publications_cases _ _ _ _ _ _ _ E Hg0 Hin) as [(l & Eff & Heq) | Hrest].
  - inversion Heq; subst t l. exists g0. split; [assumption |].
    pose proof (publish_settles _ _ _ _ _ _ Hsafe Hg0 Eff E) as Hset.
    apply (settled_run _ _ _ _ _ _ _ Hset Hrun).
  - destruct (IH c1 cf (safe_step _ _ _ _ Hsafe E) Hrun t loc Hrest) as (g' & Hg' & Hl).
    destruct (step_group_back _ _ _ _ _ _ E Hg') as (g & Hg & Hp & _).
    exists g. split; [assumption |]. now rewrite Hp.
Qed.

Lemma publications_slots_distinct v sched : forall c cf,
  safe v c -> run v sched c = Some cf ->
  NoDup (map snd (publications v sched c)) /\
  NoDup (map fst (publications v sched c)).
Proof.
  induction sched as [| t0 rest IH]; intros c cf Hsafe Hrun;
    [split; constructor |].
  simpl in Hrun. cbn [publications].
  destruct (step_at v t0 c) as [c1 |] eqn:E; [| discriminate].
  destruct (step_at_inv _ _ _ _ E) as (g0 & g1 & Hg0 & Hgs & Hgroups).
  destruct (IH c1 cf (safe_step _ _ _ _ Hsafe E) Hrun) as [IHs IHf].
  rewrite Hg0.
  destruct (effect_of v (slots_ c) g0) as [| l | l | l | l] eqn:Eff; auto.
  cbn [map fst snd]. split; constructor; auto.
  - intros Hin. apply list_elem_of_In, in_map_iff in Hin as ([t l'] & Hl & Hin). simpl in Hl. subst l'.
    pose proof (publish_settles _ _ _ _ _ _ Hsafe Hg0 Eff E) as Hset.
    now apply (publications_avoid_settled _ _ _ _ _ _ Hset _ _ Hin).
  - intros Hin. apply list_elem_of_In, in_map_iff in Hin as ([t l'] & Ht & Hin). simpl in Ht. subst t.
    destruct (step_publish _ _ _ _ _ _ Hgs Eff) as (_ & Hat1 & _).
    eapply (publications_done v rest c1 t0 g1); eauto.
    rewrite Hgroups. apply list_lookup_insert_eq. eapply lookup_lt_Some; eauto.
Qed.

Lemma returned_has_published v sched : forall c cf t g gf,
  run v sched c = Some cf ->
  groups c !! t = Some g ->
  at_ g <> AtVote SUCCESS -> at_ g <> Returned ->
  groups cf !! t = Some gf -> at_ gf = Returned ->
  exists loc, In (t, loc) (publications v sched c).
Proof.
  induction sched as [| t0 rest IH]; intros c cf t g gf Hrun Hg Hn1 Hn2 Hgf Hret;
    simpl in Hrun.
  - inversion Hrun; subst cf. rewrite Hg in Hgf. inversion Hgf; subst gf. contradiction.
  - destruct (step_at v t0 c) as [c1 |] eqn:E; [| discriminate].
    destruct (step_at_inv _ _ _ _ E) as (g0 & g1 & Hg0 & Hgs & Hgroups).
    destruct (decide (t0 = t)) as [-> | Hne].
    + rewrite Hg in Hg0. inversion Hg0; subst g0.
      assert (Hg1 : groups c1 !! t = Some g1).
      { rewrite Hgroups. apply list_lookup_insert_eq. eapply lookup_lt_Some; eauto. }
      assert (Hdec : at_ g1 = AtVote SUCCESS \/ at_ g1 <> AtVote SUCCESS).
      { destruct (at_ g1) as [| ? | ? ? | ? ? | ? | st |]; try (right; discriminate).
        destruct st; (now left) || (right; discriminate). }
      destruct Hdec as [Hs | Hns].
      * destruct (step_to_success _ _ _ _ _ Hgs Hs) as [loc Eff].
        exists loc. cbn [publications]. rewrite E, Hg, Eff. now left.
      * assert (Hnr : at_ g1 <> Returned).
        { intros Hr. apply Hn1. eapply step_to_returned; eauto. }
        destruct (IH c1 cf t g1 gf Hrun Hg1 Hns Hnr Hgf Hret) as [loc Hin].
        exists loc. eapply publications_step; eauto.
    + assert (Hg1 : groups c1 !! t = Some g).
      { rewrite Hgroups, list_lookup_insert_ne; auto. }
      destruct (IH c1 cf t g gf Hrun Hg1 Hn1 Hn2 Hgf Hret) as [loc Hin].
      exists loc. eapply publications_step; eauto.
Qed.

(** X10: no insert is lost and no slot is handed out twice.  Start with
    every group at the top of [insert], with pairs free of the sentinels,
    and run any interleaving.  Then the value writes of key owners go to
    pairwise different slots, each group makes at most one, every such slot
    holds the pair of its group in the final slot array, and every group
    that has returned made one. *)
Theorem no_lost_insert (v : view) (sched : list nat) (c0 c : config) :
  fresh c0 -> valid_pairs v c0 ->
  run v sched c0 = Some c ->
  NoDup (map snd (publications v sched c0)) /\
  NoDup (map fst (publications v sched c0)) /\
  (forall t loc, In (t, loc) (publications v sched c0) ->
     exists g, groups c0 !! t = Some g /\
       Storage.load (slots_ c) loc =
         Some (Slot (fst (insert_pair g)) (snd (insert_pair g)))) /\
  (forall t g, groups c !! t = Some g -> at_ g = Returned ->
     exists loc, In (t, loc) (publications v sched c0)).
Proof.
  intros Hfresh Hvalid Hrun.
  assert (Hq : quiescent c0).
  { intros t g Hg. left. eapply Hfresh; eauto. }
  pose proof (quiescent_safe _ _ Hq Hvalid) as Hsafe.
  destruct (publications_slots_distinct _ _ _ _ Hsafe Hrun) as [Hs Hf].
  split; [exact Hs |]. split; [exact Hf |]. split.
  - intros t loc Hin. eapply publications_final; eauto.
  - intros t g Hg Hret.
    destruct (groups_of_run v sched c0 c Hrun t) as [g0 Hg0].
    { eapply lookup_lt_Some; eauto. }
    pose proof (Hfresh _ _ Hg0) as Hat.
    eapply (returned_has_published v sched c0 c t g0 g); eauto; congruence.
Qed.

Lemma step_at_eq v t c g sl g' :
  groups c !! t = Some g ->
  group_step v (slots_ c) g = Some (sl, g') ->
  step_at v t c = Some (Config sl (<[t := g']> (groups c))).
Proof. intros Hg Hs. unfold step_at. now rewrite Hg, Hs. Qed.

(** The slot a group goes for after its ballot was empty at load time. *)
Lemma claim_target_empty v slots cur obs :
  (length cur <= 32)%nat ->
  window_load v slots cur = Some obs ->
  window_contains_empty obs <> 0 ->
  exists loc s, claim_target cur obs = Some loc /\
    Storage.load slots loc = Some s /\ first s = empty_key_sentinel_ v.
Proof.
  intros Hlanes Hload Hvote.
  pose proof (InsertFacts.window_load_length _ _ _ _ Hload) as Hlen.
  destruct (BallotFacts.ballot_first (map (fun o => fst o || snd o) obs))
    as (r & Hr & _ & Hsrc).
  { rewrite length_map. lia. }
  { exact Hvote. }
  rewrite list_lookup_fmap in Hr.
  destruct (obs !! r) as [o |] eqn:Ho; [| discriminate]. simpl in Hr.
  destruct (lookup_lt_is_Some_2 cur r) as [s0 Hs0].
  { rewrite <- Hlen. eapply lookup_lt_Some; eauto. }
  destruct (InsertFacts.window_load_lookup _ _ _ _ _ _ Hload Hs0) as (o' & Ho' & Hlane).
  rewrite Ho in Ho'. inversion Ho'; subst o'. clear Ho'.
  destruct (InsertFacts.lane_load_slots _ _ _ _ Hlane) as (a & b & Ha & Hb & Hfa & Hfb).
  assert (Hsl : src_lane obs = Z.of_nat r) by exact Hsrc.
  unfold claim_target. rewrite Hsl, Nat2Z.id, Hs0, Ho.
  unfold insert_location_of. inversion Hr as [Hor]. rewrite Hfa in *.
  destruct (Z.eqb_spec (first a) (empty_key_sentinel_ v)) as [Hea | Hna]; simpl.
  - exists (s0 + 0), a. rewrite Z.add_0_r. auto.
  - exists (s0 + 1), b. simpl in Hor. rewrite Hfb in Hor.
    apply Z.eqb_eq in Hor. auto.
Qed.

(** One uncontended attempt: ballot, key compare-and-swap, value
    compare-and-swap, vote. *)
Lemma solo_attempt v c t g obs :
  groups c !! t = Some g ->
  at_ g = AtLoad ->
  (length (current_slot g) <= 32)%nat ->
  empty_slots_blank v (slots_ c) ->
  window_load v (slots_ c) (current_slot g) = Some obs ->
  window_contains_empty obs <> 0 ->
  exists loc s, claim_target (current_slot g) obs = Some loc /\
    Storage.load (slots_ c) loc = Some s /\ first s = empty_key_sentinel_ v /\
    run v [t; t; t; t] c =
      Some (Config
              (Storage.store (slots_ c) loc
                 (Slot (fst (insert_pair g)) (snd (insert_pair g))))
              (<[t := set_at g Returned]> (groups c))).
Proof.
  intros Hg Hat Hlanes Hblank Hload Hvote.
  destruct (claim_target_empty _ _ _ _ Hlanes Hload Hvote) as (loc & s & Hct & Hs & Hfs).
  exists loc, s. split; [exact Hct |]. split; [exact Hs |]. split; [exact Hfs |].
  pose proof (lookup_lt_Some _ _ _ Hg) as Ht.
  assert (H1 : group_step v (slots_ c) g = Some (slots_ c, set_at g (AtKeyCas loc))).
  { unfold group_step. rewrite Hat, Hload.
    destruct (Z.eqb_spec (window_contains_empty obs) 0); [contradiction |].
    now rewrite Hct. }
  cbn [run]. rewrite (step_at_eq _ _ _ _ _ _ Hg H1).
  set (c1 := Config (slots_ c) (<[t := set_at g (AtKeyCas loc)]> (groups c))).
  assert (Hg1 : groups c1 !! t = Some (set_at g (AtKeyCas loc))).
  { apply list_lookup_insert_eq; assumption. }
  assert (H2 : group_step v (slots_ c1) (set_at g (AtKeyCas loc)) =
               Some (Storage.store (slots_ c) loc (Slot (fst (insert_pair g)) (second s)),
                     set_at g (AtValueCas loc true))).
  { rewrite (key_cas_step v (slots_ c1) (set_at g (AtKeyCas loc)) loc s eq_refl Hs).
    rewrite Hfs, Z.eqb_refl. reflexivity. }
  rewrite (step_at_eq _ _ _ _ _ _ Hg1 H2).
  set (sl2 := Storage.store (slots_ c) loc (Slot (fst (insert_pair g)) (second s))).
  set (c2 := Config sl2 (<[t := set_at g (AtValueCas loc true)]> (groups c1))).
  assert (Hg2 : groups c2 !! t = Some (set_at g (AtValueCas loc true))).
  { apply list_lookup_insert_eq. simpl. now rewrite length_insert. }
  assert (Hs2 : Storage.load sl2 loc = Some (Slot (fst (insert_pair g)) (second s))).
  { eapply load_store_eq; eauto. }
  assert (H3 : group_step v (slots_ c2) (set_at g (AtValueCas loc true)) =
               Some (Storage.store sl2 loc
                       (Slot (fst (insert_pair g)) (snd (insert_pair g))),
                     set_at g (AtVote SUCCESS))).
  { rewrite (owner_step v (slots_ c2) (set_at g (AtValueCas loc true)) loc _
               (or_introl eq_refl) Hs2).
    cbn [second]. rewrite (Hblank _ _ Hs Hfs), Z.eqb_refl. reflexivity. }
  rewrite (step_at_eq _ _ _ _ _ _ Hg2 H3).
  set (sl3 := Storage.store sl2 loc (Slot (fst (insert_pair g)) (snd (insert_pair g)))).
  set (c3 := Config sl3 (<[t := set_at g (AtVote SUCCESS)]> (groups c2))).
  assert (Hg3 : groups c3 !! t = Some (set_at g (AtVote SUCCESS))).
  { apply list_lookup_insert_eq. simpl. now rewrite !length_insert. }
  assert (H4 : group_step v (slots_ c3) (set_at g (AtVote SUCCESS)) =
               Some (sl3, set_at g Returned)) by reflexivity.
  rewrite (step_at_eq _ _ _ _ _ _ Hg3 H4).
  subst c3 c2 c1 sl3 sl2. cbn [groups slots_]. unfold Storage.store.
  now rewrite !list_insert_insert_eq.
Qed.

(** X11: an insert that runs alone succeeds at the first window with an
    empty slot.  A group whose first [n] windows are full and whose next
    window has an empty slot, in a table whose empty slots carry the empty
    value, needs [n + 4] uninterrupted steps: [n] moves, the ballot, the key
    compare-and-swap, the value compare-and-swap and the vote.  It has then
    returned, its pair is in the slot it went for, which was empty, and
    nothing else has changed. *)
Theorem solo_insert (v : view) (t : nat) (n : nat) :
  forall (c : config) (g : group) (cur : list Z) (obs : list (bool * bool)),
  groups c !! t = Some g ->
  at_ g = AtLoad ->
  (length (current_slot g) <= 32)%nat ->
  empty_slots_blank v (slots_ c) ->
  (forall i cur_i, (i < n)%nat ->
     lanes_after v (step_size_ g) (current_slot g) i = Some cur_i ->
     exists obs_i, window_load v (slots_ c) cur_i = Some obs_i /\
                   window_contains_empty obs_i = 0) ->
  lanes_after v (step_size_ g) (current_slot g) n = Some cur ->
  window_load v (slots_ c) cur = Some obs ->
  window_contains_empty obs <> 0 ->
  exists loc s, claim_target cur obs = Some loc /\
    Storage.load (slots_ c) loc = Some s /\ first s = empty_key_sentinel_ v /\
    run v (replicate (n + 4) t) c =
      Some (Config
              (Storage.store (slots_ c) loc
                 (Slot (fst (insert_pair g)) (snd (insert_pair g))))
              (<[t := Group (insert_pair g) cur (step_size_ g) Returned]> (groups c))).
Proof.
  induction n as [| n IH]; intros c g cur obs Hg Hat Hlanes Hblank Hfull Hcur Hload Hvote.
  - simpl in Hcur. inversion Hcur; subst cur.
    destruct (solo_attempt _ _ _ _ _ Hg Hat Hlanes Hblank Hload Hvote)
      as (loc & s & Hct & Hs & Hfs & Hrun).
    exists loc, s. repeat (split; [assumption |]). exact Hrun.
  - destruct (Hfull 0%nat (current_slot g) ltac:(lia) eq_refl) as (obs0 & Hload0 & Hz).
    cbn [lanes_after] in Hcur.
    destruct (advance_lanes v (step_size_ g) (current_slot g)) as [cur1 |] eqn:Hadv;
      [| discriminate].
    assert (H1 : group_step v (slots_ c) g = Some (slots_ c, set_current_slot g cur1)).
    { unfold group_step. rewrite Hat, Hload0, Hz. cbn. now rewrite Hadv. }
    pose proof (lookup_lt_Some _ _ _ Hg) as Ht.
    set (c1 := Config (slots_ c) (<[t := set_current_slot g cur1]> (groups c))).
    assert (Hg1 : groups c1 !! t = Some (set_current_slot g cur1)).
    { apply list_lookup_insert_eq; assumption. }
    destruct (IH c1 (set_current_slot g cur1) cur obs Hg1 Hat) as (loc & s & Hct & Hs & Hfs & Hrun).
    + cbn [set_current_slot current_slot].
      now rewrite (InsertFacts.advance_lanes_length _ _ _ _ Hadv).
    + exact Hblank.
    + intros i cur_i Hi Hli. apply (Hfull (S i) cur_i ltac:(lia)).
      cbn [lanes_after]. now rewrite Hadv.
    + exact Hcur.
    + exact Hload.
    + exact Hvote.
    + exists loc, s. repeat (split; [assumption |]).
      change (S n + 4)%nat with (S (n + 4)). cbn [replicate run].
      rewrite (step_at_eq _ _ _ _ _ _ Hg H1). fold c1. rewrite Hrun.
      subst c1. cbn [groups slots_ insert_pair set_current_slot step_size_].
      now rewrite list_insert_insert_eq.
Qed.

Lemma full_window v slots cur obs :
  (forall loc s, Storage.load slots loc = Some s -> first s <> empty_key_sentinel_ v) ->
  window_load v slots cur = Some obs ->
  window_contains_empty obs = 0.
Proof.
  intros Hfull Hload. unfold window_contains_empty, ballot.
  apply BallotFacts.ballot_from_all_false.
  revert obs Hload. induction cur as [| s0 rest IH]; intros obs Hload; simpl in Hload.
  - inversion Hload; subst. constructor.
  - destruct (lane_load v slots s0) as [o |] eqn:Hlane; [| discriminate].
    destruct (window_load v slots rest) as [os |]; [| discriminate].
    inversion Hload; subst. cbn [map]. constructor; [| now apply IH].
    destruct (InsertFacts.lane_load_slots _ _ _ _ Hlane) as (a & b & Ha & Hb & -> & ->).
    apply Hfull in Ha, Hb.
    apply Z.eqb_neq in Ha, Hb. now rewrite Ha, Hb.
Qed.

(** X12: an insert into a table without an empty slot never ends.  When
    no slot holds the empty-key sentinel, whatever the groups and the
    interleaving, no step writes to the slot array and every group is back at
    the top of its loop: no group ever returns. *)
Theorem full_table_insert_spins (v : view) (sched : list nat) (c c' : config) :
  fresh c ->
  (forall loc s, Storage.load (slots_ c) loc = Some s ->
     first s <> empty_key_sentinel_ v) ->
  run v sched c = Some c' ->
  slots_ c' = slots_ c /\ fresh c'.
Proof.
  revert c. induction sched as [| t rest IH]; intros c Hfresh Hfull Hrun; simpl in Hrun.
  - inversion Hrun; subst. auto.
  - destruct (step_at v t c) as [c1 |] eqn:E; [| discriminate].
    destruct (step_at_inv _ _ _ _ E) as (g & g' & Hg & Hgs & Hgroups).
    pose proof (Hfresh _ _ Hg) as Hat.
    unfold group_step in Hgs. rewrite Hat in Hgs.
    destruct (window_load v (slots_ c) (current_slot g)) as [obs |] eqn:Hload;
      [| discriminate].
    rewrite (full_window _ _ _ _ Hfull Hload) in Hgs. cbn in Hgs.
    destruct (advance_lanes v (step_size_ g) (current_slot g)) as [cur' |];
      [| discriminate].
    inversion Hgs as [[Hsl Hg']].
    assert (Hfresh1 : fresh c1).
    { intros u gu Hu. rewrite Hgroups in Hu.
      destruct (lookup_updated _ _ _ _ _ _ Hg Hu) as [[_ ->] | [_ Hu']].
      - rewrite <- Hg'. exact Hat.
      - eapply Hfresh; eauto. }
    destruct (IH c1 Hfresh1) as [Hs Hf]; [now rewrite <- Hsl | exact Hrun |].
    split; [congruence | exact Hf].
Qed.

End InsertRunFacts.

(** * The two-phase publish *)

Module PublishFacts.

Import Insert InsertRun StorageFacts StepFacts ProtocolFacts.

Lemma run_keeps_pair v sched : forall c c' t g,
  run v sched c = Some c' ->
  groups c !! t = Some g ->
  exists g', groups c' !! t = Some g' /\ insert_pair g' = insert_pair g.
Proof.
  induction sched as [| t0 rest IH]; intros c c' t g Hrun Hg; simpl in Hrun.
  - inversion Hrun; subst. eauto.
  - destruct (step_at v t0 c) as [c1 |] eqn:E; [| discriminate].
    destruct (InsertRunFacts.step_keeps_groups _ _ _ _ _ _ E Hg)
      as (g1 & Hg1 & Hp1 & _).
    destruct (IH _ _ _ _ Hrun Hg1) as (g' & Hg' & Hp').
    exists g'. split; [exact Hg' | congruence].
Qed.

(** A group stands at SUCCESS or has returned only if the run contains
    its successful value write. *)
Lemma reported_has_published v sched : forall c cf t g gf,
  run v sched c = Some cf ->
  groups c !! t = Some g ->
  at_ g <> AtVote SUCCESS -> at_ g <> Returned ->
  groups cf !! t = Some gf ->
  at_ gf = AtVote SUCCESS \/ at_ gf = Returned ->
  exists loc, In (t, loc) (publications v sched c).
Proof.
  induction sched as [| t0 rest IH]; intros c cf t g gf Hrun Hg Hn1 Hn2 Hgf Hrep;
    simpl in Hrun.
  - inversion Hrun; subst cf. rewrite Hg in Hgf. inversion Hgf; subst gf.
    destruct Hrep; contradiction.
  - destruct (step_at v t0 c) as [c1 |] eqn:E; [| discriminate].
    destruct (step_at_inv _ _ _ _ E) as (g0 & g1 & Hg0 & Hgs & Hgroups).
    destruct (decide (t0 = t)) as [-> | Hne].
    + rewrite Hg in Hg0. inversion Hg0; subst g0.
      assert (Hg1 : groups c1 !! t = Some g1).
      { rewrite Hgroups. apply list_lookup_insert_eq. eapply lookup_lt_Some; eauto. }
      assert (Hdec : at_ g1 = AtVote SUCCESS \/ at_ g1 <> AtVote SUCCESS).
      { destruct (at_ g1) as [| ? | ? ? | ? ? | ? | st |]; try (right; discriminate).
        destruct st; (now left) || (right; discriminate). }
      destruct Hdec as [Hs | Hns].
      * destruct (step_to_success _ _ _ _ _ Hgs Hs) as [loc Eff].
        exists loc. cbn [publications]. rewrite E, Hg, Eff. now left.
      * assert (Hnr : at_ g1 <> Returned).
        { intros Hr. apply Hn1. eapply InsertRunFacts.step_to_returned; eauto. }
        destruct (IH c1 cf t g1 gf Hrun Hg1 Hns Hnr Hgf Hrep) as [loc Hin].
        exists loc. eapply InsertRunFacts.publications_step; eauto.
    + assert (Hg1 : groups c1 !! t = Some g).
      { rewrite Hgroups, list_lookup_insert_ne; auto. }
      destruct (IH c1 cf t g gf Hrun Hg1 Hn1 Hn2 Hgf Hrep) as [loc Hin].
      exists loc. eapply InsertRunFacts.publications_step; eauto.
Qed.

(** C3: the two phases of the publish.  A key compare-and-swap that
    finds the empty key writes the key and leads to the value phase.  There
    every round is a compare-and-swap on the value field that expects the
    empty-value sentinel, whatever an earlier failure loaded into
    [expected_value]: on failure nothing is written and the round is
    repeated, on success the value is written and the status is SUCCESS.
    In every state reached from a fresh table the slot of the value phase
    holds the key of the group, the value write succeeds after at most one
    step of another group (a pending rollback), and a group stands at
    SUCCESS or has returned only if its value write is part of the run, the
    slot then holding exactly the inserted pair. *)
Theorem value_publish (v : view) :
  (forall c t g loc s,
     groups c !! t = Some g -> Storage.load (slots_ c) loc = Some s ->
     at_ g = AtKeyCas loc -> first s = empty_key_sentinel_ v ->
     step_at v t c =
       Some (Config
               (Storage.store (slots_ c) loc (Slot (fst (insert_pair g)) (second s)))
               (<[t := set_at g (AtValueCas loc true)]> (groups c)))) /\
  (forall c t g loc s,
     groups c !! t = Some g -> Storage.load (slots_ c) loc = Some s ->
     owes_value g loc ->
     step_at v t c =
       Some (if second s =? empty_value_sentinel_ v
             then Config
                    (Storage.store (slots_ c) loc
                       (Slot (first s) (snd (insert_pair g))))
                    (<[t := set_at g (AtVote SUCCESS)]> (groups c))
             else Config (slots_ c)
                    (<[t := set_at g (AtValueLoop loc (second s))]> (groups c)))) /\
  (forall c0 sched c t g,
     fresh c0 -> valid_pairs v c0 -> empty_slots_blank v (slots_ c0) ->
     run v sched c0 = Some c ->
     groups c !! t = Some g ->
     (forall loc, owes_value g loc ->
        (exists s, Storage.load (slots_ c) loc = Some s /\
                   first s = fst (insert_pair g)) /\
        (exists sched' d gd,
           (length sched' <= 2)%nat /\ run v sched' c = Some d /\
           groups d !! t = Some gd /\ at_ gd = AtVote SUCCESS)) /\
     (at_ g = AtVote SUCCESS \/ at_ g = Returned ->
        exists loc,
          In (t, loc) (publications v sched c0) /\
          Storage.load (slots_ c) loc =
            Some (Slot (fst (insert_pair g)) (snd (insert_pair g))))).
Proof.
  split; [| split].
  - intros c t g loc s Hg Hs Hat Hek. unfold step_at.
    now rewrite Hg, (key_cas_step _ _ _ _ _ Hat Hs), Hek, Z.eqb_refl.
  - intros c t g loc s Hg Hs Ho. unfold step_at.
    rewrite Hg, (owner_step _ _ _ _ _ Ho Hs).
    now destruct (second s =? empty_value_sentinel_ v).
  - intros c0 sched c t g Hfresh Hv Hb Hrun Hg.
    assert (Hq : quiescent c0) by (intros u gu Hu; left; eapply Hfresh; eauto).
    pose proof (quiescent_safe _ _ Hq Hv) as Hsafe0.
    destruct (safe_unblocked_run _ _ _ _ Hsafe0 (quiescent_unblocked _ _ Hq Hb) Hrun)
      as [Hsafe Hunb].
    split.
    + intros loc Ho. split.
      * exact (safe_owner_key _ _ Hsafe _ _ _ Hg Ho).
      * eapply value_write_completes; eauto.
    + intros Hrep.
      destruct (InsertRunFacts.groups_of_run v sched c0 c Hrun t) as [g0 Hg0].
      { eapply lookup_lt_Some; eauto. }
      pose proof (Hfresh _ _ Hg0) as Hat0.
      destruct (reported_has_published v sched c0 c t g0 g Hrun Hg0) as [loc Hin];
        [congruence | congruence | exact Hg | exact Hrep |].
      exists loc. split; [exact Hin |].
      destruct (InsertRunFacts.publications_final v sched c0 c Hsafe0 Hrun t loc Hin)
        as (g0' & Hg0' & Hload).
      rewrite Hg0 in Hg0'. inversion Hg0'; subst g0'.
      destruct (run_keeps_pair v sched c0 c t g0 Hrun Hg0) as (g' & Hg' & Hp).
      rewrite Hg in Hg'. inversion Hg'; subst g'. now rewrite Hp.
Qed.

End PublishFacts.

(** * The decisions of the insert loop *)

Module InsertLoopFacts.

Import Insert InsertRun StorageFacts StepFacts ProtocolFacts.

Lemma ballot_from_nonzero preds : forall r,
  ballot_from r preds <> 0 -> exists i : nat, preds !! i = Some true.
Proof.
  induction preds as [| p ps IH]; intros r H; simpl in H; [contradiction |].
  destruct p; [now exists 0%nat |].
  rewrite Z.lor_0_l in H. destruct (IH _ H) as [i Hi]. now exists (S i).
Qed.

Lemma ballot_nonzero_iff preds :
  ballot preds <> 0 <-> exists i : nat, preds !! i = Some true.
Proof.
  split; [apply ballot_from_nonzero |].
  intros [i Hi] H0.
  pose proof (BallotFacts.testbit_ballot preds i) as Hb.
  rewrite H0, Z.bits_0, Hi in Hb. discriminate.
Qed.

(** The vote is the window: the ballot on "one of my two slots is empty"
    is non-zero exactly when the window contains an empty slot. *)
Lemma vote_is_window v slots cur obs :
  window_load v slots cur = Some obs ->
  (window_contains_empty obs <> 0 <-> window_has_empty v slots cur).
Proof.
  intros Hload. unfold window_contains_empty. rewrite ballot_nonzero_iff.
  pose proof (InsertFacts.window_load_length _ _ _ _ Hload) as Hlen.
  split.
  - intros [r Hr]. rewrite list_lookup_fmap in Hr.
    destruct (obs !! r) as [o |] eqn:Ho; [| discriminate]. simpl in Hr.
    destruct (lookup_lt_is_Some_2 cur r) as [s Hs].
    { rewrite <- Hlen. eapply lookup_lt_Some; eauto. }
    destruct (InsertFacts.window_load_lookup _ _ _ _ _ _ Hload Hs) as (o' & Ho' & Hlane).
    rewrite Ho in Ho'. inversion Ho'; subst o'.
    destruct (InsertFacts.lane_load_slots _ _ _ _ Hlane) as (a & b & Ha & Hb & Hfa & Hfb).
    inversion Hr as [Hor]. rewrite Hfa, Hfb in Hor.
    apply orb_true_iff in Hor as [H | H]; apply Z.eqb_eq in H.
    + exists r, s, s, a. auto.
    + exists r, s, (s + 1), b. auto.
  - intros (r & s & loc & a & Hs & Hloc & Ha & Hfa).
    destruct (InsertFacts.window_load_lookup _ _ _ _ _ _ Hload Hs) as (o & Ho & Hlane).
    destruct (InsertFacts.lane_load_slots _ _ _ _ Hlane) as (a1 & b1 & Ha1 & Hb1 & Hf1 & Hf2).
    exists r. rewrite list_lookup_fmap, Ho. simpl. f_equal.
    rewrite Hf1, Hf2. apply orb_true_iff.
    destruct Hloc as [-> | ->].
    + left. rewrite Ha in Ha1. inversion Ha1; subst a1. now apply Z.eqb_eq.
    + right. rewrite Ha in Hb1. inversion Hb1; subst b1. now apply Z.eqb_eq.
Qed.

(** C4: the three-way decision of the loop, on the contents of the
    window.  A vote that sees SUCCESS returns, and nothing else does.  Any
    other vote goes back to the top of the loop with every lane where it
    was, and nothing else does.  At the top of the loop a window that
    contains an empty slot starts an attempt on an empty slot of it, the
    lanes staying where they are, as they do through every step of the
    attempt; a window that contains none moves every lane by the group
    [next_slot] and stays at the top of the loop. *)
Theorem insert_loop_decision (v : view) (slots : list slot) (g : group) :
  (at_ g = AtVote SUCCESS ->
     group_step v slots g = Some (slots, set_at g Returned)) /\
  (forall st, at_ g = AtVote st -> st <> SUCCESS ->
     group_step v slots g = Some (slots, set_at g AtLoad)) /\
  (forall obs, at_ g = AtLoad ->
     (length (current_slot g) <= 32)%nat ->
     window_load v slots (current_slot g) = Some obs ->
     window_has_empty v slots (current_slot g) ->
     exists loc s,
       Storage.load slots loc = Some s /\ first s = empty_key_sentinel_ v /\
       group_step v slots g = Some (slots, set_at g (AtKeyCas loc))) /\
  (forall obs, at_ g = AtLoad ->
     window_load v slots (current_slot g) = Some obs ->
     ~ window_has_empty v slots (current_slot g) ->
     group_step v slots g =
       match advance_lanes v (step_size_ g) (current_slot g) with
       | Some cur' => Some (slots, set_current_slot g cur')
       | None => None
       end /\
     forall cur' (r : nat) s,
       advance_lanes v (step_size_ g) (current_slot g) = Some cur' ->
       current_slot g !! r = Some s ->
       exists s', cur' !! r = Some s' /\
                  Probe.cg_next_slot (capacity_ v) (step_size_ g) s = Some s') /\
  (forall slots' g', at_ g <> AtLoad ->
     group_step v slots g = Some (slots', g') ->
     current_slot g' = current_slot g /\
     (at_ g' = Returned -> at_ g = AtVote SUCCESS) /\
     (at_ g' = AtLoad -> exists st, at_ g = AtVote st /\ st <> SUCCESS)).
Proof.
  split; [| split; [| split; [| split]]].
  - intros Hat. unfold group_step. now rewrite Hat.
  - intros st Hat Hst. unfold group_step. rewrite Hat.
    destruct st; [reflexivity | contradiction | reflexivity].
  - intros obs Hat Hlanes Hload Hempty.
    apply (vote_is_window _ _ _ _ Hload) in Hempty.
    destruct (InsertRunFacts.claim_target_empty _ _ _ _ Hlanes Hload Hempty)
      as (loc & s & Hct & Hs & Hfs).
    exists loc, s. split; [exact Hs |]. split; [exact Hfs |].
    unfold group_step. rewrite Hat, Hload.
    destruct (Z.eqb_spec (window_contains_empty obs) 0); [contradiction |].
    now rewrite Hct.
  - intros obs Hat Hload Hfull. split.
    + unfold group_step. rewrite Hat, Hload.
      destruct (Z.eqb_spec (window_contains_empty obs) 0) as [_ | Hne];
        [reflexivity |].
      exfalso. apply Hfull. now apply (vote_is_window _ _ _ _ Hload).
    + intros cur' r s Hadv Hr. eapply InsertFacts.advance_lanes_lookup; eauto.
  - intros slots' g' Hna H. unfold group_step in H.
    destruct (at_ g) as [| loc | loc ks | loc e | loc | st |] eqn:Hat.
    + contradiction.
    + destruct (Storage.load slots loc) as [s |]; [| discriminate].
      destruct (Storage.compare_exchange_strong _ _ _) as [[ok e] k'].
      inversion H; subst; simpl. repeat split; discriminate.
    + destruct (Storage.load slots loc) as [s |]; [| discriminate].
      destruct (Storage.compare_exchange_strong _ _ _) as [[ok e] v'].
      destruct ks, ok; inversion H; subst; simpl; repeat split; discriminate.
    + destruct (Storage.load slots loc) as [s |]; [| discriminate].
      destruct (Storage.compare_exchange_strong _ _ _) as [[ok e'] v'].
      destruct ok; inversion H; subst; simpl; repeat split; discriminate.
    + destruct (Storage.load slots loc) as [s |]; [| discriminate].
      inversion H; subst; simpl. repeat split; discriminate.
    + destruct st; inversion H; subst; simpl;
        (split; [reflexivity |]); (split; [try discriminate; reflexivity |]);
        try discriminate; intros _; eexists; (split; [reflexivity | discriminate]).
    + discriminate.
Qed.

End InsertLoopFacts.

Module InsertLoopExamples.

Import Insert InsertRun ExampleInsert.

Lemma insert_loop_decision_witness :
  (at_ (group_of 0 (after [0; 1; 0; 1; 1; 0; 1; 0]%nat c0)) = AtVote SUCCESS /\
   group_step v8 (slots_ (after [0; 1; 0; 1; 1; 0; 1; 0]%nat c0))
     (group_of 0 (after [0; 1; 0; 1; 1; 0; 1; 0]%nat c0)) =
     Some (slots_ (after [0; 1; 0; 1; 1; 0; 1; 0]%nat c0),
           Group (1, 10) [4; 6] 4 Returned)) /\
  (at_ (group_of 1 (after [0; 1; 0; 1; 1; 0; 1]%nat c0)) = AtVote CONTINUE /\
   group_step v8 (slots_ (after [0; 1; 0; 1; 1; 0; 1]%nat c0))
     (group_of 1 (after [0; 1; 0; 1; 1; 0; 1]%nat c0)) =
     Some (slots_ (after [0; 1; 0; 1; 1; 0; 1]%nat c0),
           Group (5, 20) [4; 6] 4 AtLoad)) /\
  (exists loc s,
     Storage.load busy_slots loc = Some s /\ first s = empty_key_sentinel_ v8 /\
     group_step v8 busy_slots (start (13, 40)) =
       Some (busy_slots, set_at (start (13, 40)) (AtKeyCas loc))) /\
  group_step v8 full_slots (start (17, 50)) =
    Some (full_slots, Group (17, 50) [0; 2] 4 AtLoad) /\
  (current_slot (set_at (group_of 1 (after [0; 1; 0]%nat c0)) (AtValueCas 4 false)) =
     current_slot (group_of 1 (after [0; 1; 0]%nat c0)) /\
   at_ (group_of 1 (after [0; 1; 0]%nat c0)) = AtKeyCas 4).
Proof.
  split; [| split; [| split; [| split]]].
  - split; [reflexivity |].
    apply (InsertLoopFacts.insert_loop_decision v8
             (slots_ (after [0; 1; 0; 1; 1; 0; 1; 0]%nat c0))
             (group_of 0 (after [0; 1; 0; 1; 1; 0; 1; 0]%nat c0))).
    reflexivity.
  - split; [reflexivity |].
    apply (InsertLoopFacts.insert_loop_decision v8
             (slots_ (after [0; 1; 0; 1; 1; 0; 1]%nat c0))
             (group_of 1 (after [0; 1; 0; 1; 1; 0; 1]%nat c0))) with (st := CONTINUE);
      [reflexivity | discriminate].
  - apply (InsertLoopFacts.insert_loop_decision v8 busy_slots (start (13, 40)))
      with (obs := [(false, false); (false, true)]).
    + reflexivity.
    + vm_compute. lia.
    + reflexivity.
    + exists 1%nat, 6, 7, blank. repeat split. now right.
  - destruct (InsertLoopFacts.insert_loop_decision v8 full_slots (start (17, 50)))
      as (_ & _ & _ & Hfull & _).
    destruct (Hfull [(false, false); (false, false)] eq_refl eq_refl) as [Hstep _];
      [| exact Hstep].
    intros (r & s & loc & a & Hr & Hloc & Ha & Hfa).
    destruct r as [| [| r]]; simpl in Hr; inversion Hr; subst s;
      destruct Hloc as [-> | ->]; vm_compute in Ha; inversion Ha; subst a;
      discriminate.
  - destruct (InsertLoopFacts.insert_loop_decision v8
                (slots_ (after [0; 1; 0]%nat c0))
                (group_of 1 (after [0; 1; 0]%nat c0)))
      as (_ & _ & _ & _ & Hkeep).
    destruct (Hkeep (slots_ (after [0; 1; 0]%nat c0))
                (set_at (group_of 1 (after [0; 1; 0]%nat c0)) (AtValueCas 4 false)))
      as [Hcur _]; [vm_compute; discriminate | reflexivity |].
    split; [exact Hcur | reflexivity].
Defined.

End InsertLoopExamples.

Module PublishExamples.

Import Insert InsertRun ExampleInsert.

(** Group 0 wins the key of slot 4, finds the speculative value of group 1
    in its way, loops, and writes its value once group 1 has rolled back. *)
Lemma value_publish_witness :
  step_at v8 0 (after [0; 1]%nat c0) =
    Some (Config
            (Storage.store (slots_ (after [0; 1]%nat c0)) 4 (Slot 1 minus_one))
            (<[0%nat := set_at (group_of 0 (after [0; 1]%nat c0)) (AtValueCas 4 true)]>
               (groups (after [0; 1]%nat c0)))) /\
  (Storage.load (slots_ (after [0; 1; 0; 1; 1]%nat c0)) 4 = Some (Slot 1 20) /\
   step_at v8 0 (after [0; 1; 0; 1; 1]%nat c0) =
     Some (Config (slots_ (after [0; 1; 0; 1; 1]%nat c0))
                  (<[0%nat := set_at (group_of 0 (after [0; 1; 0; 1; 1]%nat c0))
                                (AtValueLoop 4 20)]>
                     (groups (after [0; 1; 0; 1; 1]%nat c0))))) /\
  (at_ (group_of 0 (after [0; 1; 0; 1; 1; 0; 1]%nat c0)) = AtValueLoop 4 20 /\
   step_at v8 0 (after [0; 1; 0; 1; 1; 0; 1]%nat c0) =
     Some (Config
             (Storage.store (slots_ (after [0; 1; 0; 1; 1; 0; 1]%nat c0)) 4 (Slot 1 10))
             (<[0%nat := set_at (group_of 0 (after [0; 1; 0; 1; 1; 0; 1]%nat c0))
                           (AtVote SUCCESS)]>
                (groups (after [0; 1; 0; 1; 1; 0; 1]%nat c0))))) /\
  ((exists s, Storage.load (slots_ (after [0; 1; 0; 1; 1]%nat c0)) 4 = Some s /\
              first s = 1) /\
   (exists sched' d gd,
      (length sched' <= 2)%nat /\
      run v8 sched' (after [0; 1; 0; 1; 1]%nat c0) = Some d /\
      groups d !! 0%nat = Some gd /\ at_ gd = AtVote SUCCESS)) /\
  (at_ (group_of 0 (after [0; 1; 0; 1; 1; 0; 1; 0]%nat c0)) = AtVote SUCCESS /\
   exists loc,
     In (0%nat, loc) (publications v8 [0; 1; 0; 1; 1; 0; 1; 0]%nat c0) /\
     Storage.load (slots_ (after [0; 1; 0; 1; 1; 0; 1; 0]%nat c0)) loc =
       Some (Slot 1 10)).
Proof.
  destruct (PublishFacts.value_publish v8) as (Hkey & Hloop & Hrun).
  assert (Hfresh : fresh c0).
  { intros t g H. destruct t as [| [| t]]; simpl in H; inversion H; subst; reflexivity. }
  split; [| split; [| split; [| split]]].
  - exact (Hkey (after [0; 1]%nat c0) 0%nat _ 4 blank eq_refl eq_refl eq_refl eq_refl).
  - split; [reflexivity |].
    exact (Hloop (after [0; 1; 0; 1; 1]%nat c0) 0%nat _ 4 (Slot 1 20)
             eq_refl eq_refl (or_introl eq_refl)).
  - split; [reflexivity |].
    exact (Hloop (after [0; 1; 0; 1; 1; 0; 1]%nat c0) 0%nat _ 4 (Slot 1 minus_one)
             eq_refl eq_refl (or_intror (ex_intro _ 20 eq_refl))).
  - apply (Hrun c0 [0; 1; 0; 1; 1]%nat (after [0; 1; 0; 1; 1]%nat c0) 0%nat
             (group_of 0 (after [0; 1; 0; 1; 1]%nat c0)) Hfresh ExampleFacts.c0_valid
             (ExampleFacts.empty_slots_are_blank v8) eq_refl eq_refl).
    now left.
  - split; [reflexivity |].
    apply (Hrun c0 [0; 1; 0; 1; 1; 0; 1; 0]%nat
             (after [0; 1; 0; 1; 1; 0; 1; 0]%nat c0) 0%nat
             (group_of 0 (after [0; 1; 0; 1; 1; 0; 1; 0]%nat c0)) Hfresh
             ExampleFacts.c0_valid (ExampleFacts.empty_slots_are_blank v8)
             eq_refl eq_refl).
    now left.
Defined.

End PublishExamples.

Module InsertRunExamples.

Import Insert InsertRun ExampleInsert ExampleMore.

Lemma c0_fresh : fresh c0.
Proof.
  intros t g H. destruct t as [| [| t]]; simpl in H; inversion H; subst; reflexivity.
Qed.

Lemma keys_never_erased_witness :
  run v8 [0; 0; 0; 0]%nat (Config busy_slots [start (13, 40)]) =
    Some (after [0; 0; 0; 0]%nat (Config busy_slots [start (13, 40)])) /\
  Storage.load busy_slots 4 = Some (Slot 1 10) /\
  (1 =? empty_key_sentinel_ v8) = false /\
  exists s',
    Storage.load (slots_ (after [0; 0; 0; 0]%nat (Config busy_slots [start (13, 40)]))) 4
      = Some s' /\
    first s' = first (Slot 1 10).
Proof.
  split; [vm_compute; reflexivity |]. split; [reflexivity |].
  split; [reflexivity |].
  apply (InsertRunFacts.keys_never_erased v8 [0; 0; 0; 0]%nat
           (Config busy_slots [start (13, 40)])).
  - vm_compute. reflexivity.
  - reflexivity.
  - vm_compute. discriminate.
Defined.

Lemma no_lost_insert_witness :
  run v8 both_return c0 = Some (after both_return c0) /\
  publications v8 both_return c0 = [(0%nat, 4); (1%nat, 5)] /\
  NoDup (map snd (publications v8 both_return c0)) /\
  NoDup (map fst (publications v8 both_return c0)) /\
  (forall t loc, In (t, loc) (publications v8 both_return c0) ->
     exists g, groups c0 !! t = Some g /\
       Storage.load (slots_ (after both_return c0)) loc =
         Some (Slot (fst (insert_pair g)) (snd (insert_pair g)))) /\
  (forall t g, groups (after both_return c0) !! t = Some g -> at_ g = Returned ->
     exists loc, In (t, loc) (publications v8 both_return c0)).
Proof.
  split; [vm_compute; reflexivity |]. split; [vm_compute; reflexivity |].
  apply (InsertRunFacts.no_lost_insert v8 both_return c0).
  - exact c0_fresh.
  - exact ExampleFacts.c0_valid.
  - vm_compute. reflexivity.
Defined.

Lemma full_slots_blank : empty_slots_blank v8 full_slots.
Proof.
  intros loc s H Hf. unfold Storage.load in H.
  destruct (Z.ltb_spec loc 0); [discriminate |].
  remember (Z.to_nat loc) as i eqn:Hi. clear Hi.
  do 8 (destruct i as [| i];
        [simpl in H; inversion H; subst s; vm_compute in Hf |- *;
         (reflexivity || discriminate) |]).
  discriminate.
Qed.

Lemma solo_insert_witness :
  exists loc s,
    claim_target [0; 2] [(true, true); (true, true)] = Some loc /\
    Storage.load full_slots loc = Some s /\ first s = empty_key_sentinel_ v8 /\
    run v8 (replicate (1 + 4) 0%nat) (Config full_slots [start (13, 40)]) =
      Some (Config (Storage.store full_slots loc (Slot 13 40))
                   [Group (13, 40) [0; 2] 4 Returned]).
Proof.
  apply (InsertRunFacts.solo_insert v8 0 1 (Config full_slots [start (13, 40)])
           (start (13, 40)) [0; 2] [(true, true); (true, true)]).
  - reflexivity.
  - reflexivity.
  - vm_compute. lia.
  - exact full_slots_blank.
  - intros i cur_i Hi Hl. destruct i as [| i]; [| lia].
    vm_compute in Hl. inversion Hl; subst cur_i.
    exists [(false, false); (false, false)]. split; vm_compute; reflexivity.
  - vm_compute. reflexivity.
  - vm_compute. reflexivity.
  - vm_compute. discriminate.
Defined.

Lemma full8_keys : forall loc s,
  Storage.load ExampleMore.full8 loc = Some s -> first s <> empty_key_sentinel_ v8.
Proof.
  intros loc s H. unfold Storage.load in H.
  destruct (Z.ltb_spec loc 0); [discriminate |].
  remember (Z.to_nat loc) as i eqn:Hi. clear Hi.
  do 8 (destruct i as [| i]; [simpl in H; inversion H; subst s; discriminate |]).
  discriminate.
Qed.

Lemma full_table_insert_spins_witness :
  run v8 [0; 1; 1; 0; 0]%nat
      (Config ExampleMore.full8 [start (13, 40); start (2, 7)]) =
    Some (after [0; 1; 1; 0; 0]%nat
            (Config ExampleMore.full8 [start (13, 40); start (2, 7)])) /\
  slots_ (after [0; 1; 1; 0; 0]%nat
            (Config ExampleMore.full8 [start (13, 40); start (2, 7)])) =
    ExampleMore.full8 /\
  fresh (after [0; 1; 1; 0; 0]%nat
           (Config ExampleMore.full8 [start (13, 40); start (2, 7)])).
Proof.
  split; [vm_compute; reflexivity |].
  apply (InsertRunFacts.full_table_insert_spins v8 [0; 1; 1; 0; 0]%nat
           (Config ExampleMore.full8 [start (13, 40); start (2, 7)])).
  - intros t g H. destruct t as [| [| t]]; simpl in H; inversion H; subst; reflexivity.
  - exact full8_keys.
  - vm_compute. reflexivity.
Defined.

End InsertRunExamples.

(** * The insert stays inside the slot array *)

Module InsertBoundsFacts.

Import Insert InsertRun StorageFacts StepFacts ProtocolFacts.

Section Geometry.

Variable hash : Z -> Z.
Variable kbits : Z.
Hypothesis hash_range : forall x, 0 <= hash x < 2 ^ 64.

Variable v : view.
Variable G : Z.
Hypothesis G_pos : 1 <= G.
Hypothesis G_small : 2 * G < 2 ^ 32.
Hypothesis capacity_range : 0 <= capacity_ v < 2 ^ 64.
Hypothesis two_windows : 2 <= capacity_ v / (2 * G).
Hypothesis whole_windows : capacity_ v mod (2 * G) = 0.

Local Abbreviation lane_ok := (Probe.lane_ok (capacity_ v)).

Lemma load_in_bounds (slots : list slot) loc :
  Z.of_nat (length slots) = capacity_ v ->
  0 <= loc < capacity_ v ->
  exists s, Storage.load slots loc = Some s.
Proof using Type.
  intros Hlen Hloc. unfold Storage.load.
  destruct (Z.ltb_spec loc 0); [lia |].
  apply lookup_lt_is_Some_2. lia.
Qed.

Lemma lane_load_in_bounds (slots : list slot) s :
  Z.of_nat (length slots) = capacity_ v ->
  lane_ok s ->
  exists o, lane_load v slots s = Some o.
Proof using Type.
  intros Hlen [_ Hs]. unfold lane_load.
  destruct (load_in_bounds slots s Hlen ltac:(lia)) as [a ->].
  destruct (load_in_bounds slots (s + 1) Hlen ltac:(lia)) as [b ->].
  eauto.
Qed.

Lemma window_load_in_bounds (slots : list slot) cur :
  Z.of_nat (length slots) = capacity_ v ->
  (forall (r : nat) s, cur !! r = Some s -> lane_ok s) ->
  exists obs, window_load v slots cur = Some obs.
Proof using Type.
  intros Hlen. induction cur as [| s rest IH]; intros Hok; simpl; [eauto |].
  destruct (lane_load_in_bounds slots s Hlen (Hok 0%nat s eq_refl)) as [o ->].
  destruct IH as [os ->]; [| eauto].
  intros r s' Hr. apply (Hok (S r)). exact Hr.
Qed.

Lemma advance_lanes_in_bounds step cur :
  Z.even step = true ->
  (forall (r : nat) s, cur !! r = Some s -> lane_ok s) ->
  exists cur', advance_lanes v step cur = Some cur' /\
    forall (r : nat) s, cur' !! r = Some s -> lane_ok s.
Proof using All.
  intros Es. induction cur as [| s rest IH]; intros Hok; simpl.
  - exists []. split; [reflexivity |]. intros r s Hr. discriminate.
  - destruct (ProbeFacts.cg_next_slot_ok hash kbits hash_range (capacity_ v) G
                G_pos G_small capacity_range two_windows whole_windows step s Es
                (Hok 0%nat s eq_refl)) as (s' & -> & Hs').
    destruct IH as (rest' & -> & Hrest').
    { intros r s0 Hr. apply (Hok (S r)). exact Hr. }
    exists (s' :: rest'). split; [reflexivity |].
    intros [| r] s0 Hr; simpl in Hr; [inversion Hr; subst; assumption | eauto].
Qed.

Lemma claim_target_in_bounds cur obs loc :
  (forall (r : nat) s, cur !! r = Some s -> lane_ok s) ->
  claim_target cur obs = Some loc ->
  0 <= loc < capacity_ v.
Proof using Type.
  intros Hok. unfold claim_target.
  destruct (cur !! Z.to_nat (src_lane obs)) as [s |] eqn:Hs; [| discriminate].
  destruct (obs !! Z.to_nat (src_lane obs)) as [o |]; [| discriminate].
  intros H. inversion H; subst loc. destruct (Hok _ _ Hs) as [_ Hr].
  unfold insert_location_of. destruct (negb (fst o)); lia.
Qed.

(** A group that has not returned can take its step. *)
Lemma group_step_defined slots g :
  Z.of_nat (length slots) = capacity_ v ->
  group_in_bounds v g ->
  at_ g <> Returned ->
  exists r, group_step v slots g = Some r.
Proof using All.
  intros Hlen (Es & Hok & Hpos) Hnr. unfold group_step.
  destruct (at_ g) as [| loc | loc ks | loc e | loc | st |]; simpl in Hpos.
  - destruct (window_load_in_bounds slots _ Hlen Hok) as [obs ->].
    destruct (window_contains_empty obs =? 0).
    + destruct (advance_lanes_in_bounds _ _ Es Hok) as (cur' & -> & _). eauto.
    + destruct (claim_target (current_slot g) obs); eauto.
  - destruct (load_in_bounds slots loc Hlen Hpos) as [s ->].
    destruct (Storage.compare_exchange_strong _ _ _) as [[ok e] k']. eauto.
  - destruct (load_in_bounds slots loc Hlen Hpos) as [s ->].
    destruct (Storage.compare_exchange_strong _ _ _) as [[ok e] v'].
    destruct ks, ok; eauto.
  - destruct (load_in_bounds slots loc Hlen Hpos) as [s ->].
    destruct (Storage.compare_exchange_strong _ _ _) as [[ok e'] v'].
    destruct ok; eauto.
  - destruct (load_in_bounds slots loc Hlen Hpos) as [s ->]. eauto.
  - destruct st; eauto.
  - contradiction.
Qed.

Lemma group_step_in_bounds slots g slots' g' :
  group_in_bounds v g ->
  group_step v slots g = Some (slots', g') ->
  group_in_bounds v g'.
Proof using All.
  intros (Es & Hok & Hpos) H. unfold group_step in H. unfold group_in_bounds.
  destruct (at_ g) as [| loc | loc ks | loc e | loc | st |] eqn:Hat; simpl in Hpos.
  - destruct (window_load v slots (current_slot g)) as [obs |]; [| discriminate].
    destruct (window_contains_empty obs =? 0).
    + destruct (advance_lanes_in_bounds _ _ Es Hok) as (cur' & Hadv & Hok').
      rewrite Hadv in H. inversion H; subst. simpl. rewrite Hat. simpl. auto.
    + destruct (claim_target (current_slot g) obs) as [loc |] eqn:Hct;
        inversion H; subst; simpl; (split; [exact Es | split; [exact Hok |]]);
        [eapply claim_target_in_bounds; eauto | exact I].
  - destruct (Storage.load slots loc) as [s |]; [| discriminate].
    destruct (Storage.compare_exchange_strong _ _ _) as [[ok e] k'].
    inversion H; subst; simpl. auto.
  - destruct (Storage.load slots loc) as [s |]; [| discriminate].
    destruct (Storage.compare_exchange_strong _ _ _) as [[ok e] v'].
    destruct ks, ok; inversion H; subst; simpl;
      (split; [exact Es | split; [exact Hok |]]); (exact I || exact Hpos).
  - destruct (Storage.load slots loc) as [s |]; [| discriminate].
    destruct (Storage.compare_exchange_strong _ _ _) as [[ok e'] v'].
    destruct ok; inversion H; subst; simpl;
      (split; [exact Es | split; [exact Hok |]]); (exact I || exact Hpos).
  - destruct (Storage.load slots loc) as [s |]; [| discriminate].
    inversion H; subst; simpl. auto.
  - destruct st; inversion H; subst; simpl; auto.
  - discriminate.
Qed.

Lemma in_bounds_step t c c' :
  in_bounds v c -> step_at v t c = Some c' -> in_bounds v c'.
Proof using All.
  intros [Hlen Hgroups] Hstep.
  destruct (step_at_inv _ _ _ _ Hstep) as (g0 & g1 & Hg0 & Hgs & Hgr).
  destruct (InsertRunFacts.step_fields _ _ _ _ _ Hgs) as (_ & _ & Hl).
  split; [lia |].
  intros u g Hu. rewrite Hgr in Hu.
  destruct (lookup_updated _ _ _ _ _ _ Hg0 Hu) as [[_ ->] | [_ Hu']].
  - eapply group_step_in_bounds; eauto.
  - eauto.
Qed.

Lemma in_bounds_run sched : forall c c',
  in_bounds v c -> run v sched c = Some c' -> in_bounds v c'.
Proof using All.
  induction sched as [| t rest IH]; intros c c' Hb Hrun; simpl in Hrun.
  - now inversion Hrun; subst.
  - destruct (step_at v t c) as [c1 |] eqn:E; [| discriminate].
    eapply IH; [eapply in_bounds_step |]; eauto.
Qed.

(** The state in which [insert] is entered is in bounds. *)
Lemma enter_in_bounds pair g :
  enter hash kbits v G pair = Some g -> group_in_bounds v g.
Proof using All.
  unfold enter. intros H.
  rewrite (ProbeFacts.cg_initial_slot_value hash kbits hash_range (capacity_ v) G
             G_pos G_small capacity_range two_windows 0 (fst pair)) in H by lia.
  destruct (mapM _ _) as [cur |] eqn:Hm; [| discriminate].
  inversion H; subst g. clear H. unfold group_in_bounds. simpl.
  split.
  { apply (ProbeFacts.code_step_size_bounds hash kbits hash_range (capacity_ v) G
             G_pos G_small capacity_range two_windows). }
  split; [| exact I].
  intros r s Hr. apply mapM_Some in Hm.
  destruct (Forall2_lookup_r _ _ _ _ _ Hm Hr) as (x & Hx & Hfx).
  apply lookup_seq in Hx as [-> Hlt]. simpl in Hfx.
  rewrite (ProbeFacts.cg_initial_slot_value hash kbits hash_range (capacity_ v) G
             G_pos G_small capacity_range two_windows (Z.of_nat r) (fst pair))
    in Hfx by lia.
  simpl in Hfx. inversion Hfx; subst s.
  apply (ProbeFacts.spec_initial_index_ok hash kbits hash_range (capacity_ v) G
           G_pos G_small capacity_range two_windows whole_windows). lia.
Qed.

(** X13: the group-cooperative insert never leaves the slot array and
    never gets stuck.  Take a table of whole windows, at least two of them,
    with as many slots as its capacity says, and groups that have just
    entered [insert].  After any interleaving, every load, compare-and-swap
    and store of the next step of any group that has not returned is inside
    the slot array: the step is defined. *)
Theorem insert_stays_in_bounds (sched : list nat) (c0 c : config) (t : nat) (g : group) :
  Z.of_nat (length (slots_ c0)) = capacity_ v ->
  entered hash kbits v G c0 ->
  run v sched c0 = Some c ->
  groups c !! t = Some g ->
  at_ g <> Returned ->
  Z.of_nat (length (slots_ c)) = capacity_ v /\
  exists c', step_at v t c = Some c'.
Proof using All.
  intros Hlen Hent Hrun Hg Hnr.
  assert (Hb0 : in_bounds v c0).
  { split; [exact Hlen |]. intros u gu Hu.
    destruct (Hent _ _ Hu) as [pair Hp]. eapply enter_in_bounds; eauto. }
  destruct (in_bounds_run _ _ _ Hb0 Hrun) as [Hl Hgroups].
  split; [exact Hl |].
  destruct (group_step_defined (slots_ c) g Hl (Hgroups _ _ Hg) Hnr) as [[sl g'] Hstep].
  eexists. eapply InsertRunFacts.step_at_eq; eauto.
Qed.

End Geometry.

End InsertBoundsFacts.

(** * Collisions of the identity hash *)

Module IdentityHashMoreFacts.

Import IdentityHash IdentityHashFacts.

Lemma lxor_cancel_r a b s : Z.lxor a s = Z.lxor b s <-> a = b.
Proof.
  split; [| now intros ->]. intros H.
  assert (Ha : a = Z.lxor (Z.lxor a s) s)
    by now rewrite Z.lxor_assoc, Z.lxor_nilpotent, Z.lxor_0_r.
  rewrite Ha, H. now rewrite Z.lxor_assoc, Z.lxor_nilpotent, Z.lxor_0_r.
Qed.

Lemma high_bits_zero n a i : 0 <= a < 2 ^ n -> n <= i -> Z.testbit a i = false.
Proof.
  intros Ha Hi. destruct (Z.le_gt_cases 0 n) as [Hn | Hn].
  - rewrite <- (Z.mod_small a (2 ^ n)) by lia. apply Z.mod_pow2_bits_high. lia.
  - rewrite Z.pow_neg_r in Ha by lia. lia.
Qed.

Lemma lxor_range n a b :
  0 <= n -> 0 <= a < 2 ^ n -> 0 <= b < 2 ^ n -> 0 <= Z.lxor a b < 2 ^ n.
Proof.
  intros Hn Ha Hb.
  assert (H : Z.lxor a b = Z.lxor a b mod 2 ^ n).
  { apply Z.bits_inj'. intros i Hi.
    destruct (Z.lt_ge_cases i n) as [Hlt | Hge].
    - now rewrite Z.mod_pow2_bits_low.
    - rewrite Z.mod_pow2_bits_high by lia.
      now rewrite Z.lxor_spec, (high_bits_zero n a), (high_bits_zero n b). }
  rewrite H. apply Z.mod_pos_bound. apply Z.pow_pos_nonneg; lia.
Qed.

Lemma land_pow2 k n :
  0 <= n -> Z.land k (2 ^ n) = if Z.testbit k n then 2 ^ n else 0.
Proof.
  intros Hn. apply Z.bits_inj'. intros i Hi.
  rewrite Z.land_spec, Z.pow2_bits_eqb by lia.
  destruct (Z.eqb_spec n i) as [<- | Hne].
  - destruct (Z.testbit k n); [now rewrite Z.pow2_bits_true | now rewrite Z.bits_0].
  - rewrite andb_false_r.
    destruct (Z.testbit k n); [now rewrite Z.pow2_bits_false | now rewrite Z.bits_0].
Qed.

Lemma land_pow2_eq k1 k2 n :
  0 <= n ->
  Z.land k1 (2 ^ n) = Z.land k2 (2 ^ n) <-> Z.testbit k1 n = Z.testbit k2 n.
Proof.
  intros Hn. rewrite !land_pow2 by assumption.
  assert (0 < 2 ^ n) by (apply Z.pow_pos_nonneg; lia).
  destruct (Z.testbit k1 n), (Z.testbit k2 n); split; intros; (reflexivity || lia || discriminate).
Qed.

Section WithLoadChunk.

Variable load_chunk : nat -> list Z -> Z -> option Z.

Hypothesis load_chunk_first :
  forall w bytes, (w <= length bytes)%nat ->
    load_chunk w bytes 0 = Some (bytes_value (take w bytes)).

(** X14: [IdentityHash_32] is a perfect hash of 4-byte keys.  For any
    seed below 2^32 the hash of a 4-byte key is a 32-bit number, and two
    4-byte keys have the same hash only when they are the same key. *)
Theorem identity_hash_32_perfect (seed k1 k2 : Z) :
  0 <= seed < 2 ^ 32 -> 0 <= k1 < 2 ^ 32 -> 0 <= k2 < 2 ^ 32 ->
  (exists h, IdentityHash_32 load_chunk seed 4 k1 = Some h /\ 0 <= h < 2 ^ 32) /\
  (IdentityHash_32 load_chunk seed 4 k1 = IdentityHash_32 load_chunk seed 4 k2
   <-> k1 = k2).
Proof using load_chunk_first.
  intros Hs H1 H2.
  rewrite !(hash_32_of_4_bytes load_chunk load_chunk_first) by assumption. split.
  - eexists. split; [reflexivity |]. now apply lxor_range.
  - split; [| now intros ->]. intros H. inversion H as [H'].
    now apply lxor_cancel_r in H'.
Qed.

(** X15: [IdentityHash_64] reads the first eight bytes of a key and no
    more.  For a key type of eight bytes or more, two keys have the same
    hash exactly when they agree modulo 2^64; in particular the hash is
    injective on 8-byte keys, and keys of a wider type that differ only
    beyond their first eight bytes always collide. *)
Theorem identity_hash_64_low_bytes (seed : Z) (size : nat) (k1 k2 : Z) :
  (8 <= size)%nat ->
  (IdentityHash_64 load_chunk seed size k1 = IdentityHash_64 load_chunk seed size k2
   <-> k1 mod 2 ^ 64 = k2 mod 2 ^ 64).
Proof using load_chunk_first.
  intros Hs.
  rewrite !(hash_64_of_wide load_chunk load_chunk_first) by assumption.
  split.
  - intros H. inversion H as [H']. now apply lxor_cancel_r in H'.
  - now intros ->.
Qed.

(** X16: for key types narrower than the hash, one bit of the key decides
    the hash.  Two keys of 1 to 3 bytes have the same [IdentityHash_32]
    exactly when they agree in bit [size]; two keys of 1 to 7 bytes have
    the same [IdentityHash_64] exactly when they agree in bit [size' - 1].
    So each of these hash functions takes at most two values. *)
Theorem narrow_keys_collide (seed : Z) (size size' : nat) (k1 k2 : Z) :
  (1 <= size < 4)%nat -> (1 <= size' < 8)%nat ->
  (IdentityHash_32 load_chunk seed size k1 = IdentityHash_32 load_chunk seed size k2
   <-> Z.testbit k1 (Z.of_nat size) = Z.testbit k2 (Z.of_nat size)) /\
  (IdentityHash_64 load_chunk seed size' k1 = IdentityHash_64 load_chunk seed size' k2
   <-> Z.testbit k1 (Z.of_nat size' - 1) = Z.testbit k2 (Z.of_nat size' - 1)).
Proof using Type.
  intros Hs Hs'. split.
  - rewrite !(hash_32_of_narrow load_chunk) by lia.
    rewrite <- land_pow2_eq by lia. split.
    + intros H. inversion H as [H']. now apply lxor_cancel_r in H'.
    + now intros ->.
  - rewrite !(hash_64_of_narrow load_chunk) by lia.
    rewrite <- land_pow2_eq by lia. split.
    + intros H. inversion H as [H']. now apply lxor_cancel_r in H'.
    + now intros ->.
Qed.

End WithLoadChunk.

Section ChunkIndex.

Variable load_chunk : nat -> list Z -> Z -> option Z.

(** [load_chunk] counts its index in chunks, and no chunk lies outside
    the object. *)
Hypothesis load_chunk_outside :
  forall (w : nat) bytes index,
    0 <= index -> (length bytes < (Z.to_nat index + 1) * w)%nat ->
    load_chunk w bytes index = None.

(** X17: [IdentityHash_32] has no value for a key type wider than four
    bytes.  [compute_hash] hands the byte offset [size - 4] to [load_chunk]
    as the index of a 4-byte chunk; when the index counts chunks, that chunk
    begins at byte [4 * (size - 4)] and ends beyond the object for every
    [size] above 4. *)
Theorem identity_hash_32_wide_keys (seed : Z) (size : nat) (key : Z) :
  (4 < size)%nat ->
  IdentityHash_32 load_chunk seed size key = None.
Proof using load_chunk_outside.
  intros Hs. unfold IdentityHash_32, compute_hash_32.
  destruct (Z.leb_spec 4 (Z.of_nat size)); [| lia].
  rewrite load_chunk_outside; [reflexivity | lia |].
  rewrite key_bytes_length. lia.
Qed.

End ChunkIndex.

Lemma load_chunk_memcpy_outside (w : nat) bytes index :
  0 <= index -> (length bytes < (Z.to_nat index + 1) * w)%nat ->
  load_chunk_memcpy w bytes index = None.
Proof.
  intros Hi Hlen. unfold load_chunk_memcpy.
  destruct (Z.ltb_spec index 0); [lia |]. simpl.
  rewrite length_take, length_drop.
  destruct (Nat.eqb_spec (w `min` (length bytes - Z.to_nat index * w)) w) as [E | E];
    [| reflexivity].
  exfalso. lia.
Qed.

Lemma identity_hash_32_wide_keys_witness :
  IdentityHash_32 load_chunk_memcpy 0 8 77 = None.
Proof.
  apply (identity_hash_32_wide_keys load_chunk_memcpy load_chunk_memcpy_outside 0 8 77).
  lia.
Defined.

Lemma identity_hash_32_perfect_witness :
  (exists h, IdentityHash_32 load_chunk_memcpy 5 4 77 = Some h /\ 0 <= h < 2 ^ 32) /\
  (IdentityHash_32 load_chunk_memcpy 5 4 77 = IdentityHash_32 load_chunk_memcpy 5 4 78
   <-> 77 = 78).
Proof.
  apply (identity_hash_32_perfect load_chunk_memcpy load_chunk_memcpy_first 5 77 78); lia.
Defined.

Lemma identity_hash_64_low_bytes_witness :
  IdentityHash_64 load_chunk_memcpy 5 16 77 =
    IdentityHash_64 load_chunk_memcpy 5 16 (77 + 2 ^ 64)
  <-> 77 mod 2 ^ 64 = (77 + 2 ^ 64) mod 2 ^ 64.
Proof.
  apply (identity_hash_64_low_bytes load_chunk_memcpy load_chunk_memcpy_first 5 16
           77 (77 + 2 ^ 64)).
  lia.
Defined.

Lemma narrow_keys_collide_witness :
  (IdentityHash_32 load_chunk_memcpy 0 2 1 = IdentityHash_32 load_chunk_memcpy 0 2 3
   <-> Z.testbit 1 (Z.of_nat 2) = Z.testbit 3 (Z.of_nat 2)) /\
  (IdentityHash_64 load_chunk_memcpy 0 5 1 = IdentityHash_64 load_chunk_memcpy 0 5 3
   <-> Z.testbit 1 (Z.of_nat 5 - 1) = Z.testbit 3 (Z.of_nat 5 - 1)).
Proof.
  apply (narrow_keys_collide load_chunk_memcpy 0 2 5 1 3); lia.
Defined.

End IdentityHashMoreFacts.

(** * The identity hash over all key widths *)

Module IdentityHashWidthFacts.

Import IdentityHash IdentityHashFacts.

Section WithLoadChunk.

Variable load_chunk : nat -> list Z -> Z -> option Z.

(** [load_chunk<T>(bytes, index)] copies the [sizeof(T)] bytes of chunk
    number [index]: chunk 0 is the first [w] bytes of the object, and a
    chunk that ends beyond the object is not there to be read. *)
Hypothesis load_chunk_first :
  forall w bytes, (w <= length bytes)%nat ->
    load_chunk w bytes 0 = Some (bytes_value (take w bytes)).
Hypothesis load_chunk_outside :
  forall (w : nat) bytes index,
    0 <= index -> (length bytes < (Z.to_nat index + 1) * w)%nat ->
    load_chunk w bytes index = None.

(** C8: the identity hashes return bits of the key's object
    representation, exclusive-or the seed, on every key type but one kind.
    On a key as wide as the result (4 bytes for [IdentityHash_32], 8 bytes
    for [IdentityHash_64]) that is the whole bit pattern, so with seed 0 the
    key itself; on a narrower key it is one bit of the first byte;
    [IdentityHash_64] truncates a wider key to its low 64 bits.
    [IdentityHash_32] on a key wider than 4 bytes returns no bits of the
    key: it hands the byte offset [size - 4] to [load_chunk] as a chunk
    index and so reads beyond the object, where [IdentityHash_64], which
    computes the same offset, loads chunk 0. *)
Theorem identity_hash_32_reads_past_key :
  (forall seed key, 0 <= key < 2 ^ 64 ->
     IdentityHash_32 load_chunk seed 8 key = None /\
     IdentityHash_64 load_chunk seed 8 key = Some (Z.lxor key seed)) /\
  (forall seed (size : nat) key, (4 < size)%nat ->
     IdentityHash_32 load_chunk seed size key = None) /\
  (forall seed key, 0 <= key < 2 ^ 32 ->
     IdentityHash_32 load_chunk seed 4 key = Some (Z.lxor key seed)) /\
  (forall key, 0 <= key < 2 ^ 32 ->
     IdentityHash_32 load_chunk 0 4 key = Some key) /\
  (forall key, 0 <= key < 2 ^ 64 ->
     IdentityHash_64 load_chunk 0 8 key = Some key) /\
  (forall seed (size : nat) key, (1 <= size < 4)%nat ->
     IdentityHash_32 load_chunk seed size key =
       Some (Z.lxor (Z.land key (2 ^ Z.of_nat size)) seed)) /\
  (forall seed (size : nat) key, (1 <= size < 8)%nat ->
     IdentityHash_64 load_chunk seed size key =
       Some (Z.lxor (Z.land key (2 ^ (Z.of_nat size - 1))) seed)) /\
  (forall seed (size : nat) key, (8 <= size)%nat ->
     IdentityHash_64 load_chunk seed size key =
       Some (Z.lxor (key mod 2 ^ 64) seed)).
Proof using load_chunk_first load_chunk_outside.
  assert (Hwide : forall seed (size : nat) key, (4 < size)%nat ->
            IdentityHash_32 load_chunk seed size key = None).
  { intros seed size key Hs. unfold IdentityHash_32, compute_hash_32.
    destruct (Z.leb_spec 4 (Z.of_nat size)); [| lia].
    rewrite load_chunk_outside; [reflexivity | lia |].
    rewrite key_bytes_length. lia. }
  split.
  { intros seed key Hk. split; [apply Hwide; lia |].
    rewrite (hash_64_of_wide load_chunk load_chunk_first) by lia.
    now rewrite Z.mod_small. }
  split; [exact Hwide |].
  split; [exact (hash_32_of_4_bytes load_chunk load_chunk_first) |].
  split.
  { intros key Hk.
    now rewrite (hash_32_of_4_bytes load_chunk load_chunk_first), Z.lxor_0_r. }
  split.
  { intros key Hk. rewrite (hash_64_of_wide load_chunk load_chunk_first) by lia.
    now rewrite Z.lxor_0_r, Z.mod_small. }
  split; [exact (hash_32_of_narrow load_chunk) |].
  split; [exact (hash_64_of_narrow load_chunk) |].
  exact (hash_64_of_wide load_chunk load_chunk_first).
Qed.

End WithLoadChunk.

Lemma identity_hash_32_reads_past_key_witness :
  IdentityHash_32 load_chunk_memcpy 0 8 77 = None /\
  IdentityHash_64 load_chunk_memcpy 0 8 77 = Some (Z.lxor 77 0) /\
  IdentityHash_32 load_chunk_memcpy 0 4 77 = Some 77 /\
  IdentityHash_32 load_chunk_memcpy 5 2 7 = Some (Z.lxor (Z.land 7 (2 ^ Z.of_nat 2)) 5).
Proof.
  destruct (identity_hash_32_reads_past_key load_chunk_memcpy load_chunk_memcpy_first
              IdentityHashMoreFacts.load_chunk_memcpy_outside)
    as (Hbug & _ & _ & H4 & _ & Hnarrow & _).
  destruct (Hbug 0 77 ltac:(lia)) as [H32 H64].
  split; [exact H32 |]. split; [exact H64 |].
  split; [apply H4; lia | apply Hnarrow; lia].
Defined.

End IdentityHashWidthFacts.

(** * The copy loop of [make_copy] *)

Module MakeCopyFacts.

Import MakeCopy StorageFacts.

Lemma same_residue (G i j : Z) :
  0 < G -> i <= j < i + G -> j mod G = i mod G -> j = i.
Proof.
  intros HG Hr Hm.
  assert (H : (j - i) mod G = 0) by (rewrite Zminus_mod, Hm, Z.sub_diag; apply Z.mod_0_l; lia).
  rewrite Z.mod_small in H by lia. lia.
Qed.

Section Copy.

Variables (slots_ptr memory : list slot) (capacity : Z) (size : nat).

Hypothesis size_pos : (0 < size)%nat.
Hypothesis no_wrap : capacity + Z.of_nat size <= 2 ^ 64.

Local Abbreviation G := (Z.of_nat size).

Local Abbreviation copying := (MakeCopy.copying slots_ptr memory capacity size).

Lemma copying_start : copying (start memory size).
Proof using size_pos.
  unfold MakeCopy.copying, start. cbn [next_i memory_to_use].
  split; [now rewrite length_map, length_seq |]. split; [reflexivity |].
  split; [| reflexivity].
  intros r i Hr. rewrite list_lookup_fmap in Hr.
  destruct (seq 0 size !! r) as [r' |] eqn:Hseq; [| discriminate].
  apply lookup_seq in Hseq as [-> Hlt]. simpl in Hr. inversion Hr; subst i.
  split; [lia |]. split; [apply Z.mod_small; lia |].
  intros j Hj _ Hm. rewrite Z.mod_small in Hm by lia. lia.
Qed.

Lemma copying_step r st st' :
  copying st -> lane_step slots_ptr capacity size r st = Some st' -> copying st'.
Proof using size_pos no_wrap.
  intros (Hlen & Hmem & Hlanes & Hrest) Hstep. unfold lane_step in Hstep.
  destruct (next_i st !! r) as [i |] eqn:Hi; [| discriminate].
  destruct (Z.ltb_spec i capacity) as [Hlt | Hge];
    [| inversion Hstep; subst st'; exact (conj Hlen (conj Hmem (conj Hlanes Hrest)))].
  destruct (Storage.load slots_ptr i) as [s |] eqn:Hs; [| discriminate].
  destruct (Storage.load (memory_to_use st) i) as [d |] eqn:Hd; [| discriminate].
  inversion Hstep; subst st'. clear Hstep. unfold MakeCopy.copying.
  cbn [next_i memory_to_use]. rewrite slot_eta.
  destruct (Hlanes r i Hi) as (Hi0 & Him & Hdone).
  assert (Hu : u64 (i + G) = i + G) by (apply u64_small; lia).
  pose proof (lookup_lt_Some _ _ _ Hi) as Hrlt.
  split; [now rewrite length_insert |].
  split; [unfold Storage.store; now rewrite length_insert |].
  split.
  - intros r' i' Hr'.
    destruct (decide (r' = r)) as [-> | Hne].
    + rewrite list_lookup_insert_eq in Hr' by assumption.
      inversion Hr'; subst i'. rewrite Hu.
      split; [lia |].
      split; [rewrite <- Him, <- (Z.mod_add i 1 G) by lia; f_equal; lia |].
      intros j Hj Hjc Hjm.
      destruct (Z.lt_ge_cases j i) as [Hji | Hij].
      * destruct (Hdone j ltac:(lia) Hjc Hjm) as (s' & Hs' & Hm').
        exists s'. split; [assumption |].
        rewrite load_store_ne by lia. assumption.
      * assert (j = i) by (apply (same_residue G); lia). subst j.
        exists s. split; [assumption |]. eapply load_store_eq; eauto.
    + rewrite list_lookup_insert_ne in Hr' by congruence.
      destruct (Hlanes r' i' Hr') as (Hi0' & Him' & Hdone').
      split; [assumption |]. split; [assumption |].
      intros j Hj Hjc Hjm.
      destruct (Hdone' j Hj Hjc Hjm) as (s' & Hs' & Hm').
      exists s'. split; [assumption |].
      rewrite load_store_ne; [assumption | assumption |].
      intros ->. apply Hne. apply Nat2Z.inj. congruence.
  - intros j Hj. rewrite load_store_ne by lia. now apply Hrest.
Qed.

Lemma copying_run sched : forall st st',
  copying st -> run slots_ptr capacity size sched st = Some st' -> copying st'.
Proof using size_pos no_wrap.
  induction sched as [| r rest IH]; intros st st' Hc Hrun; simpl in Hrun.
  - now inversion Hrun; subst.
  - destruct (lane_step slots_ptr capacity size r st) as [st1 |] eqn:E; [| discriminate].
    eapply IH; [eapply copying_step |]; eauto.
Qed.

(** X18: the strided loop of [make_copy] copies the table, whatever the
    order in which the lanes run.  Once every lane has left the loop, each
    of the first [capacity] slots of the destination holds what the source
    holds there, and the destination is unchanged beyond them. *)
Theorem make_copy_copies (sched : list nat) (st : copy_state) :
  run slots_ptr capacity size sched (start memory size) = Some st ->
  synced capacity st ->
  length (memory_to_use st) = length memory /\
  (forall j, 0 <= j < capacity ->
     exists s, Storage.load slots_ptr j = Some s /\
               Storage.load (memory_to_use st) j = Some s) /\
  (forall j, capacity <= j ->
     Storage.load (memory_to_use st) j = Storage.load memory j).
Proof using size_pos no_wrap.
  intros Hrun Hsync.
  destruct (copying_run _ _ _ copying_start Hrun) as (Hlen & Hmem & Hlanes & Hrest).
  split; [exact Hmem |]. split; [| exact Hrest].
  intros j Hj.
  assert (Hr : (Z.to_nat (j mod G) < length (next_i st))%nat).
  { rewrite Hlen. pose proof (Z.mod_pos_bound j G ltac:(lia)). lia. }
  destruct (lookup_lt_is_Some_2 _ _ Hr) as [i Hi].
  destruct (Hlanes _ _ Hi) as (_ & _ & Hdone).
  unfold synced in Hsync. rewrite Forall_lookup in Hsync.
  pose proof (Hsync _ _ Hi) as Hci. simpl in Hci.
  apply Hdone; [lia | lia |].
  pose proof (Z.mod_pos_bound j G ltac:(lia)). lia.
Qed.

(** X19: the copy loop of [make_copy] has no undefined step.  When source
    and destination have at least [capacity] slots, every iteration of every
    lane reads inside the source and writes inside the destination, in
    whatever order the lanes of the group run. *)
Theorem make_copy_never_faults (sched : list nat) :
  capacity <= Z.of_nat (length slots_ptr) ->
  capacity <= Z.of_nat (length memory) ->
  Forall (fun r => (r < size)%nat) sched ->
  exists st, run slots_ptr capacity size sched (start memory size) = Some st.
Proof using size_pos no_wrap.
  intros Hsrc Hmem Hranks.
  assert (H : forall st, copying st ->
            exists st', run slots_ptr capacity size sched st = Some st').
  { induction Hranks as [| r rest Hr _ IH]; intros st Hc; [now exists st |].
    cbn [run].
    assert (Hstep : exists st1, lane_step slots_ptr capacity size r st = Some st1).
    { destruct Hc as (Hlen & Hm & Hlanes & _). unfold lane_step.
      destruct (lookup_lt_is_Some_2 (next_i st) r ltac:(lia)) as [i Hi].
      rewrite Hi. destruct (Hlanes r i Hi) as (Hi0 & _).
      destruct (Z.ltb_spec i capacity); [| eauto].
      unfold Storage.load. destruct (Z.ltb_spec i 0); [lia |].
      destruct (lookup_lt_is_Some_2 slots_ptr (Z.to_nat i) ltac:(lia)) as [s ->].
      destruct (lookup_lt_is_Some_2 (memory_to_use st) (Z.to_nat i) ltac:(lia)) as [d ->].
      eauto. }
    destruct Hstep as [st1 Hstep]. rewrite Hstep.
    apply IH. eapply copying_step; eauto. }
  apply H. apply copying_start.
Qed.

End Copy.

Section InOrder.

Variables (slots_ptr memory : list slot) (capacity : nat) (size : nat).

Hypothesis size_pos : (0 < size)%nat.
Hypothesis no_wrap : Z.of_nat capacity + Z.of_nat size <= 2 ^ 64.
Hypothesis source_length : (capacity <= length slots_ptr)%nat.
Hypothesis memory_length : (capacity <= length memory)%nat.

Local Abbreviation G := (Z.of_nat size).

Lemma copied_start : copied_up_to slots_ptr memory size 0 (start memory size).
Proof using All.
  unfold copied_up_to, start. cbn [next_i memory_to_use].
  split; [now rewrite take_0, drop_0 |].
  split; [now rewrite length_map, length_seq |].
  intros r i Hr. rewrite list_lookup_fmap in Hr.
  destruct (seq 0 size !! r) as [r' |] eqn:Hseq; [| discriminate].
  apply lookup_seq in Hseq as [-> Hlt]. simpl in Hr. inversion Hr; subst i.
  split; [lia |]. apply Z.mod_small; lia.
Qed.

Lemma copied_step n st :
  (n < capacity)%nat ->
  copied_up_to slots_ptr memory size n st ->
  exists st', lane_step slots_ptr (Z.of_nat capacity) size (n mod size) st = Some st' /\
              copied_up_to slots_ptr memory size (S n) st'.
Proof using All.
  intros Hn (Hmem & Hlen & Hlanes).
  assert (Hrn : (n mod size < size)%nat) by (apply Nat.mod_upper_bound; lia).
  destruct (lookup_lt_is_Some_2 (next_i st) (n mod size)) as [i Hi]; [lia |].
  destruct (Hlanes _ _ Hi) as [Hrange Hm].
  assert (i = Z.of_nat n).
  { apply (same_residue G); [lia | lia |]. rewrite Hm. apply Nat2Z.inj_mod. }
  subst i.
  destruct (lookup_lt_is_Some_2 slots_ptr n) as [s Hs]; [lia |].
  destruct (lookup_lt_is_Some_2 memory n) as [d Hd]; [lia |].
  assert (Hmn : memory_to_use st !! n = Some d).
  { rewrite Hmem, lookup_app_r by (rewrite length_take; lia).
    rewrite length_take, Nat.min_l, Nat.sub_diag by lia.
    rewrite lookup_drop, Nat.add_0_r. exact Hd. }
  unfold lane_step. rewrite Hi.
  destruct (Z.ltb_spec (Z.of_nat n) (Z.of_nat capacity)); [| lia].
  unfold Storage.load.
  destruct (Z.ltb_spec (Z.of_nat n) 0); [lia |].
  rewrite Nat2Z.id, Hs, Hmn. eexists. split; [reflexivity |].
  unfold copied_up_to. cbn [next_i memory_to_use].
  split; [| split].
  - rewrite slot_eta. unfold Storage.store. rewrite Nat2Z.id, Hmem.
    rewrite insert_app_r_alt by (rewrite length_take; lia).
    rewrite length_take, Nat.min_l, Nat.sub_diag by lia.
    rewrite (drop_S _ _ _ Hd), (take_S_r _ _ _ Hs). cbn [insert list_insert].
    now rewrite <- app_assoc.
  - now rewrite length_insert.
  - intros r i Hr.
    destruct (decide (r = n mod size)%nat) as [-> | Hne].
    + rewrite list_lookup_insert_eq in Hr by lia. inversion Hr; subst i.
      rewrite u64_small by lia.
      split; [lia |].
      rewrite <- Hm, <- (Z.mod_add (Z.of_nat n) 1 G) by lia. f_equal. lia.
    + rewrite list_lookup_insert_ne in Hr by congruence.
      destruct (Hlanes _ _ Hr) as [Hrange' Hm']. split; [| exact Hm'].
      assert (i <> Z.of_nat n); [| lia].
      intros ->. apply Hne. apply Nat2Z.inj. congruence.
Qed.

Lemma copied_run m : forall n st,
  (n + m <= capacity)%nat ->
  copied_up_to slots_ptr memory size n st ->
  exists st',
    run slots_ptr (Z.of_nat capacity) size (map (fun j => j mod size)%nat (seq n m)) st
      = Some st' /\
    copied_up_to slots_ptr memory size (n + m) st'.
Proof using All.
  induction m as [| m IH]; intros n st Hle Hc.
  - exists st. rewrite Nat.add_0_r. auto.
  - destruct (copied_step n st ltac:(lia) Hc) as (st1 & Hstep & Hc1).
    destruct (IH (S n) st1 ltac:(lia) Hc1) as (st' & Hrun & Hc').
    exists st'. cbn [seq map run]. rewrite Hstep.
    split; [exact Hrun |]. now replace (n + S m)%nat with (S n + m)%nat by lia.
Qed.

(** X20: the copy loop of [make_copy] comes to its end.  When source and
    destination have at least [capacity] slots, the lanes taking turns in
    the order of the slots all leave the loop after [capacity] iterations,
    and the destination then is the first [capacity] slots of the source
    followed by what the destination held beyond them. *)
Theorem make_copy_in_order :
  exists st,
    run slots_ptr (Z.of_nat capacity) size (in_order capacity size) (start memory size)
      = Some st /\
    synced (Z.of_nat capacity) st /\
    memory_to_use st = take capacity slots_ptr ++ drop capacity memory.
Proof using All.
  destruct (copied_run capacity 0 (start memory size) ltac:(lia) copied_start)
    as (st & Hrun & Hmem & Hlen & Hlanes).
  exists st. split; [exact Hrun |]. split; [| exact Hmem].
  unfold synced. rewrite Forall_lookup. intros r i Hi.
  destruct (Hlanes _ _ Hi) as [Hrange _]. simpl in Hrange. lia.
Qed.

End InOrder.

Lemma make_copy_copies_witness :
  run ExampleMore.full8 8 2 (in_order 8 2) (start ExampleInsert.busy_slots 2) =
    Some (CopyState ExampleMore.full8 [8; 9]) /\
  length (memory_to_use (CopyState ExampleMore.full8 [8; 9])) =
    length ExampleInsert.busy_slots /\
  (forall j, 0 <= j < 8 ->
     exists s, Storage.load ExampleMore.full8 j = Some s /\
               Storage.load (memory_to_use (CopyState ExampleMore.full8 [8; 9])) j
                 = Some s) /\
  (forall j, 8 <= j ->
     Storage.load (memory_to_use (CopyState ExampleMore.full8 [8; 9])) j =
       Storage.load ExampleInsert.busy_slots j).
Proof.
  split; [vm_compute; reflexivity |].
  apply (make_copy_copies ExampleMore.full8 ExampleInsert.busy_slots 8 2
           ltac:(lia) ltac:(lia) (in_order 8 2)).
  - vm_compute. reflexivity.
  - repeat constructor; lia.
Defined.

Lemma make_copy_never_faults_witness :
  exists st,
    run ExampleMore.full8 8 2 [1; 1; 0; 1; 0]%nat (start ExampleInsert.busy_slots 2)
      = Some st.
Proof.
  apply (make_copy_never_faults ExampleMore.full8 ExampleInsert.busy_slots 8 2
           ltac:(lia) ltac:(lia) [1; 1; 0; 1; 0]%nat).
  - simpl. lia.
  - simpl. lia.
  - repeat constructor.
Defined.

Lemma make_copy_in_order_witness :
  exists st,
    run ExampleMore.full8 (Z.of_nat 6) 4 (in_order 6 4)
        (start ExampleInsert.busy_slots 4) = Some st /\
    synced (Z.of_nat 6) st /\
    memory_to_use st = take 6 ExampleMore.full8 ++ drop 6 ExampleInsert.busy_slots.
Proof.
  apply (make_copy_in_order ExampleMore.full8 ExampleInsert.busy_slots 6 4);
    simpl; lia.
Defined.

End MakeCopyFacts.

Module InsertBoundsExamples.

Import Insert InsertRun ExampleInsert.

Lemma c0_entered : entered Example.hash32 32 v8 2 c0.
Proof.
  intros t g H. destruct t as [| [| t]]; simpl in H; inversion H; subst.
  - exists (1, 10). vm_compute. reflexivity.
  - exists (5, 20). vm_compute. reflexivity.
Qed.

Lemma insert_stays_in_bounds_witness :
  run v8 [0; 1; 0; 1; 0]%nat c0 = Some (after [0; 1; 0; 1; 0]%nat c0) /\
  Z.of_nat (length (slots_ (after [0; 1; 0; 1; 0]%nat c0))) = capacity_ v8 /\
  exists c', step_at v8 1 (after [0; 1; 0; 1; 0]%nat c0) = Some c'.
Proof.
  split; [vm_compute; reflexivity |].
  apply (InsertBoundsFacts.insert_stays_in_bounds Example.hash32 32
           ProbeFacts.hash32_range v8 2 ltac:(lia) ltac:(lia)
           ltac:(simpl; lia) ltac:(vm_compute; discriminate) ltac:(reflexivity)
           [0; 1; 0; 1; 0]%nat c0 (after [0; 1; 0; 1; 0]%nat c0) 1
           (group_of 1 (after [0; 1; 0; 1; 0]%nat c0))).
  - reflexivity.
  - exact c0_entered.
  - vm_compute. reflexivity.
  - vm_compute. reflexivity.
  - vm_compute. discriminate.
Defined.

End InsertBoundsExamples.

(** * The table a bulk insert builds *)

Module GroupTableFacts.

Import Insert InsertRun GroupTable StorageFacts StepFacts ProtocolFacts.

Lemma cg_probe_snoc cap step : forall (n : nat) s,
  Probe.cg_probe cap step s (S n) =
    match Probe.cg_probe cap step s n with
    | Some s' => Probe.cg_next_slot cap step s'
    | None => None
    end.
Proof.
  induction n as [| n IH]; intros s.
  - simpl. now destruct (Probe.cg_next_slot cap step s).
  - change (Probe.cg_probe cap step s (S (S n)))
      with (match Probe.cg_next_slot cap step s with
            | Some s1 => Probe.cg_probe cap step s1 (S n)
            | None => None
            end).
    change (Probe.cg_probe cap step s (S n))
      with (match Probe.cg_next_slot cap step s with
            | Some s1 => Probe.cg_probe cap step s1 n
            | None => None
            end).
    destruct (Probe.cg_next_slot cap step s) as [s1 |]; [apply IH | reflexivity].
Qed.

(** One array keeps the keys of another. *)
Lemma step_keeps_keys v t c c' loc a :
  step_at v t c = Some c' ->
  Storage.load (slots_ c) loc = Some a ->
  first a <> empty_key_sentinel_ v ->
  exists a', Storage.load (slots_ c') loc = Some a' /\ first a' = first a.
Proof.
  intros Hstep Ha Hne.
  destruct (InsertRunFacts.step_keeps_length _ _ _ _ Hstep) as [Hl _].
  destruct (InsertRunFacts.load_same_length _ _ _ _ Hl Ha) as [a' Ha'].
  exists a'. split; [exact Ha' |].
  destruct (Z.eq_dec (first a') (first a)) as [| Hd]; [assumption |].
  exfalso. apply Hne. eapply key_written_from_sentinel; eauto.
Qed.

Section Geometry.

Variable hash : Z -> Z.
Variable kbits : Z.
Hypothesis hash_range : forall x, 0 <= hash x < 2 ^ 64.

Variable v : view.
Variable G : Z.
Hypothesis G_pos : 1 <= G.
Hypothesis G_small : 2 * G < 2 ^ 32.
Hypothesis capacity_range : 0 <= capacity_ v < 2 ^ 64.
Hypothesis two_windows : 2 <= capacity_ v / (2 * G).
Hypothesis whole_windows : capacity_ v mod (2 * G) = 0.

Local Abbreviation at_window := (GroupTable.at_window hash kbits v G).
Local Abbreviation on_path := (GroupTable.on_path hash kbits v G).
Local Abbreviation probing := (GroupTable.probing hash kbits v G).
Local Abbreviation built := (GroupTable.built hash kbits v G).
Local Abbreviation step_of := (Probe.code_step_size hash kbits (capacity_ v) G).

Lemma lane_slot_next r k (n : nat) s s' :
  0 <= r < G ->
  Probe.lane_slot hash kbits (capacity_ v) G r k n = Some s ->
  Probe.cg_next_slot (capacity_ v) (step_of k) s = Some s' ->
  Probe.lane_slot hash kbits (capacity_ v) G r k (S n) = Some s'.
Proof using hash_range G_pos G_small capacity_range two_windows.
  intros Hr Hn Hnext. unfold Probe.lane_slot in *.
  rewrite (ProbeFacts.cg_initial_slot_value hash kbits hash_range (capacity_ v) G
             G_pos G_small capacity_range two_windows r k Hr) in *.
  now rewrite cg_probe_snoc, Hn.
Qed.

Lemma at_window_advance k (n : nat) cur cur' :
  at_window k n cur ->
  advance_lanes v (step_of k) cur = Some cur' ->
  at_window k (S n) cur'.
Proof using hash_range G_pos G_small capacity_range two_windows.
  intros [Hlen Hlanes] Hadv.
  pose proof (InsertFacts.advance_lanes_length _ _ _ _ Hadv) as Hl.
  split; [congruence |].
  intros r s' Hr.
  pose proof (lookup_lt_Some _ _ _ Hr) as Hlt.
  destruct (lookup_lt_is_Some_2 cur r ltac:(lia)) as [s Hs].
  destruct (InsertFacts.advance_lanes_lookup _ _ _ _ _ _ Hadv Hs) as (s'' & Hr' & Hnext).
  rewrite Hr in Hr'. inversion Hr'; subst s''.
  eapply lane_slot_next; eauto. lia.
Qed.

Lemma at_window_unique k (n : nat) cur cur' :
  at_window k n cur -> at_window k n cur' -> cur = cur'.
Proof using Type.
  intros [Hl1 H1] [Hl2 H2].
  apply (list_eq_same_length _ _ (Z.to_nat G)); [assumption | assumption |].
  intros i x y _ Hx Hy. apply H1 in Hx. apply H2 in Hy. congruence.
Qed.

(** The lanes computed by [initial_slot] in every lane are window 0. *)
Lemma initial_lanes k cur :
  mapM (fun r : nat =>
          snd <$> Probe.cg_initial_slot hash kbits (capacity_ v) G (Z.of_nat r) k)
       (seq 0 (Z.to_nat G)) = Some cur ->
  at_window k 0 cur.
Proof using Type.
  intros Hm. split.
  - apply length_mapM in Hm. now rewrite length_seq in Hm.
  - intros r s Hr. apply mapM_Some_1 in Hm.
    destruct (Forall2_lookup_r _ _ _ _ _ Hm Hr) as (x & Hx & Hfx).
    apply lookup_seq in Hx as [-> _]. simpl in Hfx.
    unfold Probe.lane_slot.
    destruct (Probe.cg_initial_slot hash kbits (capacity_ v) G (Z.of_nat r) k)
      as [[st s0] |]; simpl in Hfx; [| discriminate].
    now inversion Hfx.
Qed.

Lemma enter_probing slots pair g :
  enter hash kbits v G pair = Some g ->
  probing slots g /\ at_ g = AtLoad /\ insert_pair g = pair.
Proof using hash_range G_pos G_small capacity_range two_windows.
  unfold enter. intros H.
  rewrite (ProbeFacts.cg_initial_slot_value hash kbits hash_range (capacity_ v) G
             G_pos G_small capacity_range two_windows 0 (fst pair)) in H by lia.
  destruct (mapM _ _) as [cur |] eqn:Hm; [| discriminate].
  inversion H; subst g. clear H. simpl.
  split; [| split; reflexivity].
  split; [reflexivity |]. exists 0%nat. simpl.
  split; [now apply initial_lanes |]. split; [| exact I].
  intros m curm Hm0. lia.
Qed.

Lemma start_lanes_window k step cur :
  BulkFind.start_lanes hash kbits v G k = Some (step, cur) ->
  step = step_of k /\ at_window k 0 cur.
Proof using hash_range G_pos G_small capacity_range two_windows.
  unfold BulkFind.start_lanes. intros H.
  rewrite (ProbeFacts.cg_initial_slot_value hash kbits hash_range (capacity_ v) G
             G_pos G_small capacity_range two_windows 0 k) in H by lia.
  destruct (mapM _ _) as [cur0 |] eqn:Hm; [| discriminate].
  inversion H; subst. split; [reflexivity | now apply initial_lanes].
Qed.

Lemma window_full_keeps (slots slots' : list slot) cur :
  (forall loc a, Storage.load slots loc = Some a -> first a <> empty_key_sentinel_ v ->
     exists a', Storage.load slots' loc = Some a' /\ first a' = first a) ->
  window_full v slots cur -> window_full v slots' cur.
Proof using Type.
  intros Hk Hfull r s Hr.
  destruct (Hfull r s Hr) as (a & b & Ha & Hb & Hfa & Hfb).
  destruct (Hk _ _ Ha Hfa) as (a' & Ha' & Ea).
  destruct (Hk _ _ Hb Hfb) as (b' & Hb' & Eb).
  exists a', b'. repeat split; congruence.
Qed.

Lemma on_path_keeps (slots slots' : list slot) k loc :
  (forall loc a, Storage.load slots loc = Some a -> first a <> empty_key_sentinel_ v ->
     exists a', Storage.load slots' loc = Some a' /\ first a' = first a) ->
  on_path slots k loc -> on_path slots' k loc.
Proof using Type.
  intros Hk (n & cur & r & s & Hw & Hr & Hloc & Hfull).
  exists n, cur, r, s.
  split; [exact Hw |]. split; [exact Hr |]. split; [exact Hloc |].
  intros m curm Hm Hwm. eapply window_full_keeps; eauto.
Qed.

(** A vote of zero means a full window. *)
Lemma vote_zero_full slots cur obs :
  window_load v slots cur = Some obs ->
  window_contains_empty obs = 0 ->
  window_full v slots cur.
Proof using Type.
  intros Hload Hz r s Hr.
  destruct (InsertFacts.window_load_lookup _ _ _ _ _ _ Hload Hr) as (o & Ho & Hlane).
  destruct (InsertFacts.lane_load_slots _ _ _ _ Hlane) as (a & b & Ha & Hb & _).
  exists a, b. split; [exact Ha |]. split; [exact Hb |].
  split; intros He; apply (InsertLoopFacts.vote_is_window _ _ _ _ Hload); try exact Hz.
  - exists r, s, s, a. auto.
  - exists r, s, (s + 1), b. auto.
Qed.

Lemma claim_target_in_window cur obs loc :
  claim_target cur obs = Some loc ->
  exists (r : nat) s, cur !! r = Some s /\ (loc = s \/ loc = s + 1).
Proof using Type.
  unfold claim_target.
  destruct (cur !! Z.to_nat (src_lane obs)) as [s |] eqn:Hs; [| discriminate].
  destruct (obs !! Z.to_nat (src_lane obs)) as [o |]; [| discriminate].
  intros H. inversion H; subst loc. exists (Z.to_nat (src_lane obs)), s.
  split; [exact Hs |]. unfold insert_location_of.
  destruct (negb (fst o)); [right | left]; lia.
Qed.

(** The step of a group keeps it on the probe sequence of its key. *)
Lemma probing_step slots g slots' g' :
  (forall loc a, Storage.load slots loc = Some a -> first a <> empty_key_sentinel_ v ->
     exists a', Storage.load slots' loc = Some a' /\ first a' = first a) ->
  probing slots g ->
  group_step v slots g = Some (slots', g') ->
  probing slots' g'.
Proof using hash_range G_pos G_small capacity_range two_windows.
  intros Hk (Hstep & n & Hw & Hfull & Hpos) H.
  pose proof (step_pair _ _ _ _ _ H) as Hpair.
  destruct (InsertRunFacts.step_fields _ _ _ _ _ H) as (Hss & _ & _).
  assert (Hfull' : forall (m : nat) curm, (m < n)%nat ->
            at_window (fst (insert_pair g)) m curm -> window_full v slots' curm).
  { intros m curm Hm Hwm. eapply window_full_keeps; eauto. }
  unfold GroupTable.probing. rewrite Hpair, Hss. split; [exact Hstep |].
  unfold group_step in H.
  destruct (at_ g) as [| loc | loc ks | loc e | loc | st |] eqn:Hat; simpl in Hpos.
  - destruct (window_load v slots (current_slot g)) as [obs |] eqn:Hload;
      [| discriminate].
    destruct (Z.eqb_spec (window_contains_empty obs) 0) as [Hz | Hnz].
    + destruct (advance_lanes v (step_size_ g) (current_slot g)) as [cur' |] eqn:Hadv;
        [| discriminate].
      injection H as <- <-. simpl. rewrite Hat.
      exists (S n). split.
      { eapply at_window_advance; eauto. now rewrite <- Hstep. }
      split; [| exact I].
      intros m curm Hm Hwm.
      destruct (decide (m = n)) as [-> | Hne].
      * rewrite (at_window_unique _ _ _ _ Hwm Hw). eapply vote_zero_full; eauto.
      * apply (Hfull m curm); [lia | exact Hwm].
    + destruct (claim_target (current_slot g) obs) as [loc |] eqn:Hct;
        injection H as _ <-; simpl; exists n;
        (split; [exact Hw |]); (split; [exact Hfull' |]).
      * eapply claim_target_in_window; eauto.
      * exact I.
  - destruct (Storage.load slots loc) as [s |]; [| discriminate].
    destruct (Storage.compare_exchange_strong _ _ _) as [[ok e] k'].
    injection H as _ <-; simpl. exists n.
    split; [exact Hw |]. split; [exact Hfull' | exact I || exact Hpos].
  - destruct (Storage.load slots loc) as [s |]; [| discriminate].
    destruct (Storage.compare_exchange_strong _ _ _) as [[ok e] v'].
    destruct ks, ok; injection H as _ <-; simpl; exists n;
      (split; [exact Hw |]); (split; [exact Hfull' |]); (exact I || exact Hpos).
  - destruct (Storage.load slots loc) as [s |]; [| discriminate].
    destruct (Storage.compare_exchange_strong _ _ _) as [[ok e'] v'].
    destruct ok; injection H as _ <-; simpl; exists n;
      (split; [exact Hw |]); (split; [exact Hfull' |]); (exact I || exact Hpos).
  - destruct (Storage.load slots loc) as [s |]; [| discriminate].
    injection H as _ <-; simpl. exists n.
    split; [exact Hw |]. split; [exact Hfull' | exact I || exact Hpos].
  - destruct st; injection H as _ <-; simpl; exists n;
      (split; [exact Hw |]); (split; [exact Hfull' | exact I]).
  - discriminate.
Qed.

Lemma owner_effect slots g loc s :
  owes_value g loc ->
  Storage.load slots loc = Some s ->
  second s = empty_value_sentinel_ v ->
  effect_of v slots g = Publish loc.
Proof using Type.
  intros Ho Hs Hev. unfold effect_of.
  destruct Ho as [Hat | [e Hat]]; rewrite Hat, Hs, Hev, Z.eqb_refl; reflexivity.
Qed.

(** The invariant is kept by every step. *)
Lemma built_step t c c' :
  safe v c -> built c -> step_at v t c = Some c' -> built c'.
Proof using hash_range G_pos G_small capacity_range two_windows.
  intros Hsafe (Hlen & Hprob & Hprov) Hstep.
  destruct (step_at_inv _ _ _ _ Hstep) as (g0 & g1 & Hg0 & Hgs & Hgroups).
  destruct (InsertRunFacts.step_keeps_length _ _ _ _ Hstep) as [Hl _].
  pose proof (fun loc a => step_keeps_keys v t c c' loc a Hstep) as Hkeys.
  assert (Hg1 : groups c' !! t = Some g1).
  { rewrite Hgroups. apply list_lookup_insert_eq. eapply lookup_lt_Some; eauto. }
  split; [lia |]. split.
  - intros u g Hu. rewrite Hgroups in Hu.
    destruct (lookup_updated _ _ _ _ _ _ Hg0 Hu) as [[_ ->] | [_ Hu']].
    + eapply probing_step; eauto.
    + destruct (Hprob _ _ Hu') as (Hss & n & Hw & Hfull & Hpos).
      split; [exact Hss |]. exists n. split; [exact Hw |]. split; [| exact Hpos].
      intros m curm Hm Hwm. eapply window_full_keeps; eauto.
  - intros loc s' Hs' Hne'.
    destruct (InsertRunFacts.load_same_length (slots_ c') (slots_ c) loc s'
                ltac:(lia) Hs') as [s Hs].
    destruct (Z.eq_dec (first s) (empty_key_sentinel_ v)) as [Hek | Hnek].
    + (* the key of the slot was written by this step *)
      assert (Hclaim : effect_of v (slots_ c) g0 = ClaimKey loc).
      { destruct (effect_of v (slots_ c) g0) as [| l | l | l | l] eqn:E.
        - destruct (step_silent _ _ _ _ _ Hgs E) as (Hsame & _).
          rewrite Hsame, Hs in Hs'. congruence.
        - destruct (step_claim _ _ _ _ _ _ Hgs E) as (_ & _ & s0 & Hs0 & _ & Hsl).
          destruct (decide (loc = l)) as [-> | Hd]; [reflexivity |].
          rewrite Hsl, (load_store_cases _ _ _ _ _ Hs0) in Hs'.
          destruct (decide (loc = l)); [contradiction |]. congruence.
        - destruct (step_publish _ _ _ _ _ _ Hgs E) as (_ & _ & s0 & Hs0 & _ & Hsl).
          rewrite Hsl, (load_store_cases _ _ _ _ _ Hs0) in Hs'.
          destruct (decide (loc = l)) as [-> | Hd]; [| congruence].
          rewrite Hs in Hs0. inversion Hs0; subst s0. inversion Hs'; subst s'.
          contradiction.
        - destruct (step_speculate _ _ _ _ _ _ Hgs E) as (_ & _ & s0 & Hs0 & _ & Hsl).
          rewrite Hsl, (load_store_cases _ _ _ _ _ Hs0) in Hs'.
          destruct (decide (loc = l)) as [-> | Hd]; [| congruence].
          rewrite Hs in Hs0. inversion Hs0; subst s0. inversion Hs'; subst s'.
          contradiction.
        - destruct (step_rollback _ _ _ _ _ _ Hgs E) as (_ & _ & s0 & Hs0 & Hsl).
          rewrite Hsl, (load_store_cases _ _ _ _ _ Hs0) in Hs'.
          destruct (decide (loc = l)) as [-> | Hd]; [| congruence].
          rewrite Hs in Hs0. inversion Hs0; subst s0. inversion Hs'; subst s'.
          contradiction. }
      destruct (step_claim _ _ _ _ _ _ Hgs Hclaim) as (Hat0 & Hat1 & s0 & Hs0 & _ & Hsl).
      rewrite Hsl, (load_store_eq _ _ _ _ Hs0) in Hs'. inversion Hs'; subst s'.
      clear Hs'. simpl in *.
      pose proof (step_pair _ _ _ _ _ Hgs) as Hpair.
      exists t, g1. split; [exact Hg1 |]. split; [now rewrite Hpair |].
      split; [| left; now left].
      destruct (Hprob _ _ Hg0) as (_ & n & Hw & Hfull & Hpos).
      rewrite Hat0 in Hpos. simpl in Hpos. destruct Hpos as (r & sl & Hr & Hloc).
      exists n, (current_slot g0), r, sl.
      split; [exact Hw |]. split; [exact Hr |]. split; [exact Hloc |].
      intros m curm Hm Hwm.
      eapply window_full_keeps; [| eapply Hfull; eauto]. exact Hkeys.
    + (* the key was there before *)
      destruct (Hkeys _ _ Hs Hnek) as (s1 & Hs1 & Hf1).
      rewrite Hs' in Hs1. inversion Hs1; subst s1. clear Hs1.
      destruct (Hprov _ _ Hs Hnek) as (u & g & Hu & Hkey & Hpath & Hval).
      destruct (InsertRunFacts.step_keeps_groups _ _ _ _ _ _ Hstep Hu)
        as (g' & Hu' & Hp' & _ & _ & Hsame).
      exists u, g'. split; [exact Hu' |]. split; [congruence |].
      split; [rewrite Hf1; eapply on_path_keeps; eauto |].
      rewrite Hp'.
      destruct Hval as [Ho | Hset]; [| right; eapply settled_step; eauto].
      destruct (decide (u = t)) as [-> | Hd]; [| left; now rewrite (Hsame Hd)].
      rewrite Hg0 in Hu. inversion Hu; subst g0. clear Hu.
      rewrite Hg1 in Hu'. inversion Hu'; subst g'. clear Hu'.
      destruct (Z.eq_dec (second s) (empty_value_sentinel_ v)) as [Hev | Hnev].
      * right. eapply publish_settles; eauto. eapply owner_effect; eauto.
      * left. rewrite (owner_step _ _ _ _ _ Ho Hs) in Hgs.
        destruct (Z.eqb_spec (second s) (empty_value_sentinel_ v)); [contradiction |].
        inversion Hgs; subst. right. now exists (second s).
Qed.

Lemma built_run sched : forall c c',
  safe v c -> built c -> run v sched c = Some c' -> safe v c' /\ built c'.
Proof using hash_range G_pos G_small capacity_range two_windows.
  induction sched as [| t rest IH]; intros c c' Hs Hb Hrun; simpl in Hrun.
  - inversion Hrun; subst. auto.
  - destruct (step_at v t c) as [c1 |] eqn:E; [| discriminate].
    eapply IH; [eapply safe_step | eapply built_step |]; eauto.
Qed.

(** A fresh table with groups that have just entered [insert]. *)
Lemma built_start c0 :
  slots_ c0 = Storage.empty_slots v ->
  entered hash kbits v G c0 ->
  built c0.
Proof using hash_range G_pos G_small capacity_range two_windows.
  intros Hslots Hent. split; [| split].
  - rewrite Hslots. unfold Storage.empty_slots. rewrite length_replicate. lia.
  - intros t g Hg. destruct (Hent _ _ Hg) as [pair Hp].
    now apply (enter_probing (slots_ c0)) in Hp.
  - intros loc s Hs Hne. exfalso. apply Hne.
    rewrite Hslots in Hs. unfold Storage.load, Storage.empty_slots in Hs.
    destruct (loc <? 0); [discriminate |].
    apply lookup_replicate in Hs as [-> _]. reflexivity.
Qed.

(** Once every group has returned, each key in the table sits on its
    probe sequence, with the value of a group that inserted it. *)
Lemma built_final c loc s :
  built c ->
  (forall t g, groups c !! t = Some g -> at_ g = Returned) ->
  Storage.load (slots_ c) loc = Some s ->
  first s <> empty_key_sentinel_ v ->
  on_path (slots_ c) (first s) loc /\
  exists t g, groups c !! t = Some g /\
    s = Slot (fst (insert_pair g)) (snd (insert_pair g)).
Proof using Type.
  intros (_ & _ & Hprov) Hret Hs Hne.
  destruct (Hprov _ _ Hs Hne) as (t & g & Hg & Hkey & Hpath & Hval).
  split; [exact Hpath |]. exists t, g. split; [exact Hg |].
  destruct Hval as [Ho | (Hload & _)].
  - exfalso. eapply not_owes; [| exact Ho]. right. left. eauto.
  - congruence.
Qed.

End Geometry.

End GroupTableFacts.

(** * The group-cooperative lookup on the table a bulk insert builds *)

Module GroupFindFacts.

Import Insert InsertRun GroupTable BulkFind StorageFacts StepFacts ProtocolFacts.
Import Iter.

Lemma window_slots_length slots cur w :
  window_slots slots cur = Some w -> length w = length cur.
Proof.
  revert w. induction cur as [| s rest IH]; intros w H; simpl in H.
  - now inversion H.
  - destruct (Storage.load slots s); [| discriminate].
    destruct (Storage.load slots (s + 1)); [| discriminate].
    destruct (window_slots slots rest); [| discriminate].
    inversion H; subst. simpl. f_equal. now apply IH.
Qed.

Lemma window_slots_lookup slots cur w (r : nat) s :
  window_slots slots cur = Some w ->
  cur !! r = Some s ->
  exists a b, w !! r = Some (a, b) /\
    Storage.load slots s = Some a /\ Storage.load slots (s + 1) = Some b.
Proof.
  revert w r. induction cur as [| s0 rest IH]; intros w r H Hr; [discriminate |].
  simpl in H.
  destruct (Storage.load slots s0) as [a0 |] eqn:Ea; [| discriminate].
  destruct (Storage.load slots (s0 + 1)) as [b0 |] eqn:Eb; [| discriminate].
  destruct (window_slots slots rest) as [w0 |]; [| discriminate].
  inversion H; subst. destruct r as [| r]; simpl in *.
  - inversion Hr; subst. eauto.
  - eapply IH; eauto.
Qed.

Lemma window_slots_defined slots cur :
  (forall (r : nat) s, cur !! r = Some s ->
     exists a b, Storage.load slots s = Some a /\ Storage.load slots (s + 1) = Some b) ->
  exists w, window_slots slots cur = Some w.
Proof.
  induction cur as [| s rest IH]; intros Hok; simpl; [eauto |].
  destruct (Hok 0%nat s eq_refl) as (a & b & -> & ->).
  destruct IH as [w ->]; [| eauto].
  intros r s' Hr. apply (Hok (S r)). exact Hr.
Qed.

Lemma matches_iff v k a :
  matches v k a = true <-> first a = k /\ k <> empty_key_sentinel_ v.
Proof.
  unfold matches. rewrite andb_true_iff, negb_true_iff, Z.eqb_eq, Z.eqb_neq.
  split; intros [H1 H2]; split; congruence.
Qed.

(** The match vote is the window: it is non-zero exactly when a slot of
    the window holds the key, the key not being the sentinel. *)
Lemma match_vote_is_window v slots k cur w :
  window_slots slots cur = Some w ->
  (window_match v k w <> 0 <->
   k <> empty_key_sentinel_ v /\ window_has_key slots k cur).
Proof.
  intros Hw. unfold window_match. rewrite InsertLoopFacts.ballot_nonzero_iff.
  pose proof (window_slots_length _ _ _ Hw) as Hlen.
  split.
  - intros [r Hr]. rewrite list_lookup_fmap in Hr.
    destruct (w !! r) as [[a b] |] eqn:Ho; [| discriminate]. simpl in Hr.
    destruct (lookup_lt_is_Some_2 cur r) as [s Hs].
    { rewrite <- Hlen. eapply lookup_lt_Some; eauto. }
    destruct (window_slots_lookup _ _ _ _ _ Hw Hs) as (a' & b' & Ho' & Ha & Hb).
    rewrite Ho in Ho'. inversion Ho'; subst a' b'.
    inversion Hr as [Hor]. apply orb_true_iff in Hor as [H | H];
      apply matches_iff in H as [Hk Hne]; (split; [exact Hne |]).
    + exists r, s, s, a. auto.
    + exists r, s, (s + 1), b. auto.
  - intros (Hne & r & s & loc & a & Hs & Hloc & Ha & Hfa).
    destruct (window_slots_lookup _ _ _ _ _ Hw Hs) as (a1 & b1 & Ho & Ha1 & Hb1).
    exists r. rewrite list_lookup_fmap, Ho. simpl. f_equal.
    apply orb_true_iff. destruct Hloc as [-> | ->].
    + left. rewrite Ha in Ha1. inversion Ha1; subst a1. now apply matches_iff.
    + right. rewrite Ha in Hb1. inversion Hb1; subst b1. now apply matches_iff.
Qed.

Lemma empty_vote_is_window v slots cur w :
  window_slots slots cur = Some w ->
  (window_empty v w <> 0 <-> window_has_empty v slots cur).
Proof.
  intros Hw. unfold window_empty. rewrite InsertLoopFacts.ballot_nonzero_iff.
  pose proof (window_slots_length _ _ _ Hw) as Hlen.
  split.
  - intros [r Hr]. rewrite list_lookup_fmap in Hr.
    destruct (w !! r) as [[a b] |] eqn:Ho; [| discriminate]. simpl in Hr.
    destruct (lookup_lt_is_Some_2 cur r) as [s Hs].
    { rewrite <- Hlen. eapply lookup_lt_Some; eauto. }
    destruct (window_slots_lookup _ _ _ _ _ Hw Hs) as (a' & b' & Ho' & Ha & Hb).
    rewrite Ho in Ho'. inversion Ho'; subst a' b'.
    inversion Hr as [Hor]. apply orb_true_iff in Hor as [H | H]; apply Z.eqb_eq in H.
    + exists r, s, s, a. auto.
    + exists r, s, (s + 1), b. auto.
  - intros (r & s & loc & a & Hs & Hloc & Ha & Hfa).
    destruct (window_slots_lookup _ _ _ _ _ Hw Hs) as (a1 & b1 & Ho & Ha1 & Hb1).
    exists r. rewrite list_lookup_fmap, Ho. simpl. f_equal.
    apply orb_true_iff. destruct Hloc as [-> | ->].
    + left. rewrite Ha in Ha1. inversion Ha1; subst a1. now apply Z.eqb_eq.
    + right. rewrite Ha in Hb1. inversion Hb1; subst b1. now apply Z.eqb_eq.
Qed.

(** A key is in the map or it is not. *)
Lemma stored_or_not v (slots : list slot) k :
  (exists x, stored v slots k x) \/ (forall x, ~ stored v slots k x).
Proof.
  destruct (Z.eq_dec k (empty_key_sentinel_ v)) as [Hek | Hne].
  { right. intros x [H _]. contradiction. }
  destruct (list_find (fun s => first s = k) slots) as [[i s] |] eqn:Hfind.
  - apply list_find_Some in Hfind as (Hi & Hk & _).
    left. exists (second s). split; [exact Hne |]. exists (Z.of_nat i).
    unfold Storage.load. destruct (Z.ltb_spec (Z.of_nat i) 0); [lia |].
    now rewrite Nat2Z.id, Hi, <- Hk, slot_eta.
  - apply list_find_None in Hfind. right. intros x (_ & loc & Hload).
    unfold Storage.load in Hload. destruct (loc <? 0); [discriminate |].
    rewrite Forall_lookup in Hfind. now apply (Hfind _ _ Hload).
Qed.

(** A non-zero match vote yields a slot that holds the key. *)
Lemma found_slot_holds v slots k cur w :
  (length cur <= 32)%nat ->
  window_slots slots cur = Some w ->
  window_match v k w <> 0 ->
  exists loc a, found_slot v k cur w = Some loc /\
    Storage.load slots loc = Some a /\ first a = k /\ k <> empty_key_sentinel_ v.
Proof.
  intros Hlanes Hw Hvote.
  pose proof (window_slots_length _ _ _ Hw) as Hlen.
  destruct (BallotFacts.ballot_first
              (map (fun p => matches v k (fst p) || matches v k (snd p)) w))
    as (r & Hr & _ & Hsrc).
  { rewrite length_map. lia. }
  { exact Hvote. }
  rewrite list_lookup_fmap in Hr.
  destruct (w !! r) as [[a b] |] eqn:Ho; [| discriminate]. simpl in Hr.
  destruct (lookup_lt_is_Some_2 cur r) as [s Hs].
  { rewrite <- Hlen. eapply lookup_lt_Some; eauto. }
  destruct (window_slots_lookup _ _ _ _ _ Hw Hs) as (a' & b' & Ho' & Ha & Hb).
  rewrite Ho in Ho'. inversion Ho'; subst a' b'.
  unfold found_slot. fold (window_match v k w) in Hsrc.
  rewrite Hsrc, Nat2Z.id, Hs, Ho. simpl.
  inversion Hr as [Hor].
  destruct (matches v k a) eqn:Ema.
  - apply matches_iff in Ema as [Hk Hne]. exists s, a. auto.
  - simpl in Hor. apply matches_iff in Hor as [Hk Hne]. exists (s + 1), b. auto.
Qed.

Section Geometry.

Variable hash : Z -> Z.
Variable kbits : Z.
Hypothesis hash_range : forall x, 0 <= hash x < 2 ^ 64.

Variable v : view.
Variable G : Z.
Hypothesis G_pos : 1 <= G.
Hypothesis G_lanes : G <= 32.
Hypothesis capacity_range : 0 <= capacity_ v < 2 ^ 64.
Hypothesis two_windows : 2 <= capacity_ v / (2 * G).
Hypothesis whole_windows : capacity_ v mod (2 * G) = 0.

Local Abbreviation at_window := (GroupTable.at_window hash kbits v G).
Local Abbreviation on_path := (GroupTable.on_path hash kbits v G).
Local Abbreviation built := (GroupTable.built hash kbits v G).
Local Abbreviation reaches_empty := (GroupTable.reaches_empty hash kbits v G).
Local Abbreviation step_of := (Probe.code_step_size hash kbits (capacity_ v) G).

Lemma G_small : 2 * G < 2 ^ 32.
Proof using G_lanes. lia. Qed.

Lemma at_window_ok k (n : nat) cur :
  at_window k n cur ->
  forall (r : nat) s, cur !! r = Some s -> Probe.lane_ok (capacity_ v) s.
Proof using All.
  intros [Hlen Hl] r s Hr.
  pose proof (lookup_lt_Some _ _ _ Hr) as Hlt.
  apply Hl in Hr. unfold Probe.lane_slot in Hr.
  rewrite (ProbeFacts.cg_initial_slot_value hash kbits hash_range (capacity_ v) G
             G_pos G_small capacity_range two_windows (Z.of_nat r) k) in Hr by lia.
  destruct (ProbeFacts.cg_probe_ok hash kbits hash_range (capacity_ v) G
              G_pos G_small capacity_range two_windows whole_windows
              (step_of k) (Probe.spec_initial_index hash (capacity_ v) G (Z.of_nat r) k) n)
    as (s' & Hs' & Hok).
  { apply (ProbeFacts.code_step_size_bounds hash kbits hash_range (capacity_ v) G
             G_pos G_small capacity_range two_windows). }
  { apply (ProbeFacts.spec_initial_index_ok hash kbits hash_range (capacity_ v) G
             G_pos G_small capacity_range two_windows whole_windows). lia. }
  rewrite Hs' in Hr. now inversion Hr; subst.
Qed.

Lemma window_defined slots k (n : nat) cur :
  Z.of_nat (length slots) = capacity_ v ->
  at_window k n cur ->
  (exists w, window_slots slots cur = Some w) /\
  exists cur', advance_lanes v (step_of k) cur = Some cur'.
Proof using All.
  intros Hlen Hw. pose proof (at_window_ok _ _ _ Hw) as Hok. split.
  - apply window_slots_defined. intros r s Hr. destruct (Hok r s Hr) as [_ Hs].
    destruct (InsertBoundsFacts.load_in_bounds v slots s Hlen ltac:(lia)) as [a Ha].
    destruct (InsertBoundsFacts.load_in_bounds v slots (s + 1) Hlen ltac:(lia)) as [b Hb].
    eauto.
  - destruct (InsertBoundsFacts.advance_lanes_in_bounds hash kbits hash_range v G
                G_pos G_small capacity_range two_windows whole_windows
                (step_of k) cur) as (cur' & Hadv & _); [| exact Hok | eauto].
    apply (ProbeFacts.code_step_size_bounds hash kbits hash_range (capacity_ v) G
             G_pos G_small capacity_range two_windows).
Qed.

Lemma start_lanes_defined k :
  exists cur, start_lanes hash kbits v G k = Some (step_of k, cur) /\ at_window k 0 cur.
Proof using All.
  unfold start_lanes.
  rewrite (ProbeFacts.cg_initial_slot_value hash kbits hash_range (capacity_ v) G
             G_pos G_small capacity_range two_windows 0 k) by lia.
  destruct (mapM (fun r : nat =>
                    snd <$> Probe.cg_initial_slot hash kbits (capacity_ v) G (Z.of_nat r) k)
                 (seq 0 (Z.to_nat G))) as [cur |] eqn:Hm.
  - exists cur. split; [reflexivity |].
    exact (GroupTableFacts.initial_lanes hash kbits v G k cur Hm).
  - exfalso. apply mapM_None_1 in Hm. apply Exists_exists in Hm as (r & Hin & Hnone).
    apply in_seq in Hin.
    rewrite (ProbeFacts.cg_initial_slot_value hash kbits hash_range (capacity_ v) G
               G_pos G_small capacity_range two_windows (Z.of_nat r) k) in Hnone by lia.
    discriminate.
Qed.

Section Table.

Variable slots : list slot.
Hypothesis slots_length : Z.of_nat (length slots) = capacity_ v.
Variable k : Z.

(** The lookup stops at the first window of the probe sequence that holds
    the key or an empty slot. *)
Lemma find_stops : forall (N n : nat) cur (fuel : nat),
  at_window k n cur ->
  (N < fuel)%nat ->
  (exists curN, at_window k (n + N) curN /\
     ((k <> empty_key_sentinel_ v /\ window_has_key slots k curN) \/
      window_has_empty v slots curN)) ->
  exists res,
    cg_find_from fuel v slots k (step_of k) cur = Finished res /\
    ((exists a, Storage.load slots res = Some a /\ first a = k /\
                k <> empty_key_sentinel_ v) \/
     (res = capacity_ v /\
      exists (m : nat) curm,
        at_window k m curm /\ window_has_empty v slots curm /\
        forall (j : nat) curj, (j <= m)%nat -> (n <= j)%nat -> at_window k j curj ->
          ~ (k <> empty_key_sentinel_ v /\ window_has_key slots k curj))).
Proof using All.
  induction N as [| N IH]; intros n cur fuel Hw Hfuel (curN & HwN & Hstop);
    (destruct fuel as [| fuel]; [lia |]); cbn [cg_find_from];
    destruct (window_defined slots k n cur slots_length Hw) as [[w Hws] [cur' Hadv]];
    rewrite Hws;
    pose proof (match_vote_is_window v slots k cur w Hws) as Hmatch;
    pose proof (empty_vote_is_window v slots cur w Hws) as Hempty;
    (destruct (Z.eqb_spec (window_match v k w) 0) as [Hm0 | Hm1]; cbn [negb];
     [| destruct (found_slot_holds v slots k cur w) as (loc & a & -> & Ha & Hfa & Hne);
        [destruct Hw as [Hl _]; lia | exact Hws | exact Hm1 |];
        exists loc; split; [reflexivity | left; eauto]]);
    (destruct (Z.eqb_spec (window_empty v w) 0) as [He0 | He1]; cbn [negb];
     [| exists (capacity_ v); split; [reflexivity |]; right; split; [reflexivity |];
        exists n, cur; split; [exact Hw |]; split; [now apply Hempty |];
        intros j curj Hj1 Hj2 Hwj Hkey;
        assert (j = n) by lia; subst j;
        rewrite (GroupTableFacts.at_window_unique hash kbits v G _ _ _ _ Hwj Hw) in Hkey;
        apply Hmatch in Hkey; contradiction]).
  - exfalso. rewrite Nat.add_0_r in HwN.
    rewrite (GroupTableFacts.at_window_unique hash kbits v G _ _ _ _ HwN Hw) in Hstop.
    destruct Hstop as [Hkey | Hemp].
    + apply Hmatch in Hkey. contradiction.
    + apply Hempty in Hemp. contradiction.
  - rewrite Hadv.
    pose proof (GroupTableFacts.at_window_advance hash kbits hash_range v G
                  G_pos G_small capacity_range two_windows k n cur cur' Hw Hadv) as Hw'.
    destruct (IH (S n) cur' fuel Hw' ltac:(lia)) as (res & Hres & Hcase).
    { exists curN. split; [| exact Hstop].
      now replace (S n + N)%nat with (n + S N)%nat by lia. }
    exists res. split; [exact Hres |].
    destruct Hcase as [Hfound | (Hend & m & curm & Hwm & Hemp & Hnokey)];
      [left; exact Hfound |].
    right. split; [exact Hend |]. exists m, curm.
    split; [exact Hwm |]. split; [exact Hemp |].
    intros j curj Hj1 Hj2 Hwj Hkey.
    destruct (decide (j = n)) as [-> | Hd].
    + rewrite (GroupTableFacts.at_window_unique hash kbits v G _ _ _ _ Hwj Hw) in Hkey.
      apply Hmatch in Hkey. contradiction.
    + apply (Hnokey j curj Hj1 ltac:(lia) Hwj Hkey).
Qed.

(** Without the key and without an empty slot on the probe sequence the
    lookup goes from window to window for as long as it is given. *)
Lemma find_spins :
  (forall x, ~ stored v slots k x) ->
  ~ reaches_empty slots k ->
  forall fuel : nat, find_value hash kbits fuel v G slots k = OutOfFuel.
Proof using All.
  intros Hno Hnoempty fuel.
  assert (H : forall (fuel : nat) (n : nat) cur, at_window k n cur ->
            cg_find_from fuel v slots k (step_of k) cur = OutOfFuel).
  { clear fuel. induction fuel as [| fuel IH]; intros n cur Hw; [reflexivity |].
    cbn [cg_find_from].
    destruct (window_defined slots k n cur slots_length Hw) as [[w Hws] [cur' Hadv]].
    rewrite Hws.
    destruct (Z.eqb_spec (window_match v k w) 0) as [_ | Hm]; cbn [negb].
    - destruct (Z.eqb_spec (window_empty v w) 0) as [_ | He]; cbn [negb].
      + rewrite Hadv. apply (IH (S n)).
        exact (GroupTableFacts.at_window_advance hash kbits hash_range v G
                 G_pos G_small capacity_range two_windows k n cur cur' Hw Hadv).
      + exfalso. apply Hnoempty. exists n, cur. split; [exact Hw |].
        now apply (empty_vote_is_window v slots cur w Hws).
    - exfalso. apply (match_vote_is_window v slots k cur w Hws) in Hm
        as (Hne & r & s & loc & a & Hr & Hloc & Ha & Hfa).
      apply (Hno (second a)). split; [exact Hne |]. exists loc.
      now rewrite <- Hfa, slot_eta. }
  destruct (start_lanes_defined k) as (cur0 & Hstart & Hw0).
  unfold find_value, cg_find. rewrite Hstart. now rewrite (H fuel 0%nat cur0 Hw0).
Qed.

Lemma cg_find_from_mono step : forall (fuel : nat) cur (fuel' : nat) res,
  cg_find_from fuel v slots k step cur = Finished res ->
  (fuel <= fuel')%nat ->
  cg_find_from fuel' v slots k step cur = Finished res.
Proof using Type.
  induction fuel as [| fuel IH]; intros cur fuel' res H Hle; [discriminate |].
  destruct fuel' as [| fuel']; [lia |]. cbn [cg_find_from] in *.
  destruct (window_slots slots cur) as [w |]; [| discriminate].
  destruct (negb (window_match v k w =? 0)); [exact H |].
  destruct (negb (window_empty v w =? 0)); [exact H |].
  destruct (advance_lanes v step cur) as [cur' |]; [| discriminate].
  apply IH; [exact H | lia].
Qed.

(** Every key in the table lies on its probe sequence behind full
    windows: what a bulk insert leaves. *)
Hypothesis closed : forall loc s,
  Storage.load slots loc = Some s -> first s <> empty_key_sentinel_ v ->
  on_path slots (first s) loc.

Lemma stored_stops x :
  stored v slots k x ->
  exists (n : nat) cur,
    at_window k n cur /\ window_has_key slots k cur /\
    forall (m : nat) curm, (m < n)%nat -> at_window k m curm -> window_full v slots curm.
Proof using closed.
  intros (Hne & loc & Hload).
  destruct (closed loc (Slot k x) Hload Hne) as (n & cur & r & s & Hw & Hr & Hloc & Hfull).
  exists n, cur. split; [exact Hw |]. split; [| exact Hfull].
  exists r, s, loc, (Slot k x). auto.
Qed.

(** What the lookup of one key gives on such a table. *)
Lemma find_value_ok :
  ((forall x, ~ stored v slots k x) -> reaches_empty slots k) ->
  exists (F : nat) o,
    (forall fuel : nat, (F <= fuel)%nat ->
       find_value hash kbits fuel v G slots k = Finished o) /\
    ((exists x, stored v slots k x) -> stored v slots k o) /\
    ((forall x, ~ stored v slots k x) -> o = empty_value_sentinel_ v).
Proof using All.
  intros Hstops.
  assert (HN : exists (N : nat) curN, at_window k N curN /\
            ((k <> empty_key_sentinel_ v /\ window_has_key slots k curN) \/
             window_has_empty v slots curN)).
  { destruct (stored_or_not v slots k) as [[x Hx] | Hno].
    - destruct (stored_stops x Hx) as (n & cur & Hw & Hkey & _).
      exists n, cur. split; [exact Hw |]. left. split; [apply Hx | exact Hkey].
    - destruct (Hstops Hno) as (n & cur & Hw & Hemp). exists n, cur. auto. }
  destruct HN as (N & curN & HwN & Hstop).
  destruct (start_lanes_defined k) as (cur0 & Hstart & Hw0).
  destruct (find_stops N 0 cur0 (S N) Hw0 ltac:(lia)) as (res & Hres & Hcase).
  { exists curN. auto. }
  assert (Hfind : forall fuel : nat, (S N <= fuel)%nat ->
            cg_find hash kbits fuel v G slots k = Finished res).
  { intros fuel Hle. unfold cg_find. rewrite Hstart.
    eapply cg_find_from_mono; eauto. }
  destruct Hcase as [(a & Ha & Hfa & Hne) | (Hend & m & curm & Hwm & Hemp & Hnokey)].
  - exists (S N), (second a). split; [| split].
    + intros fuel Hle. unfold find_value. rewrite (Hfind fuel Hle).
      destruct (load_Some_range _ _ _ Ha) as [H0 Hlt].
      destruct (Z.eqb_spec res (capacity_ v)); [lia |]. now rewrite Ha.
    + intros _. split; [exact Hne |]. exists res. now rewrite <- Hfa, slot_eta.
    + intros Hno. exfalso. apply (Hno (second a)).
      split; [exact Hne |]. exists res. now rewrite <- Hfa, slot_eta.
  - exists (S N), (empty_value_sentinel_ v). split; [| split].
    + intros fuel Hle. unfold find_value. rewrite (Hfind fuel Hle), Hend.
      now rewrite Z.eqb_refl.
    + intros [x Hx]. exfalso.
      destruct (stored_stops x Hx) as (n' & cur' & Hw' & Hkey & Hfull).
      destruct (le_lt_dec n' m) as [Hle | Hlt].
      * apply (Hnokey n' cur' Hle ltac:(lia) Hw'). split; [apply Hx | exact Hkey].
      * pose proof (Hfull m curm Hlt Hwm) as Hf.
        destruct Hemp as (r & s & loc & a & Hr & Hloc & Ha & Hfa).
        destruct (Hf r s Hr) as (a1 & b1 & Ha1 & Hb1 & Hn1 & Hn2).
        destruct Hloc as [-> | ->]; congruence.
    + reflexivity.
Qed.

End Table.

(** The bulk lookup: one output per key, in the order of the keys. *)
Lemma bulk_find_ok (slots : list slot) :
  Z.of_nat (length slots) = capacity_ v ->
  (forall loc s, Storage.load slots loc = Some s ->
     first s <> empty_key_sentinel_ v -> on_path slots (first s) loc) ->
  forall keys : list Z,
  (forall k, In k keys -> (forall x, ~ stored v slots k x) -> reaches_empty slots k) ->
  exists (F : nat) outs,
    (forall fuel : nat, (F <= fuel)%nat ->
       bulk_find hash kbits fuel v G slots keys = Finished outs) /\
    length outs = length keys /\
    forall (i : nat) k, keys !! i = Some k ->
      exists o, outs !! i = Some o /\
        ((exists x, stored v slots k x) -> stored v slots k o) /\
        ((forall x, ~ stored v slots k x) -> o = empty_value_sentinel_ v).
Proof using All.
  intros Hlen Hclosed keys. induction keys as [| k rest IH]; intros Hkeys.
  - exists 0%nat, []. split; [reflexivity |]. split; [reflexivity |].
    intros i k Hi. discriminate.
  - destruct (find_value_ok slots Hlen k Hclosed (Hkeys k (or_introl eq_refl)))
      as (F1 & o & Hfind & Hpres & Habs).
    destruct IH as (F2 & outs & Hbulk & Hl & Hout).
    { intros k' Hin. apply Hkeys. now right. }
    exists (Nat.max F1 F2), (o :: outs). split; [| split].
    + intros fuel Hle. cbn [bulk_find].
      rewrite (Hfind fuel ltac:(lia)), (Hbulk fuel ltac:(lia)). reflexivity.
    + simpl. now rewrite Hl.
    + intros [| i] k' Hi; simpl in Hi.
      * inversion Hi; subst k'. exists o. auto.
      * apply (Hout i k' Hi).
Qed.


End Geometry.

End GroupFindFacts.

Module GroupFindExamples.

Import Insert InsertRun GroupTable BulkFind ExampleInsert ExampleMore.
Import Iter.

Lemma scenario_entered : entered Example.hash32 32 v8 2 scenario.
Proof.
  intros t g H. destruct t as [| [| [| t]]]; simpl in H; inversion H; subst.
  - exists (1, 10). vm_compute. reflexivity.
  - exists (1, 20). vm_compute. reflexivity.
  - exists (2, 30). vm_compute. reflexivity.
Qed.

Lemma scenario_valid : valid_pairs v8 scenario.
Proof.
  intros t g H.
  destruct t as [| [| [| t]]]; simpl in H; inversion H; subst; split; discriminate.
Qed.

(** Key 3 was not inserted; its probe sequence starts at the window of
    slots 4..7, which has empty slots. *)
Lemma key_3_reaches_empty :
  reaches_empty Example.hash32 32 v8 2 (slots_ (after scenario_schedule scenario)) 3.
Proof.
  exists 0%nat, [4; 6]. split.
  - split; [reflexivity |].
    intros r s Hr. destruct r as [| [| r]]; simpl in Hr; inversion Hr; subst;
      vm_compute; reflexivity.
  - exists 1%nat, 6, 6, blank. repeat split. now left.
Qed.


End GroupFindExamples.
